(** * Least-squares regression by sufficient statistics and Cholesky solve

    A shallow embedding of [lr/lr.py] (the map-reduce job [LinearRegressionTS]
    with its helper [cholesky_solution_linear_regression]) and of
    [lr/lr_norm.py] (the single-process reader [LinearRegression]).

    - NumPy arrays are lists of scalars (one dimension) and lists of rows
      (two dimensions).
    - The objects of the two classes are records; their methods are
      computations in a state-and-exception monad, in which what a method
      wrote before it raised stays written.  The helper of [lr.py] updates
      the array it is given: it returns the contents of that array with its
      result.
    - The program is written once over an interface of scalars, with two
      instances.  IEEE binary64 (the primitive floats) is what NumPy
      computes with: on it the program runs.  The real numbers are the
      reading under which the algebraic properties are stated and proved:
      it leaves rounding, infinities and NaN out, as the specification does
      when it says "within floating-point tolerance".
    - The calls into NumPy are modelled by what NumPy documents:
      [np.linalg.cholesky] by the Cholesky factorisation of the lower
      triangle, failing on a pivot that is negative or zero;
      [np.linalg.solve] by Gaussian elimination with partial pivoting
      (LAPACK's [gesv]), failing on a zero pivot.  Over the real numbers
      these are the exact factorisation and the exact solution.  In
      binary64 they fix one order of the operations, where LAPACK is free
      to use another: a result may differ from NumPy's in the last bits,
      so what is stated in binary64 are outcomes that do not depend on
      them.  Python's [float] on strings is a parameter. *)

From Stdlib Require Import String Ascii DecimalString.
From Stdlib Require Import ZArith Bool Arith Lia Reals Lra Permutation.
From Stdlib Require Floats DecimalNat.
From Stdlib Require Import List.
Import ListNotations.

Set Implicit Arguments.

(** ** Scalars *)

Class Scalar (T : Type) : Type := {
  szero : T;
  sone  : T;
  sadd  : T -> T -> T;
  ssub  : T -> T -> T;
  smul  : T -> T -> T;
  sdiv  : T -> T -> T;
  ssqrt : T -> T;
  sabs  : T -> T;
  sltb  : T -> T -> bool;
  seqb  : T -> T -> bool;
  (** the literal [1e-10], default of [regularization] in [lr.py] *)
  s1e_10 : T
}.

Declare Scope scalar_scope.
Delimit Scope scalar_scope with S.
Infix "+" := sadd : scalar_scope.
Infix "-" := ssub : scalar_scope.
Infix "*" := smul : scalar_scope.
Infix "/" := sdiv : scalar_scope.

(** ** NumPy arrays and the operations the program uses *)

(** one-dimensional arrays, and two-dimensional arrays as lists of rows *)
Abbreviation vector T := (list T).
Abbreviation matrix T := (list (list T)).

Section Arrays.
Context {T : Type} `{Scalar T}.
Local Abbreviation vec := (vector T).
Local Abbreviation mat := (matrix T).

(** [zip_with f] is the element-wise operation on two arrays of one shape.
    The program only combines arrays of equal shapes, [n] and [n x n] with
    [n = DIMENSION + int(BIAS)]; where a property needs the shapes, it says
    so ([dims], [shaped]). *)
Fixpoint zip_with (f : T -> T -> T) (u v : vec) : vec :=
  match u, v with
  | a :: u', b :: v' => f a b :: zip_with f u' v'
  | _, _ => []
  end.

Definition vadd : vec -> vec -> vec := zip_with sadd.
Definition vsub : vec -> vec -> vec := zip_with ssub.

(** [k * x] for a scalar [k] and a one-dimensional array [x] *)
Definition scale (k : T) (x : vec) : vec := map (fun a => (k * a)%S) x.

Fixpoint dot (u v : vec) : T :=
  match u, v with
  | a :: u', b :: v' => (a * b + dot u' v')%S
  | _, _ => szero
  end.

Fixpoint mzip (f : vec -> vec -> vec) (A B : mat) : mat :=
  match A, B with
  | r :: A', s :: B' => f r s :: mzip f A' B'
  | _, _ => []
  end.

Definition madd : mat -> mat -> mat := mzip vadd.
Definition msub : mat -> mat -> mat := mzip vsub.

(** [np.zeros(n)] and [np.zeros([m, n])] *)
Definition zeros (n : nat) : vec := repeat szero n.
Definition mzeros (m n : nat) : mat := repeat (zeros n) m.

(** [np.outer(x, y)] *)
Definition outer (x y : vec) : mat := map (fun a => scale a y) x.

(** [np.eye(n)] *)
Fixpoint eye (n : nat) : mat :=
  match n with
  | O => []
  | S n' => (sone :: zeros n') :: map (cons szero) (eye n')
  end.

(** [A * k] for a two-dimensional array [A] and a scalar [k] *)
Definition mscale (A : mat) (k : T) : mat :=
  map (map (fun a => (a * k)%S)) A.

(** first column and remaining columns of a matrix given by rows, and
    the matrix with one more column in front *)
Definition hd0 (r : vec) : T := hd szero r.
Definition hdcol (A : mat) : vec := map hd0 A.
Definition tlcols (A : mat) : mat := map (@tl T) A.

Fixpoint cons_col (c : vec) (A : mat) : mat :=
  match c, A with
  | x :: c', r :: A' => (x :: r) :: cons_col c' A'
  | _, _ => []
  end.

(** [np.transpose(A)] for [A] with [n] columns *)
Fixpoint transpose_cols (n : nat) (A : mat) : mat :=
  match n with
  | O => []
  | S n' => hdcol A :: transpose_cols n' (tlcols A)
  end.

Definition ncols (A : mat) : nat := length (hd [] A).
Definition transpose (A : mat) : mat := transpose_cols (ncols A) A.

(** matrix times vector, and [A . B^T] (entry [i, j] is row [i] of [A]
    times row [j] of [B]) *)
Definition mvmul (A : mat) (x : vec) : vec := map (fun r => dot r x) A.
Definition mul_transpose (A B : mat) : mat := map (fun r => mvmul B r) A.
Definition mmul (A B : mat) : mat := mul_transpose A (transpose B).

(** *** [np.linalg.cholesky]

    The lower Cholesky factor, computed column by column: a first pivot
    that is negative or zero is refused (LAPACK reports the leading minor
    as not positive definite and NumPy raises [LinAlgError]); otherwise its
    square root is the diagonal entry, the column below is divided by it,
    and the rest of the matrix is updated by the outer product of that
    column before the factorisation goes on with it.  Only the lower
    triangle is read.  The test is [pivot <= 0]: in binary64 a NaN pivot is
    not refused, and the factor then holds NaN. *)
Fixpoint cholesky_rec (n : nat) (A : mat) : option mat :=
  match n with
  | O => Some []
  | S n' =>
      match A with
      | (a :: _) :: rows =>
          if sltb a szero || seqb a szero then None
          else
            let l := ssqrt a in
            let c := map (fun r => (hd0 r / l)%S) rows in
            match cholesky_rec n' (msub (tlcols rows) (outer c c)) with
            | Some L' => Some ((l :: zeros n') :: cons_col c L')
            | None => None
            end
      | _ => None
      end
  end.

Definition np_linalg_cholesky (A : mat) : option mat :=
  cholesky_rec (length A) A.

(** *** [np.linalg.solve]

    LAPACK's [gesv]: Gaussian elimination with partial pivoting.  In each
    column the first row of largest absolute value is exchanged with the
    top row; an exactly zero pivot means a singular matrix. *)
Fixpoint argmax_abs (best : T) (bi i : nat) (col : vec) : nat :=
  match col with
  | [] => bi
  | c :: col' =>
      if sltb best (sabs c) then argmax_abs (sabs c) i (S i) col'
      else argmax_abs best bi (S i) col'
  end.

Definition pivot_index (col : vec) : nat :=
  match col with
  | [] => O
  | c :: col' => argmax_abs (sabs c) 0 1 col'
  end.

(** exchange of the elements at positions [0] and [p] *)
Definition swap0 {X : Type} (p : nat) (l : list X) : list X :=
  match l, p with
  | x :: t, S p' =>
      match nth_error t p' with
      | Some y => y :: firstn p' t ++ x :: skipn (S p') t
      | None => l
      end
  | _, _ => l
  end.

Fixpoint gesv (n : nat) (A : mat) (b : vec) : option vec :=
  match n with
  | O => Some []
  | S n' =>
      let p := pivot_index (hdcol A) in
      match swap0 p A, swap0 p b with
      | (a :: r) :: rows, b0 :: bs =>
          if seqb a szero then None
          else
            let m := map (fun row => (hd0 row / a)%S) rows in
            match gesv n' (msub (tlcols rows) (outer m r))
                           (vsub bs (scale b0 m)) with
            | Some y => Some (((b0 - dot r y) / a)%S :: y)
            | None => None
            end
      | _, _ => None
      end
  end.

Definition np_linalg_solve (A : mat) (b : vec) : option vec :=
  gesv (length A) A b.

(** *** The two triangular solves, as the specification describes them

    Forward substitution for a lower triangular system: the first unknown is
    read off the first equation and moved to the right-hand side of the
    others.  Back substitution for an upper triangular system: the unknowns
    after the first are solved for, then the first equation gives the first. *)
Fixpoint forward_subst (n : nat) (L : mat) (b : vec) : vec :=
  match n, L, b with
  | S n', (l :: _) :: rows, b0 :: bs =>
      let z0 := (b0 / l)%S in
      z0 :: forward_subst n' (tlcols rows) (vsub bs (scale z0 (hdcol rows)))
  | _, _, _ => []
  end.

Fixpoint back_subst (n : nat) (U : mat) (z : vec) : vec :=
  match n, U, z with
  | S n', (u :: r) :: rows, z0 :: zs =>
      let t := back_subst n' (tlcols rows) zs in
      ((z0 - dot r t) / u)%S :: t
  | _, _, _ => []
  end.

End Arrays.

(** ** Python strings: [str.strip] and [str.split(",")] *)

(** ASCII white space, as [str.isspace] has it *)
Definition is_space (c : ascii) : bool :=
  let n := nat_of_ascii c in
  ((9 <=? n) && (n <=? 13)) || ((28 <=? n) && (n <=? 32)).

Fixpoint lstrip (s : string) : string :=
  match s with
  | String c s' => if is_space c then lstrip s' else s
  | EmptyString => EmptyString
  end.

Fixpoint rstrip (s : string) : string :=
  match s with
  | EmptyString => EmptyString
  | String c s' =>
      match rstrip s' with
      | EmptyString => if is_space c then EmptyString else String c EmptyString
      | t => String c t
      end
  end.

Definition strip (s : string) : string := rstrip (lstrip s).

(** [s.split(",")]: the fields between commas, at least one *)
Fixpoint split_comma (s : string) : list string :=
  match s with
  | EmptyString => [EmptyString]
  | String c s' =>
      if Ascii.eqb c ","%char then EmptyString :: split_comma s'
      else match split_comma s' with
           | t :: ts => String c t :: ts
           | [] => [String c EmptyString]
           end
  end.

Definition str_of_nat (n : nat) : string :=
  NilZero.string_of_uint (Nat.to_uint n).

(** ** Exceptions and the state-and-exception monad *)

Inductive exn : Type :=
| FloatValueError (token : string)
    (** [ValueError] of [float(e)]: the token is not a number *)
| IndexError
| DimensionMismatchError (exp obs : nat)
    (** the class of [lr.py], with its two fields *)
| ValueError (msg : string)
    (** [ValueError] raised with a message by [lr_norm.py] *)
| LinAlgError_NotPositiveDefinite
    (** [np.linalg.cholesky] *)
| LinAlgError_Singular.
    (** [np.linalg.solve] *)

(** A computation on a mutable object of type [St]: it ends with a value or
    an exception, and in both cases leaves the object in some state (what was
    written before a [raise] stays written). *)
Definition M (St A : Type) : Type := St -> (exn + A) * St.

Definition ret {St A} (a : A) : M St A := fun s => (inr a, s).
Definition raise {St A} (e : exn) : M St A := fun s => (inl e, s).
Definition bind {St A B} (m : M St A) (f : A -> M St B) : M St B :=
  fun s => match m s with
           | (inr a, s') => f a s'
           | (inl e, s') => (inl e, s')
           end.
Definition get {St} : M St St := fun s => (inr s, s).
Definition put {St} (s : St) : M St unit := fun _ => (inr tt, s).
Definition modify {St} (f : St -> St) : M St unit := fun s => (inr tt, f s).
Definition lift_option {St A} (e : exn) (o : option A) : M St A :=
  match o with Some a => ret a | None => raise e end.

Declare Scope monad_scope.
Delimit Scope monad_scope with monad.
Notation "x <- m ;; k" := (bind m (fun x => k))
  (at level 61, m at next level, right associativity) : monad_scope.
Notation "' p <- m ;; k" := (bind m (fun x => match x with p => k end))
  (at level 61, p pattern, m at next level, right associativity) : monad_scope.
Notation "m ;; k" := (bind m (fun _ => k))
  (at level 61, right associativity) : monad_scope.

(** [for x in l: body(x)] *)
Fixpoint for_each {St X} (body : X -> M St unit) (l : list X) : M St unit :=
  match l with
  | [] => ret tt
  | x :: l' => (body x ;; for_each body l')%monad
  end.

(** a call of a function that does not touch the object *)
Definition call {St A} (r : exn + A) : M St A := fun s => (r, s).

(** [[float(e) for e in tokens]]: the first token that is not a number
    raises *)
Fixpoint floats_of {T} (py_float : string -> option T) (tokens : list string)
  : exn + list T :=
  match tokens with
  | [] => inr []
  | e :: tokens' =>
      match py_float e with
      | None => inl (FloatValueError e)
      | Some v =>
          match floats_of py_float tokens' with
          | inl err => inl err
          | inr vs => inr (v :: vs)
          end
      end
  end.

(** ** The two classes *)

(** The attributes both classes have. *)
Record LR (T : Type) : Type := mkLR {
  DIMENSION : nat;
  BIAS : bool;
  x_t_x : matrix T;
  x_t_y : vector T;
  counts : Z
}.
Arguments mkLR {T}.
Arguments DIMENSION {T}.
Arguments BIAS {T}.
Arguments x_t_x {T}.
Arguments x_t_y {T}.
Arguments counts {T}.

Definition set_x_t_x {T} (a : matrix T) (self : LR T) : LR T :=
  mkLR (DIMENSION self) (BIAS self) a (x_t_y self) (counts self).
Definition set_x_t_y {T} (v : vector T) (self : LR T) : LR T :=
  mkLR (DIMENSION self) (BIAS self) (x_t_x self) v (counts self).
Definition set_counts {T} (c : Z) (self : LR T) : LR T :=
  mkLR (DIMENSION self) (BIAS self) (x_t_x self) (x_t_y self) c.

(** [int(b)] for a boolean *)
Definition int (b : bool) : nat := if b then 1 else 0.

Section Common.
Context {T : Type} `{Scalar T}.
Local Abbreviation vec := (vector T).
Local Abbreviation mat := (matrix T).
(** Python's [float] on strings *)
Variable py_float : string -> option T.

(** [__init__], the same in both classes ([LinearRegressionTS] takes
    [DIMENSION] and [BIAS] from its class attributes, 8 and True). *)
Definition init (dimension : nat) (bias : bool) : LR T :=
  let n := dimension + int bias in
  mkLR dimension bias (mzeros n n) (zeros n) 0%Z.

(** [extract_variables], the same in both classes; it does not use [self] *)
Definition extract_variables (line : string) : exn + (T * vec) :=
  match floats_of py_float (split_comma (strip line)) with
  | inl e => inl e
  | inr (y :: features) => inr (y, features)
  | inr [] => inl IndexError
  end.
End Common.

(** *** lr.py *)
Module lr.
Section LinearRegressionTS.
Context {T : Type} `{Scalar T}.
Local Abbreviation vec := (vector T).
Local Abbreviation mat := (matrix T).
Variable py_float : string -> option T.

(** The first argument is passed by reference and updated in place
    ([x_t_x += ...]): the result comes with the contents of the caller's
    array when the function returns or raises. *)
Definition cholesky_solution_linear_regression
    (x_t_x : mat) (x_t_y : vec) (regularization : T) : (exn + vec) * mat :=
  (modify (fun a => madd a (mscale (eye (length a)) regularization)) ;;
   a <- get ;;
   L <- lift_option LinAlgError_NotPositiveDefinite (np_linalg_cholesky a) ;;
   z <- lift_option LinAlgError_Singular (np_linalg_solve L x_t_y) ;;
   theta <- lift_option LinAlgError_Singular (np_linalg_solve (transpose L) z) ;;
   ret theta)%monad x_t_x.

Definition mapper_lr (line : string) : M (LR T) unit :=
  ('(y, features) <- call (extract_variables py_float line) ;;
   self <- get ;;
   if negb (length features =? DIMENSION self) then
     raise (DimensionMismatchError (DIMENSION self) (length features))
   else
     let features := if BIAS self then features ++ [sone] else features in
     let x := features in
     modify (fun self => set_x_t_x (madd (x_t_x self) (outer x x)) self) ;;
     modify (fun self => set_x_t_y (vadd (x_t_y self) (scale y x)) self) ;;
     modify (fun self => set_counts (counts self + 1)%Z self))%monad.

(** The tagged values a mapper sends to the reducer:
    [("x_t_x", rows)], [("x_t_y", list)] and [("counts", int)]. *)
Inductive value : Type :=
| V_x_t_x (rows : mat)
| V_x_t_y (v : vec)
| V_counts (c : Z).

Definition mapper_lr_final (self : LR T) : list value :=
  [V_x_t_x (x_t_x self); V_x_t_y (x_t_y self); V_counts (counts self)].

(** The locals [x_t_x], [x_t_y], [observations] of [reducer_lr] and the
    body of its loop. *)
Definition reducer_step (acc : mat * vec * Z) (val : value) : mat * vec * Z :=
  let '(x_t_x, x_t_y, observations) := acc in
  match val with
  | V_x_t_x rows => (madd x_t_x rows, x_t_y, observations)
  | V_x_t_y v => (x_t_x, vadd x_t_y v, observations)
  | V_counts c => (x_t_x, x_t_y, (observations + c)%Z)
  end.

Definition reducer_sums (self : LR T) (values : list value) : mat * vec * Z :=
  let n := DIMENSION self + int (BIAS self) in
  fold_left reducer_step values (mzeros n n, zeros n, 0%Z).

Definition reducer_lr (self : LR T) (values : list value) : exn + vec :=
  let '(x_t_x, x_t_y, observations) := reducer_sums self values in
  let betas := cholesky_solution_linear_regression x_t_x x_t_y s1e_10 in
  fst betas.

(** One map task: a fresh instance reads its lines and then emits. *)
Definition map_task (dimension : nat) (bias : bool) (lines : list string)
  : exn + list value :=
  match for_each mapper_lr lines (init dimension bias) with
  | (inr _, self) => inr (mapper_lr_final self)
  | (inl e, _) => inl e
  end.

(** The job on the given partitions of the input: every map task runs, the
    single reducer receives all the values (all have key [1]). *)
Fixpoint map_phase (dimension : nat) (bias : bool) (partitions : list (list string))
  : exn + list value :=
  match partitions with
  | [] => inr []
  | lines :: rest =>
      match map_task dimension bias lines with
      | inl e => inl e
      | inr vs =>
          match map_phase dimension bias rest with
          | inl e => inl e
          | inr ws => inr (vs ++ ws)
          end
      end
  end.

Definition job (dimension : nat) (bias : bool) (partitions : list (list string))
  : exn + vec :=
  match map_phase dimension bias partitions with
  | inl e => inl e
  | inr values => reducer_lr (init dimension bias) values
  end.
End LinearRegressionTS.
End lr.

(** *** lr_norm.py *)
Module lr_norm.
Section LinearRegression.
Context {T : Type} `{Scalar T}.
Local Abbreviation vec := (vector T).
Local Abbreviation mat := (matrix T).
Variable py_float : string -> option T.

Definition process_line (line : string) : M (LR T) unit :=
  ('(y, features) <- call (extract_variables py_float line) ;;
   self <- get ;;
   if negb (length features =? DIMENSION self) then
     raise (ValueError ("Expected dimension " ++ str_of_nat (DIMENSION self)
                        ++ ", but got " ++ str_of_nat (length features))%string)
   else
     let features := if BIAS self then features ++ [sone] else features in
     let x := features in
     modify (fun self => set_x_t_x (madd (x_t_x self) (outer x x)) self) ;;
     modify (fun self => set_x_t_y (vadd (x_t_y self) (scale y x)) self) ;;
     modify (fun self => set_counts (counts self + 1)%Z self))%monad.

Definition cholesky_solution_linear_regression : M (LR T) vec :=
  (self <- get ;;
   L <- lift_option LinAlgError_NotPositiveDefinite (np_linalg_cholesky (x_t_x self)) ;;
   y <- lift_option LinAlgError_Singular (np_linalg_solve L (x_t_y self)) ;;
   betas <- lift_option LinAlgError_Singular (np_linalg_solve (transpose L) y) ;;
   ret betas)%monad.

(** [run], given the lines of the file *)
Definition run (lines : list string) : M (LR T) vec :=
  (for_each process_line lines ;;
   cholesky_solution_linear_regression)%monad.

(** the main program: [LinearRegression(dimension, bias).run(file)] *)
Definition main (dimension : nat) (bias : bool) (lines : list string)
  : exn + vec :=
  fst (run lines (init dimension bias)).
End LinearRegression.
End lr_norm.


(** ** The two readings of the scalars *)

(** decimal integer literals, with white space around them and a sign, as
    [float] reads them *)
Fixpoint digits (acc : Z) (s : string) : option Z :=
  match s with
  | EmptyString => Some acc
  | String c s' =>
      let n := nat_of_ascii c in
      if (48 <=? n) && (n <=? 57) then digits (10 * acc + Z.of_nat (n - 48)) s'
      else None
  end.

Definition int_literal (s : string) : option Z :=
  match strip s with
  | EmptyString => None
  | String "-" (String c r) => option_map Z.opp (digits 0 (String c r))
  | s' => digits 0 s'
  end.

(** *** IEEE binary64, as NumPy's [float64] *)
Module Binary64.
Import Floats.

#[export] Instance float_scalar : Scalar float := {|
  szero := 0%float;
  sone  := 1%float;
  sadd  := PrimFloat.add;
  ssub  := PrimFloat.sub;
  smul  := PrimFloat.mul;
  sdiv  := PrimFloat.div;
  ssqrt := PrimFloat.sqrt;
  sabs  := PrimFloat.abs;
  sltb  := PrimFloat.ltb;
  seqb  := PrimFloat.eqb;
  s1e_10 := (1 / 10000000000)%float
|}.

Definition float_of_Z (z : Z) : float :=
  match z with
  | Z0 => 0%float
  | Zpos p => PrimFloat.of_uint63 (Uint63.of_Z z)
  | Zneg p => PrimFloat.opp (PrimFloat.of_uint63 (Uint63.of_Z (Zpos p)))
  end.

(** [float] on the decimal integer literals below [2^63] in absolute
    value, enough to run the program on sample lines; any other token is not
    a number for it, although Python's [float] reads more (a decimal point,
    an exponent, a plus sign, [inf], [nan]) *)
Definition float_of_literal (s : string) : option float :=
  match int_literal s with
  | Some z => if (Z.abs z <? 2 ^ 63)%Z then Some (float_of_Z z) else None
  | None => None
  end.

End Binary64.

(** *** Real numbers *)
Definition Rltb (x y : R) : bool := if Rlt_dec x y then true else false.
Definition Reqb (x y : R) : bool := if Req_dec_T x y then true else false.

Definition real_of_literal (s : string) : option R :=
  option_map IZR (int_literal s).

#[export] Instance R_scalar : Scalar R := {|
  szero := 0%R;
  sone  := 1%R;
  sadd  := Rplus;
  ssub  := Rminus;
  smul  := Rmult;
  sdiv  := Rdiv;
  ssqrt := sqrt;
  sabs  := Rabs;
  sltb  := Rltb;
  seqb  := Reqb;
  s1e_10 := (/ 10000000000)%R
|}.


(** ** The vocabulary of the properties *)

Section ProgramVocabulary.
Context {T : Type} `{Scalar T}.
Local Abbreviation vec := (vector T).
Local Abbreviation mat := (matrix T).

(** the three NumPy calls that both solvers make, one after the other *)
Definition cholesky_solve (A : mat) (b : vec) : exn + vec :=
  match np_linalg_cholesky A with
  | None => inl LinAlgError_NotPositiveDefinite
  | Some L =>
      match np_linalg_solve L b with
      | None => inl LinAlgError_Singular
      | Some z =>
          match np_linalg_solve (transpose L) z with
          | None => inl LinAlgError_Singular
          | Some theta => inr theta
          end
      end
  end.

(** [x_t_x + np.eye(x_t_x.shape[0]) * regularization] *)
Definition damped (A : mat) (regularization : T) : mat :=
  madd A (mscale (eye (length A)) regularization).

(** the feature vector of a record, with the constant when there is a bias *)
Definition effective (bias : bool) (features : vec) : vec :=
  if bias then features ++ [sone] else features.

(** a statistic: matrix, vector and count *)
Definition statistic : Type := (mat * vec * Z)%type.

Definition statistic_of (self : LR T) : statistic :=
  (x_t_x self, x_t_y self, counts self).

Definition zero_statistic (n : nat) : statistic :=
  (mzeros n n, zeros n, 0%Z).

(** the values by which a statistic travels to the reducer *)
Definition values_of (s : statistic) : list (@lr.value T) :=
  let '(A, v, c) := s in [lr.V_x_t_x A; lr.V_x_t_y v; lr.V_counts c].

(** merging [b] into [a]: the loop of the reducer, its sums being [a], reads
    the values of [b] *)
Definition merge (a b : statistic) : statistic :=
  fold_left lr.reducer_step (values_of b) a.

(** merge in the words of the specification: field by field *)
Definition merge_spec (a b : statistic) : statistic :=
  let '(A, u, c) := a in
  let '(B, v, d) := b in
  (madd A B, vadd u v, (c + d)%Z).

(** the record after one more observation *)
Definition accumulated (self : LR T) (y : T) (x : vector T) : LR T :=
  mkLR (DIMENSION self) (BIAS self)
       (madd (x_t_x self) (outer x x))
       (vadd (x_t_y self) (scale y x))
       (counts self + 1)%Z.

End ProgramVocabulary.

(** the exception of [lr_norm.py] for the one of [lr.py] *)
Definition as_lr_norm (e : exn) : exn :=
  match e with
  | DimensionMismatchError d k =>
      ValueError ("Expected dimension " ++ str_of_nat d
                  ++ ", but got " ++ str_of_nat k)%string
  | _ => e
  end.

Definition map_error {A St} (f : exn -> exn) (r : (exn + A) * St) : (exn + A) * St :=
  match r with
  | (inl e, s) => (inl (f e), s)
  | (inr a, s) => (inr a, s)
  end.

(** [m] rows of [n] entries each *)
Definition dims {T} (m n : nat) (A : matrix T) : Prop :=
  length A = m /\ Forall (fun r => length r = n) A.

(** a statistic of the configured dimension [n] *)
Definition shaped {T} (n : nat) (s : @statistic T) : Prop :=
  let '(A, v, _) := s in dims n n A /\ length v = n.

Section Vocabulary.
Local Open Scope R_scope.
Local Abbreviation vec := (vector R).
Local Abbreviation mat := (matrix R).

(** the quadratic form [x^T A x] *)
Definition quad (A : mat) (x : vec) : R := dot x (mvmul A x).

(** positive definite: square, symmetric, with a positive quadratic form
    away from zero *)
Definition pos_def (n : nat) (A : mat) : Prop :=
  dims n n A /\ transpose A = A /\
  forall x, length x = n -> x <> zeros n -> 0 < quad A x.

(** symmetric matrices, by their first row and column and the rest *)
Inductive sym_border : nat -> mat -> Prop :=
| sym_border_O : sym_border 0 []
| sym_border_S n a c B :
    length c = n -> dims n n B -> sym_border n B ->
    sym_border (S n) ((a :: c) :: cons_col c B).

(** lower triangular with a positive diagonal, by first row and column *)
Inductive lower_border : nat -> mat -> Prop :=
| lower_border_O : lower_border 0 []
| lower_border_S n l c L :
    0 < l -> length c = n -> dims n n L -> lower_border n L ->
    lower_border (S n) ((l :: zeros n) :: cons_col c L).

(** entry by entry: zero above the diagonal, positive on it *)
Definition lower_triangular (L : mat) : Prop :=
  forall i j, (i < j)%nat -> nth j (nth i L []) 0 = 0.

Definition positive_diagonal (n : nat) (L : mat) : Prop :=
  forall i, (i < n)%nat -> 0 < nth i (nth i L []) 0.

(** what holds of the object of either class all along: [x_t_x] is square of
    the configured size, symmetric and positive semi-definite, and [x_t_y]
    has that size *)
Definition well_formed (self : LR R) : Prop :=
  let n := (DIMENSION self + int (BIAS self))%nat in
  sym_border n (x_t_x self) /\ length (x_t_y self) = n /\
  forall v, length v = n -> 0 <= quad (x_t_x self) v.

(** only the zero vector is sent to zero *)
Definition nonsingular (n : nat) (A : mat) : Prop :=
  forall x, length x = n -> mvmul A x = zeros n -> x = zeros n.

End Vocabulary.

(** ** More of the program, and the vocabulary of the further properties *)

(** [DimensionMismatchError.__str__] of [lr.py] *)
Definition DimensionMismatchError_str (exp obs : nat) : string :=
  ("Expected number of dimensions: " ++ str_of_nat exp
   ++ ", observed: " ++ str_of_nat obs)%string.

(** the number of commas of a string *)
Fixpoint commas (s : string) : nat :=
  match s with
  | EmptyString => O
  | String c s' => if Ascii.eqb c ","%char then S (commas s') else commas s'
  end.

(** every character of the string is white space *)
Fixpoint blank (s : string) : bool :=
  match s with
  | EmptyString => true
  | String c s' => is_space c && blank s'
  end.

(** the value is a [("counts", c)] *)
Definition is_counts {T} (v : @lr.value T) : bool :=
  match v with
  | lr.V_counts _ => true
  | _ => false
  end.

(** the lines are read as the records [(y, features)], each with [d]
    features *)
Definition reads {T} (py_float : string -> option T) (d : nat)
    (lines : list string) (records : list (T * vector T)) : Prop :=
  Forall2 (fun line r => extract_variables py_float line = inr r /\
                         length (snd r) = d)
          lines records.

Section LeastSquaresVocabulary.
Local Open Scope R_scope.

(** the error of the coefficients [theta] on one record, and the sum of the
    squared errors over the records *)
Definition residual (bias : bool) (theta : vector R) (r : R * vector R) : R :=
  fst r - dot (effective bias (snd r)) theta.

Fixpoint rss (bias : bool) (records : list (R * vector R)) (theta : vector R) : R :=
  match records with
  | [] => 0
  | r :: records' =>
      residual bias theta r * residual bias theta r + rss bias records' theta
  end.

End LeastSquaresVocabulary.

(** * Properties *)

(** ** Shapes of arrays (for any scalars) *)

Section Shapes.
Context {T : Type} `{Scalar T}.
Local Abbreviation vec := (vector T).
Local Abbreviation mat := (matrix T).

Lemma zip_with_length (f : T -> T -> T) (u v : vec) :
  length (zip_with f u v) = Nat.min (length u) (length v).
Proof.
  revert v; induction u as [|a u IH]; intros [|b v]; simpl; auto.
Qed.

Lemma vadd_length (u v : vec) n :
  length u = n -> length v = n -> length (vadd u v) = n.
Proof. intros; unfold vadd; rewrite zip_with_length; lia. Qed.

Lemma vsub_length (u v : vec) n :
  length u = n -> length v = n -> length (vsub u v) = n.
Proof. intros; unfold vsub; rewrite zip_with_length; lia. Qed.

Lemma scale_length k (x : vec) : length (scale k x) = length x.
Proof. apply length_map. Qed.

Lemma zeros_length n : length (zeros n) = n.
Proof. apply repeat_length. Qed.

Lemma mvmul_length (A : mat) x : length (mvmul A x) = length A.
Proof. apply length_map. Qed.

Lemma hdcol_length (A : mat) : length (hdcol A) = length A.
Proof. apply length_map. Qed.

Lemma tlcols_length (A : mat) : length (tlcols A) = length A.
Proof. apply length_map. Qed.

Lemma cons_col_length (c : vec) (A : mat) :
  length (cons_col c A) = Nat.min (length c) (length A).
Proof.
  revert A; induction c as [|x c IH]; intros [|r A]; simpl; auto.
Qed.

Lemma dims_nil n : dims 0 n ([] : mat).
Proof. split; auto. Qed.

Lemma dims_cons m n (r : vec) (A : mat) :
  dims (S m) n (r :: A) <-> length r = n /\ dims m n A.
Proof.
  unfold dims; simpl; split.
  - intros [Hl HF]; inversion HF; subst; auto.
  - intros [Hr [Hl HF]]; split; [lia | constructor; auto].
Qed.

Lemma dims_0_inv n (A : mat) : dims 0 n A -> A = [].
Proof. intros [Hl _]; destruct A; simpl in *; congruence. Qed.

Lemma mzip_dims f m n (A B : mat) :
  (forall u v, length u = n -> length v = n -> length (f u v) = n) ->
  dims m n A -> dims m n B -> dims m n (mzip f A B).
Proof.
  intros Hf; revert m B; induction A as [|r A IH]; intros m [|s B] [HlA HA] [HlB HB];
    simpl in *; subst; try discriminate; [apply dims_nil|].
  inversion HA; inversion HB; subst.
  apply dims_cons; split; auto.
  apply IH; split; auto.
Qed.

Lemma madd_dims m n (A B : mat) :
  dims m n A -> dims m n B -> dims m n (madd A B).
Proof. apply mzip_dims; intros; now apply vadd_length. Qed.

Lemma msub_dims m n (A B : mat) :
  dims m n A -> dims m n B -> dims m n (msub A B).
Proof. apply mzip_dims; intros; now apply vsub_length. Qed.

Lemma outer_dims (x y : vec) : dims (length x) (length y) (outer x y).
Proof.
  split; [apply length_map|].
  apply Forall_forall; intros r Hr.
  apply in_map_iff in Hr as [a [<- _]]; apply scale_length.
Qed.

Lemma mzeros_dims m n : dims m n (mzeros m n : mat).
Proof.
  split; [apply repeat_length|].
  apply Forall_forall; intros r Hr; apply repeat_spec in Hr; subst; apply zeros_length.
Qed.

Lemma eye_dims n : dims n n (eye n : mat).
Proof.
  induction n as [|n [Hl HF]]; [apply dims_nil|].
  simpl; apply dims_cons; split; [simpl; now rewrite zeros_length|].
  split; [now rewrite length_map|].
  apply Forall_forall; intros r Hr; apply in_map_iff in Hr as [r' [<- Hr']].
  rewrite Forall_forall in HF; simpl; f_equal; auto.
Qed.

Lemma mscale_dims m n (A : mat) k : dims m n A -> dims m n (mscale A k).
Proof.
  intros [Hl HF]; split; [unfold mscale; now rewrite length_map|].
  apply Forall_forall; intros r Hr; apply in_map_iff in Hr as [r' [<- Hr']].
  rewrite Forall_forall in HF; rewrite length_map; auto.
Qed.

(** rows that all have a first element: first column and the rest *)
Lemma cons_col_hd_tl n (A : mat) :
  Forall (fun r => length r = S n) A ->
  A = cons_col (hdcol A) (tlcols A) /\ dims (length A) n (tlcols A).
Proof.
  induction 1 as [|r A Hr HF [IH1 [IH2 IH3]]]; [split; [reflexivity|apply dims_nil]|].
  destruct r as [|a r]; [discriminate|]; simpl in *.
  split; [now rewrite <- IH1|].
  split; simpl; [now rewrite tlcols_length|].
  constructor; [lia|exact IH3].
Qed.

Lemma hdcol_cons_col (c : vec) (A : mat) :
  length c = length A -> hdcol (cons_col c A) = c.
Proof.
  revert A; induction c as [|x c IH]; intros [|r A] Hl; simpl in *; try discriminate; auto.
  f_equal; apply IH; lia.
Qed.

Lemma tlcols_cons_col (c : vec) (A : mat) :
  length c = length A -> tlcols (cons_col c A) = A.
Proof.
  revert A; induction c as [|x c IH]; intros [|r A] Hl; simpl in *; try discriminate; auto.
  f_equal; apply IH; lia.
Qed.

Lemma cons_col_dims m n (c : vec) (A : mat) :
  length c = m -> dims m n A -> dims m (S n) (cons_col c A).
Proof.
  revert m A; induction c as [|x c IH]; intros m [|r A] Hl [HlA HA]; simpl in *; subst;
    try discriminate; [apply dims_nil|].
  inversion HA; subst.
  apply dims_cons; split; [simpl; auto|].
  apply IH; [lia|split; auto].
Qed.

(** every matrix with at least one row and one column is its corner, the
    rest of its first row, the rest of its first column and what remains *)
Lemma dims_S_inv m n (A : mat) :
  dims (S m) (S n) A ->
  exists a r c B, A = (a :: r) :: cons_col c B /\
                  length r = n /\ length c = m /\ dims m n B.
Proof.
  intros [Hl HF]; destruct A as [|r0 rows]; [discriminate|].
  inversion HF as [|? ? Hr0 Hrows]; subst.
  destruct r0 as [|a r]; [discriminate|]; simpl in Hl, Hr0.
  destruct (cons_col_hd_tl Hrows) as [E D].
  exists a, r, (hdcol rows), (tlcols rows).
  split; [now rewrite <- E|].
  split; [lia|].
  split; [rewrite hdcol_length; lia|].
  replace m with (length rows) by lia; exact D.
Qed.

Lemma transpose_cols_dims m n (A : mat) :
  dims m n A -> dims n m (transpose_cols n A).
Proof.
  revert A; induction n as [|n IH]; intros A [Hl HF]; [apply dims_nil|].
  simpl; apply dims_cons; split; [rewrite hdcol_length; auto|].
  apply IH; destruct (cons_col_hd_tl HF) as [_ D]; now rewrite Hl in D.
Qed.

Lemma transpose_cols_cons n (r : vec) (A : mat) :
  length r = n -> transpose_cols n (r :: A) = cons_col r (transpose_cols n A).
Proof.
  revert r A; induction n as [|n IH]; intros [|x r] A Hl; simpl in *; try discriminate; auto.
  f_equal; apply IH; lia.
Qed.

Lemma transpose_cols_cons_col n (c : vec) (A : mat) :
  length c = length A ->
  transpose_cols (S n) (cons_col c A) = c :: transpose_cols n A.
Proof.
  intros Hl; simpl; now rewrite hdcol_cons_col, tlcols_cons_col.
Qed.

Lemma cons_col_nil_r (c : vec) : cons_col c [] = [].
Proof. destruct c; reflexivity. Qed.

(** the transpose of a bordered matrix *)
Lemma transpose_cols_border m n a (r c : vec) (B : mat) :
  length r = n -> length c = m -> dims m n B ->
  transpose_cols (S n) ((a :: r) :: cons_col c B)
  = (a :: c) :: cons_col r (transpose_cols n B).
Proof.
  intros Hr Hc [HB1 HB2]; simpl.
  rewrite hdcol_cons_col, tlcols_cons_col by lia.
  now rewrite transpose_cols_cons.
Qed.

Lemma transpose_cols_involutive m n (A : mat) :
  dims m n A -> transpose_cols m (transpose_cols n A) = A.
Proof.
  revert n A; induction m as [|m IH]; intros n A D.
  - now rewrite (dims_0_inv D).
  - destruct n as [|n].
    + destruct D as [Hl HF]; simpl.
      clear IH; revert m Hl; induction HF as [|r A Hr HF IHF]; intros m Hl; [discriminate|].
      destruct r; [|discriminate]; simpl in *.
      destruct m as [|m]; [destruct A; [reflexivity|discriminate]|].
      simpl; f_equal; apply IHF; lia.
    + destruct (dims_S_inv D) as (a & r & c & B & -> & Hr & Hc & DB).
      rewrite (@transpose_cols_border m n a r c B) by auto.
      rewrite (@transpose_cols_border n m a c r (transpose_cols n B))
        by auto using transpose_cols_dims.
      now rewrite IH.
Qed.

(** *** Entries of the element-wise operations *)

Lemma nth_zip_with (f : T -> T -> T) (u v : vec) (i : nat) (d : T) :
  (i < length u)%nat -> (i < length v)%nat ->
  nth i (zip_with f u v) d = f (nth i u d) (nth i v d).
Proof.
  revert v i; induction u as [|a u IH]; intros [|b v] [|i] Hu Hv;
    simpl in *; try lia; auto.
  apply IH; lia.
Qed.

Lemma nth_scale (k : T) (x : vec) (i : nat) :
  (i < length x)%nat -> nth i (scale k x) szero = (k * nth i x szero)%S.
Proof.
  revert i; induction x as [|a x IH]; intros [|i] Hi; simpl in *; try lia; auto.
  apply IH; lia.
Qed.

Lemma nth_row_length m n (A : mat) (i : nat) :
  dims m n A -> (i < m)%nat -> length (nth i A []) = n.
Proof.
  intros [Hl HF] Hi.
  apply (proj1 (Forall_forall _ A) HF), nth_In; lia.
Qed.

Lemma nth_madd m n (A B : mat) (i j : nat) :
  dims m n A -> dims m n B -> (i < m)%nat -> (j < n)%nat ->
  nth j (nth i (madd A B) []) szero
  = (nth j (nth i A []) szero + nth j (nth i B []) szero)%S.
Proof.
  intros DA DB Hi Hj.
  assert (HA := @nth_row_length m n A i DA Hi).
  assert (HB := @nth_row_length m n B i DB Hi).
  destruct DA as [LA _], DB as [LB _].
  assert (E : nth i (madd A B) [] = vadd (nth i A []) (nth i B [])).
  { clear HA HB; subst m; revert B i LB Hi.
    induction A as [|r A IH]; intros [|t B] [|i] LB Hi; simpl in *; try lia; auto.
    apply IH; lia. }
  rewrite E; unfold vadd; apply nth_zip_with; lia.
Qed.

Lemma nth_vadd n (u v : vec) (i : nat) :
  length u = n -> length v = n -> (i < n)%nat ->
  nth i (vadd u v) szero = (nth i u szero + nth i v szero)%S.
Proof. intros Hu Hv Hi; unfold vadd; apply nth_zip_with; lia. Qed.

Lemma nth_outer (x y : vec) (i j : nat) :
  (i < length x)%nat -> (j < length y)%nat ->
  nth j (nth i (outer x y) []) szero = (nth i x szero * nth j y szero)%S.
Proof.
  intros Hi Hj.
  assert (E : nth i (outer x y) [] = scale (nth i x szero) y).
  { revert i Hi; induction x as [|a x IH]; intros [|i] Hi; simpl in *; try lia; auto.
    apply IH; lia. }
  rewrite E; now apply nth_scale.
Qed.

(** an element-wise operation is commutative when the operation on the
    elements is *)
Lemma zip_with_comm (f : T -> T -> T) :
  (forall a b, f a b = f b a) ->
  forall u v : vec, zip_with f u v = zip_with f v u.
Proof.
  intros Hf u; induction u as [|a u IH]; intros [|b v]; simpl; auto.
  now rewrite Hf, IH.
Qed.

Lemma mzip_comm (f : vec -> vec -> vec) :
  (forall u v, f u v = f v u) ->
  forall A B : mat, mzip f A B = mzip f B A.
Proof.
  intros Hf A; induction A as [|r A IH]; intros [|t B]; simpl; auto.
  now rewrite Hf, IH.
Qed.

End Shapes.

(** ** Linear algebra over the real numbers *)

Ltac rsimp :=
  cbn [szero sone sadd ssub smul sdiv ssqrt sabs sltb seqb s1e_10 R_scalar] in *.

Section RealAlgebra.
Local Open Scope R_scope.
Local Abbreviation vec := (vector R).
Local Abbreviation mat := (matrix R).

Lemma dot_cons (a b : R) (u v : vec) : dot (a :: u) (b :: v) = a * b + dot u v.
Proof. reflexivity. Qed.

Lemma vadd_cons (a b : R) (u v : vec) : vadd (a :: u) (b :: v) = a + b :: vadd u v.
Proof. reflexivity. Qed.

Lemma vsub_cons (a b : R) (u v : vec) : vsub (a :: u) (b :: v) = a - b :: vsub u v.
Proof. reflexivity. Qed.

Lemma scale_cons (k a : R) (u : vec) : scale k (a :: u) = k * a :: scale k u.
Proof. reflexivity. Qed.

Lemma madd_cons (r s : vec) (A B : mat) :
  madd (r :: A) (s :: B) = vadd r s :: madd A B.
Proof. reflexivity. Qed.

Lemma msub_cons (r s : vec) (A B : mat) :
  msub (r :: A) (s :: B) = vsub r s :: msub A B.
Proof. reflexivity. Qed.

Lemma zeros_S n : (zeros (S n) : vec) = 0 :: zeros n.
Proof. reflexivity. Qed.

Lemma dot_nil_r (u : vec) : dot u [] = 0.
Proof. destruct u; reflexivity. Qed.

Lemma dot_zeros_l n (v : vec) : dot (zeros n) v = 0.
Proof.
  revert v; induction n as [|n IH]; intros [|b v]; simpl; auto.
  unfold zeros in IH; rewrite IH; rsimp; ring.
Qed.

Lemma dot_comm (u v : vec) : dot u v = dot v u.
Proof.
  revert v; induction u as [|a u IH]; intros [|b v]; simpl; auto.
  rewrite IH; rsimp; ring.
Qed.

Lemma dot_zeros_r n (v : vec) : dot v (zeros n) = 0.
Proof. rewrite dot_comm; apply dot_zeros_l. Qed.

Lemma dot_scale_l k (u v : vec) : dot (scale k u) v = k * dot u v.
Proof.
  revert v; induction u as [|a u IH]; intros [|b v]; simpl; rsimp; try ring.
  rewrite IH; ring.
Qed.

Lemma dot_scale_r k (u v : vec) : dot u (scale k v) = k * dot u v.
Proof. rewrite dot_comm, dot_scale_l, dot_comm; reflexivity. Qed.

Lemma dot_vadd_l (u v w : vec) :
  length u = length v -> dot (vadd u v) w = dot u w + dot v w.
Proof.
  revert v w; induction u as [|a u IH]; intros [|b v] [|c w] Hl; simpl in *;
    try discriminate; rsimp; try ring.
  unfold vadd in IH; rewrite IH by lia; ring.
Qed.

Lemma dot_vsub_l (u v w : vec) :
  length u = length v -> dot (vsub u v) w = dot u w - dot v w.
Proof.
  revert v w; induction u as [|a u IH]; intros [|b v] [|c w] Hl; simpl in *;
    try discriminate; rsimp; try ring.
  unfold vsub in IH; rewrite IH by lia; ring.
Qed.

Lemma dot_vadd_r (u v w : vec) :
  length u = length v -> dot w (vadd u v) = dot w u + dot w v.
Proof. intros; rewrite dot_comm, dot_vadd_l, !(dot_comm w); auto. Qed.

Lemma dot_vsub_r (u v w : vec) :
  length u = length v -> dot w (vsub u v) = dot w u - dot w v.
Proof. intros; rewrite dot_comm, dot_vsub_l, !(dot_comm w); auto. Qed.

Lemma dot_map_div (c y : vec) l :
  dot (map (fun x => x / l) c) y = dot c y / l.
Proof.
  revert y; induction c as [|a c IH]; intros [|b y]; simpl; rsimp;
    try (unfold Rdiv; ring).
  rewrite IH; unfold Rdiv; ring.
Qed.

(** a sum of squares *)
Lemma dot_self_nonneg (v : vec) : 0 <= dot v v.
Proof.
  induction v as [|a v IH]; simpl; rsimp; [lra|].
  pose proof (Rle_0_sqr a) as Ha; unfold Rsqr in Ha; lra.
Qed.

Lemma dot_self_zero (v : vec) : dot v v = 0 -> v = zeros (length v).
Proof.
  induction v as [|a v IH]; simpl; rsimp; auto; intros E.
  pose proof (Rle_0_sqr a) as Ha; unfold Rsqr in Ha.
  pose proof (dot_self_nonneg v) as Hv.
  assert (Ea : a * a = 0) by lra.
  apply Rmult_integral in Ea.
  change (a :: v = 0 :: zeros (length v)).
  f_equal; [destruct Ea; auto | apply IH; lra].
Qed.

Lemma mvmul_cons (r : vec) (A : mat) x : mvmul (r :: A) x = dot r x :: mvmul A x.
Proof. reflexivity. Qed.

Lemma mvmul_cons_col (c : vec) (X : mat) x0 y :
  length c = length X ->
  mvmul (cons_col c X) (x0 :: y) = vadd (scale x0 c) (mvmul X y).
Proof.
  revert X; induction c as [|a c IH]; intros [|r X] Hl; simpl in Hl;
    try discriminate; auto.
  change (cons_col (a :: c) (r :: X)) with ((a :: r) :: cons_col c X).
  rewrite !mvmul_cons, IH by lia.
  rewrite dot_cons.
  change (scale x0 (a :: c)) with (x0 * a :: scale x0 c).
  change (vadd (x0 * a :: scale x0 c) (dot r y :: mvmul X y))
    with (x0 * a + dot r y :: vadd (scale x0 c) (mvmul X y)).
  f_equal; ring.
Qed.

Lemma mvmul_msub m n (A B : mat) y :
  dims m n A -> dims m n B ->
  mvmul (msub A B) y = vsub (mvmul A y) (mvmul B y).
Proof.
  revert m B; induction A as [|r A IH]; intros m [|s B] DA DB; simpl; auto.
  destruct m as [|m]; [destruct DA; discriminate|].
  apply dims_cons in DA as [Hr DA], DB as [Hs DB].
  unfold msub in IH; rewrite (IH m B) by auto.
  rewrite dot_vsub_l by congruence; reflexivity.
Qed.

Lemma mvmul_madd m n (A B : mat) y :
  dims m n A -> dims m n B ->
  mvmul (madd A B) y = vadd (mvmul A y) (mvmul B y).
Proof.
  revert m B; induction A as [|r A IH]; intros m [|s B] DA DB; simpl; auto.
  destruct m as [|m]; [destruct DA; discriminate|].
  apply dims_cons in DA as [Hr DA], DB as [Hs DB].
  unfold madd in IH; rewrite (IH m B) by auto.
  rewrite dot_vadd_l by congruence; reflexivity.
Qed.

Lemma mvmul_outer (m r y : vec) :
  mvmul (outer m r) y = scale (dot r y) m.
Proof.
  induction m as [|a m IH]; [reflexivity|].
  change (outer (a :: m) r) with (scale a r :: outer m r).
  rewrite mvmul_cons, IH, dot_scale_l.
  change (scale (dot r y) (a :: m)) with (dot r y * a :: scale (dot r y) m).
  f_equal; ring.
Qed.

Lemma transpose_square n (A : mat) :
  dims n n A -> transpose A = transpose_cols n A.
Proof.
  intros D; destruct n as [|n]; [now rewrite (dims_0_inv D)|].
  destruct (dims_S_inv D) as (a & r & c & B & -> & Hr & Hc & DB).
  unfold transpose, ncols; simpl hd; simpl length; now rewrite Hr.
Qed.

Lemma symmetric_border n (A : mat) :
  dims n n A -> transpose A = A -> sym_border n A.
Proof.
  revert A; induction n as [|n IH]; intros A D E.
  - rewrite (dims_0_inv D); constructor.
  - rewrite (transpose_square D) in E.
    destruct (dims_S_inv D) as (a & r & c & B & -> & Hr & Hc & DB).
    rewrite (@transpose_cols_border R _ n n a r c B) in E by auto.
    injection E as E1 E2; subst c.
    assert (EB : transpose_cols n B = B).
    { apply (f_equal tlcols) in E2.
      rewrite !tlcols_cons_col in E2; auto.
      - destruct DB; lia.
      - destruct (transpose_cols_dims DB); lia. }
    constructor; auto.
    apply IH; auto.
    now rewrite (transpose_square DB).
Qed.

Lemma sym_border_O_inv (A : mat) : sym_border 0 A -> A = [].
Proof. now inversion 1. Qed.

Lemma sym_border_S_inv n (A : mat) :
  sym_border (S n) A ->
  exists a c B, A = (a :: c) :: cons_col c B /\
                length c = n /\ dims n n B /\ sym_border n B.
Proof. inversion 1; subst; eauto 10. Qed.

Lemma sym_border_dims n (A : mat) : sym_border n A -> dims n n A.
Proof.
  induction 1 as [|n a c B Hc DB _ _]; [apply dims_nil|].
  apply dims_cons; split; [simpl; lia|].
  now apply cons_col_dims.
Qed.

Lemma sym_border_symmetric n (A : mat) : sym_border n A -> transpose A = A.
Proof.
  intros S; rewrite (transpose_square (sym_border_dims S)).
  induction S as [|n a c B Hc DB _ IH]; [reflexivity|].
  rewrite (@transpose_cols_border R _ n n a c c B) by auto.
  now rewrite IH.
Qed.

(** completing the square in the first variable *)
Lemma quad_border n a (c : vec) (B : mat) x0 y :
  length c = n -> dims n n B -> length y = n -> 0 < a ->
  quad ((a :: c) :: cons_col c B) (x0 :: y)
  = a * ((x0 + dot c y / a) * (x0 + dot c y / a))
    + quad (msub B (outer (map (fun x => x / sqrt a) c)
                          (map (fun x => x / sqrt a) c))) y.
Proof.
  intros Hc DB Hy Ha; unfold quad.
  assert (Hs : sqrt a * sqrt a = a) by (apply sqrt_sqrt; lra).
  assert (Hs0 : sqrt a <> 0) by (intros E; rewrite E in Hs; lra).
  set (m := map (fun x => x / sqrt a) c).
  assert (Hm : length m = n) by (unfold m; now rewrite length_map).
  rewrite mvmul_cons, dot_cons, dot_cons.
  rewrite mvmul_cons_col by (destruct DB; lia).
  rewrite dot_vadd_r by (rewrite scale_length, mvmul_length; destruct DB; lia).
  rewrite dot_scale_r.
  rewrite (@mvmul_msub n n B (outer m m) y DB)
    by (rewrite <- Hm at 1 2; apply outer_dims).
  rewrite dot_vsub_r
    by (rewrite !mvmul_length; destruct DB, (outer_dims m m); lia).
  rewrite mvmul_outer, dot_scale_r.
  rewrite (dot_comm y m); unfold m; rewrite dot_map_div.
  rewrite (dot_comm y c).
  replace (dot c y / sqrt a * (dot c y / sqrt a)) with (dot c y * dot c y / a)
    by (rewrite <- Hs at 1; field; auto).
  field; lra.
Qed.

(** *** The comparisons of the real reading *)

Lemma Rltb_true x y : Rltb x y = true <-> x < y.
Proof. unfold Rltb; destruct (Rlt_dec x y); split; auto; discriminate. Qed.

Lemma Rltb_false x y : Rltb x y = false <-> ~ x < y.
Proof. unfold Rltb; destruct (Rlt_dec x y); split; auto; try discriminate; tauto. Qed.

Lemma Reqb_true x y : Reqb x y = true <-> x = y.
Proof. unfold Reqb; destruct (Req_dec_T x y); split; auto; discriminate. Qed.

Lemma Reqb_false x y : Reqb x y = false <-> x <> y.
Proof. unfold Reqb; destruct (Req_dec_T x y); split; auto; try discriminate; tauto. Qed.

(** *** More identities on vectors and matrices *)

Lemma vadd_zeros_r n (v : vec) : length v = n -> vadd v (zeros n) = v.
Proof.
  revert n; induction v as [|a v IH]; intros [|n] Hl; simpl in Hl; try discriminate; auto.
  rewrite zeros_S, vadd_cons, IH by lia; f_equal; ring.
Qed.

Lemma vadd_zeros_l n (v : vec) : length v = n -> vadd (zeros n) v = v.
Proof.
  revert n; induction v as [|a v IH]; intros [|n] Hl; simpl in Hl; try discriminate; auto.
  rewrite zeros_S, vadd_cons, IH by lia; f_equal; ring.
Qed.

Lemma vadd_comm (u v : vec) : vadd u v = vadd v u.
Proof.
  revert v; induction u as [|a u IH]; intros [|b v]; auto.
  rewrite !vadd_cons, IH; f_equal; ring.
Qed.

Lemma vadd_assoc (u v w : vec) : vadd (vadd u v) w = vadd u (vadd v w).
Proof.
  revert v w; induction u as [|a u IH]; intros [|b v] [|c w]; auto.
  rewrite !vadd_cons, IH; f_equal; ring.
Qed.

Lemma vadd_vsub_cancel (u v : vec) :
  length u = length v -> vadd v (vsub u v) = u.
Proof.
  revert v; induction u as [|a u IH]; intros [|b v] Hl; simpl in Hl; try discriminate; auto.
  rewrite vsub_cons, vadd_cons, IH by lia; f_equal; ring.
Qed.

Lemma mvmul_zeros m n (A : mat) : dims m n A -> mvmul A (zeros n) = zeros m.
Proof.
  revert m; induction A as [|r A IH]; intros m D.
  - destruct D as [<- _]; reflexivity.
  - destruct m as [|m]; [destruct D; discriminate|].
    apply dims_cons in D as [Hr D].
    rewrite mvmul_cons, dot_zeros_r, (IH m D); reflexivity.
Qed.

Lemma madd_msub_cancel m n (A B : mat) :
  dims m n A -> dims m n B -> madd B (msub A B) = A.
Proof.
  revert m B; induction A as [|r A IH]; intros m [|s B] DA DB; auto;
    try (destruct DA, DB; simpl in *; congruence).
  destruct m as [|m]; [destruct DA; discriminate|].
  apply dims_cons in DA as [Hr DA], DB as [Hs DB].
  rewrite msub_cons, madd_cons, (IH m B) by auto.
  rewrite vadd_vsub_cancel by congruence; reflexivity.
Qed.

Lemma scale_map_div l (c : vec) :
  l <> 0 -> scale l (map (fun x => x / l) c) = c.
Proof.
  intros Hl; induction c as [|a c IH]; auto.
  rewrite map_cons, scale_cons, IH; f_equal; field; auto.
Qed.

Lemma map_hd0_cons_col (f : R -> R) (c : vec) (B : mat) :
  length c = length B ->
  map (fun r => f (hd0 r)) (cons_col c B) = map f c.
Proof.
  revert B; induction c as [|a c IH]; intros [|r B] Hl; simpl in *;
    try discriminate; auto.
  f_equal; apply IH; lia.
Qed.

Lemma msub_cons_col (c d : vec) (X Y : mat) :
  length c = length X -> length d = length Y ->
  msub (cons_col c X) (cons_col d Y) = cons_col (vsub c d) (msub X Y).
Proof.
  revert d X Y; induction c as [|a c IH]; intros [|b d] [|r X] [|s Y] Hc Hd;
    simpl in Hc, Hd; try discriminate; auto.
  change (msub (cons_col (a :: c) (r :: X)) (cons_col (b :: d) (s :: Y)))
    with (vsub (a :: r) (b :: s) :: msub (cons_col c X) (cons_col d Y)).
  rewrite IH by lia; reflexivity.
Qed.

Lemma outer_cons_cons a b (x y : vec) :
  outer (a :: x) (b :: y)
  = (a * b :: scale a y) :: cons_col (map (fun xi => xi * b) x) (outer x y).
Proof.
  unfold outer at 1; simpl map; f_equal.
  induction x as [|xi x IH]; simpl; auto.
  now rewrite IH.
Qed.

Lemma sym_border_msub_outer n (B : mat) (m : vec) :
  sym_border n B -> length m = n -> sym_border n (msub B (outer m m)).
Proof.
  intros S; revert m; induction S as [|n a c B Hc DB S IH]; intros m Hm.
  - destruct m; [constructor|discriminate].
  - destruct m as [|m0 m]; [discriminate|]; simpl in Hm.
    rewrite outer_cons_cons.
    change (msub ((a :: c) :: cons_col c B)
              ((m0 * m0 :: scale m0 m)
                 :: cons_col (map (fun xi => xi * m0) m) (outer m m)))
      with ((a - m0 * m0 :: vsub c (scale m0 m))
              :: msub (cons_col c B)
                   (cons_col (map (fun xi => xi * m0) m) (outer m m))).
    assert (Eo : dims n n (outer m m))
      by (replace n with (length m) by lia; apply outer_dims).
    rewrite msub_cons_col
      by (rewrite ?length_map; destruct DB, Eo; lia).
    replace (map (fun xi => xi * m0) m) with (scale m0 m)
      by (apply map_ext; intros; rsimp; ring).
    constructor.
    + apply vsub_length; [auto | rewrite scale_length; lia].
    + now apply msub_dims.
    + apply IH; lia.
Qed.

(** *** The Cholesky factorisation *)

(** over the real numbers a pivot is refused exactly when it is not
    positive *)
Lemma pivot_test (a : R) : Rltb a 0 || Reqb a 0 = negb (Rltb 0 a).
Proof.
  destruct (Rltb 0 a) eqn:E1, (Rltb a 0) eqn:E2, (Reqb a 0) eqn:E3;
    try reflexivity; exfalso;
    rewrite ?Rltb_true, ?Rltb_false, ?Reqb_true, ?Reqb_false in *; lra.
Qed.

Lemma cholesky_rec_border n a (r c : vec) (B : mat) :
  length c = length B ->
  cholesky_rec (S n) ((a :: r) :: cons_col c B)
  = if Rltb 0 a then
      match cholesky_rec n (msub B (outer (map (fun x => x / sqrt a) c)
                                          (map (fun x => x / sqrt a) c))) with
      | Some L' => Some ((sqrt a :: zeros n) :: cons_col (map (fun x => x / sqrt a) c) L')
      | None => None
      end
    else None.
Proof.
  intros Hl; simpl; rsimp.
  rewrite (map_hd0_cons_col (fun x => x / sqrt a) c B Hl), tlcols_cons_col by auto.
  rewrite (pivot_test a).
  destruct (Rltb 0 a); reflexivity.
Qed.

Lemma mul_transpose_cons (r : vec) (A B : mat) :
  mul_transpose (r :: A) B = mvmul B r :: mul_transpose A B.
Proof. reflexivity. Qed.

Lemma gram_rows l n (m : vec) (L' : mat) (m1 : vec) (L1 : mat) :
  length m = length L' -> length m1 = length L1 ->
  mul_transpose (cons_col m1 L1) ((l :: zeros n) :: cons_col m L')
  = cons_col (scale l m1) (madd (outer m1 m) (mul_transpose L1 L')).
Proof.
  intros Hm; revert L1; induction m1 as [|a m1 IH]; intros [|r L1] Hl;
    simpl in Hl; try discriminate; auto.
  change (cons_col (a :: m1) (r :: L1)) with ((a :: r) :: cons_col m1 L1).
  rewrite !mul_transpose_cons, IH by lia.
  rewrite mvmul_cons, dot_cons, dot_zeros_l, mvmul_cons_col by auto.
  change (outer (a :: m1) m) with (scale a m :: outer m1 m).
  rewrite madd_cons, scale_cons.
  change (cons_col (l * a :: scale l m1)
            (vadd (scale a m) (mvmul L' r)
               :: madd (outer m1 m) (mul_transpose L1 L')))
    with ((l * a :: vadd (scale a m) (mvmul L' r))
            :: cons_col (scale l m1) (madd (outer m1 m) (mul_transpose L1 L'))).
  f_equal; f_equal; ring.
Qed.

Lemma gram_border l n (m : vec) (L' : mat) :
  length m = n -> dims n n L' ->
  mul_transpose ((l :: zeros n) :: cons_col m L') ((l :: zeros n) :: cons_col m L')
  = (l * l :: scale l m)
      :: cons_col (scale l m) (madd (outer m m) (mul_transpose L' L')).
Proof.
  intros Hm [HL1 HL2].
  rewrite mul_transpose_cons.
  rewrite (@gram_rows l n m L' m L') by lia.
  rewrite mvmul_cons, dot_cons, dot_zeros_l, mvmul_cons_col by lia.
  rewrite (@mvmul_zeros n n L') by (split; auto).
  rewrite vadd_zeros_r by (rewrite scale_length; auto).
  f_equal; f_equal; ring.
Qed.

Lemma quad_e1 n a (c : vec) (B : mat) :
  length c = n -> dims n n B ->
  quad ((a :: c) :: cons_col c B) (1 :: zeros n) = a.
Proof.
  intros Hc [DB1 DB2]; unfold quad.
  rewrite mvmul_cons, !dot_cons, dot_zeros_l, dot_zeros_r; ring.
Qed.

Lemma vec_eq_dec (u v : vec) : {u = v} + {u <> v}.
Proof. apply list_eq_dec, Req_dec_T. Qed.

(** a positive definite matrix has a Cholesky factor, which the
    factorisation finds *)
Lemma cholesky_rec_complete n (A : mat) :
  sym_border n A ->
  (forall x, length x = n -> x <> zeros n -> 0 < quad A x) ->
  exists L, cholesky_rec n A = Some L /\ lower_border n L /\ dims n n L /\
            mul_transpose L L = A.
Proof.
  revert A; induction n as [|n IH]; intros A S PD.
  - rewrite (sym_border_O_inv S); exists []; repeat split; constructor.
  - destruct (sym_border_S_inv S) as (a & c & B & -> & Hc & DB & SB).
    assert (Ha : 0 < a).
    { rewrite <- (@quad_e1 n a c B) by auto.
      apply PD; [simpl; now rewrite zeros_length|].
      rewrite zeros_S; intros E; injection E; lra. }
    assert (Hs : sqrt a * sqrt a = a) by (apply sqrt_sqrt; lra).
    assert (Hs0 : 0 < sqrt a) by (apply sqrt_lt_R0; lra).
    set (m := map (fun x => x / sqrt a) c).
    assert (Hm : length m = n) by (unfold m; now rewrite length_map).
    destruct (IH (msub B (outer m m))) as (L' & E & LB & DL & G).
    { now apply sym_border_msub_outer. }
    { intros y Hy Hy0.
      pose proof (@quad_border n a c B (- (dot c y / a)) y Hc DB Hy Ha) as Q.
      fold m in Q.
      replace (quad (msub B (outer m m)) y)
        with (quad ((a :: c) :: cons_col c B) (- (dot c y / a) :: y))
        by (rewrite Q; ring).
      apply PD; [simpl; lia|].
      rewrite zeros_S; intros E; injection E; auto. }
    rewrite cholesky_rec_border by (destruct DB; lia).
    fold m; rewrite E.
    replace (Rltb 0 a) with true by (symmetry; now apply Rltb_true).
    eexists; split; [reflexivity|].
    split; [constructor; auto|].
    split; [apply dims_cons; split;
            [simpl; now rewrite zeros_length | now apply cons_col_dims]|].
    rewrite gram_border, G by auto.
    rewrite Hs.
    unfold m at 1 2; rewrite scale_map_div by lra.
    rewrite (@madd_msub_cancel n n B (outer m m)); auto.
    replace n with (length m) at 1 2 by lia; apply outer_dims.
Qed.

(** and whatever the factorisation accepts is positive definite *)
Lemma cholesky_rec_pos_def n (A : mat) L :
  sym_border n A -> cholesky_rec n A = Some L ->
  forall x, length x = n -> x <> zeros n -> 0 < quad A x.
Proof.
  revert A L; induction n as [|n IH]; intros A L S E x Hx Hx0.
  - destruct x; [now elim Hx0|discriminate].
  - destruct (sym_border_S_inv S) as (a & c & B & -> & Hc & DB & SB).
    rewrite cholesky_rec_border in E by (destruct DB; lia).
    destruct (Rltb 0 a) eqn:Ha; [apply Rltb_true in Ha|discriminate].
    set (m := map (fun x => x / sqrt a) c) in *.
    assert (Hm : length m = n) by (unfold m; now rewrite length_map).
    destruct (cholesky_rec n (msub B (outer m m))) as [L'|] eqn:E'; [|discriminate].
    destruct x as [|x0 y]; [discriminate|]; simpl in Hx.
    rewrite (@quad_border n a c B x0 y) by (auto; lia).
    fold m.
    assert (Hsq : 0 <= (x0 + dot c y / a) * (x0 + dot c y / a))
      by (apply Rle_0_sqr).
    destruct (vec_eq_dec y (zeros n)) as [-> | Hy].
    + assert (x0 <> 0) by (intros ->; apply Hx0; reflexivity).
      unfold quad; rewrite dot_zeros_r, dot_zeros_l.
      replace (x0 + 0 / a) with x0 by (field; lra).
      assert (0 < x0 * x0) by (apply Rsqr_pos_lt; auto).
      nra.
    + pose proof (IH _ L' (sym_border_msub_outer m SB Hm) E' y ltac:(lia) Hy).
      nra.
Qed.

(** *** Exchanging rows *)

Lemma nth_error_firstn_skipn {X} (t : list X) p y :
  nth_error t p = Some y -> firstn p t ++ y :: skipn (S p) t = t.
Proof.
  revert p; induction t as [|x t IH]; intros [|p] E; simpl in *; try discriminate.
  - congruence.
  - f_equal; auto.
Qed.

Lemma swap0_Permutation {X} p (l : list X) : Permutation l (swap0 p l).
Proof.
  destruct l as [|x t], p as [|p]; unfold swap0; auto.
  destruct (nth_error t p) as [y|] eqn:E; auto.
  apply Permutation_trans with (x :: firstn p t ++ y :: skipn (S p) t);
    [now rewrite (nth_error_firstn_skipn _ _ E)|].
  etransitivity; [apply perm_skip; symmetry; apply Permutation_middle|].
  etransitivity; [apply perm_swap|].
  apply perm_skip, Permutation_middle.
Qed.

Lemma swap0_length {X} p (l : list X) : length (swap0 p l) = length l.
Proof. symmetry; apply Permutation_length, swap0_Permutation. Qed.

Lemma swap0_involutive {X} p (l : list X) : swap0 p (swap0 p l) = l.
Proof.
  destruct l as [|x t], p as [|p]; unfold swap0; auto.
  destruct (nth_error t p) as [y|] eqn:E; [|now rewrite E].
  assert (Hp : length (firstn p t) = p).
  { apply firstn_length_le, Nat.lt_le_incl, nth_error_Some; congruence. }
  rewrite nth_error_app2, Hp, Nat.sub_diag by lia.
  cbn [nth_error].
  rewrite firstn_app, Hp, Nat.sub_diag, firstn_O, app_nil_r.
  rewrite firstn_all2 by lia.
  rewrite skipn_app, Hp.
  replace (S p - p)%nat with 1%nat by lia.
  rewrite skipn_all2 by lia.
  change (skipn 1 (x :: skipn (S p) t)) with (skipn (S p) t).
  rewrite app_nil_l.
  now rewrite (nth_error_firstn_skipn _ _ E).
Qed.

Lemma swap0_map {X Y} (f : X -> Y) p (l : list X) :
  map f (swap0 p l) = swap0 p (map f l).
Proof.
  destruct l as [|x t], p as [|p]; unfold swap0; auto.
  cbn [map]; rewrite nth_error_map.
  destruct (nth_error t p) as [y|]; cbn [option_map map]; auto.
  rewrite map_app, firstn_map; cbn [map].
  now rewrite skipn_map.
Qed.

Lemma swap0_hd {X} p (l : list X) v :
  nth_error l p = Some v -> exists t, swap0 p l = v :: t.
Proof.
  destruct l as [|x t], p as [|p]; unfold swap0; cbn [nth_error]; try discriminate.
  - intros [= ->]; eauto.
  - intros ->; eauto.
Qed.

Lemma swap0_zeros p n : swap0 p (zeros n : vec) = zeros n.
Proof.
  assert (F : Forall (eq 0) (swap0 p (zeros n : vec))).
  { eapply Permutation_Forall; [apply swap0_Permutation|].
    apply Forall_forall; intros x Hx; apply repeat_spec in Hx; auto. }
  apply Forall_eq_repeat in F.
  now rewrite swap0_length, zeros_length in F.
Qed.

Lemma swap0_dims m n p (A : mat) : dims m n A -> dims m n (swap0 p A).
Proof.
  intros [Hl HF]; split; [now rewrite swap0_length|].
  eapply Permutation_Forall; [apply swap0_Permutation|auto].
Qed.

Lemma mvmul_swap0 p (A : mat) x : mvmul (swap0 p A) x = swap0 p (mvmul A x).
Proof. apply swap0_map. Qed.

(** *** The pivot *)

Lemma argmax_abs_spec (col : vec) : forall best bi i,
  exists b',
    ((argmax_abs best bi i col = bi /\ b' = best) \/
     (exists k v, argmax_abs best bi i col = (i + k)%nat /\
                  nth_error col k = Some v /\ b' = Rabs v)) /\
    best <= b' /\ Forall (fun c => Rabs c <= b') col.
Proof.
  induction col as [|c col IH]; intros best bi i; simpl.
  - exists best; repeat split; auto; lra.
  - rsimp; destruct (Rltb best (Rabs c)) eqn:Hc.
    + apply Rltb_true in Hc.
      destruct (IH (Rabs c) i (S i)) as (b' & Hp & Hb & HF).
      exists b'; split; [right|split; [lra|constructor; auto]].
      destruct Hp as [[-> ->] | (k & v & -> & Hk & ->)].
      * exists 0%nat, c; repeat split; auto.
      * exists (S k), v; repeat split; auto; lia.
    + apply Rltb_false in Hc.
      destruct (IH best bi (S i)) as (b' & Hp & Hb & HF).
      exists b'; split; [|split; [lra|constructor; auto; lra]].
      destruct Hp as [[-> ->] | (k & v & -> & Hk & ->)]; [left; auto|right].
      exists (S k), v; repeat split; auto; lia.
Qed.

Lemma pivot_index_spec (col : vec) :
  col <> [] ->
  exists v, nth_error col (pivot_index col) = Some v /\
            Forall (fun c => Rabs c <= Rabs v) col.
Proof.
  destruct col as [|c col]; [congruence|intros _]; simpl.
  destruct (argmax_abs_spec col (Rabs c) 0 1) as (b' & Hp & Hb & HF).
  destruct Hp as [[-> ->] | (k & v & -> & Hk & ->)].
  - exists c; split; auto; constructor; auto; lra.
  - exists v; split; auto; constructor; auto.
Qed.

(** *** Gaussian elimination *)

Lemma gesv_border n a (r c : vec) (B : mat) b0 bs p A b :
  length c = length B ->
  p = pivot_index (hdcol A) ->
  swap0 p A = (a :: r) :: cons_col c B -> swap0 p b = b0 :: bs ->
  gesv (S n) A b
  = if Reqb a 0 then None
    else match gesv n (msub B (outer (map (fun x => x / a) c) r))
                      (vsub bs (scale b0 (map (fun x => x / a) c))) with
         | Some y => Some ((b0 - dot r y) / a :: y)
         | None => None
         end.
Proof.
  intros Hl -> EA Eb; simpl; rewrite EA, Eb; rsimp.
  rewrite (map_hd0_cons_col (fun x => x / a) c B Hl), tlcols_cons_col by auto.
  reflexivity.
Qed.

(** what elimination leaves of the other equations, read backwards *)
Lemma eliminated_rows a k k' (c u w : vec) :
  a <> 0 -> length u = length c -> length w = length c ->
  vsub u (scale k (map (fun x => x / a) c))
  = vsub w (scale k' (map (fun x => x / a) c)) ->
  vadd (scale ((k' - k) / a) c) u = w.
Proof.
  intros Ha; revert u w; induction c as [|ci c IH]; intros [|ui u] [|wi w] Hu Hw E;
    simpl in Hu, Hw; try discriminate; auto.
  rewrite map_cons, !scale_cons, !vsub_cons in E; injection E as E1 E2.
  rewrite scale_cons, vadd_cons, (IH u w) by (auto; lia).
  f_equal.
  replace wi with (ui - k * (ci / a) + k' * (ci / a)) by lra.
  field; auto.
Qed.

Lemma vsub_zeros_scale_0 n (m : vec) :
  length m = n -> vsub (zeros n) (scale 0 m) = zeros n.
Proof.
  revert n; induction m as [|a m IH]; intros [|n] Hl; simpl in Hl; try discriminate; auto.
  rewrite zeros_S, scale_cons, vsub_cons, IH by lia; f_equal; ring.
Qed.

Lemma gesv_sound n : forall (A : mat) b x,
  dims n n A -> length b = n -> gesv n A b = Some x ->
  mvmul A x = b /\ length x = n.
Proof.
  induction n as [|n IH]; intros A b x D Hb E.
  - rewrite (dims_0_inv D); destruct b; [|discriminate].
    injection E as <-; auto.
  - set (p := pivot_index (hdcol A)).
    destruct (dims_S_inv (swap0_dims p D)) as (a & r & c & B & EA & Hr & Hc & DB).
    destruct (swap0 p b) as [|b0 bs] eqn:Eb;
      [apply (f_equal (@length R)) in Eb; rewrite swap0_length in Eb;
       simpl in Eb; lia|].
    assert (Hbs : length bs = n).
    { apply (f_equal (@length R)) in Eb; rewrite swap0_length in Eb;
        simpl in Eb; lia. }
    rewrite (@gesv_border n a r c B b0 bs p A b) in E
      by (auto; destruct DB; lia).
    destruct (Reqb a 0) eqn:Ea; [discriminate|apply Reqb_false in Ea].
    set (m := map (fun x => x / a) c) in *.
    assert (Hm : length m = n) by (unfold m; now rewrite length_map).
    destruct (gesv n (msub B (outer m r)) (vsub bs (scale b0 m))) as [y|] eqn:E';
      [|discriminate].
    injection E as <-.
    assert (Do : dims n n (outer m r))
      by (rewrite <- Hm at 1; rewrite <- Hr; apply outer_dims).
    destruct (IH _ _ _ (msub_dims DB Do)
                (vsub_length _ _ Hbs (eq_trans (scale_length _ _) Hm)) E')
      as [Ey Hy].
    split; [|simpl; lia].
    rewrite <- (swap0_involutive p (mvmul _ _)), <- (swap0_involutive p b).
    f_equal.
    rewrite <- mvmul_swap0, EA, Eb, mvmul_cons, dot_cons, mvmul_cons_col by (destruct DB; lia).
    f_equal; [field; auto|].
    rewrite (@mvmul_msub n n B (outer m r) y DB Do), mvmul_outer in Ey.
    apply eliminated_rows in Ey; auto.
    + rewrite mvmul_length; destruct DB; lia.
    + lia.
Qed.

Lemma mvmul_e1 m n (A : mat) :
  dims m (S n) A -> mvmul A (1 :: zeros n) = hdcol A.
Proof.
  revert m; induction A as [|r A IH]; intros m D; auto.
  destruct m as [|m]; [destruct D; discriminate|].
  apply dims_cons in D as [Hr D].
  destruct r as [|a r]; [discriminate|].
  rewrite mvmul_cons, dot_cons, dot_zeros_r, (IH m D).
  simpl; f_equal; ring.
Qed.

Lemma nonsingular_swap0 n p (A : mat) :
  nonsingular n A -> nonsingular n (swap0 p A).
Proof.
  intros NS x Hx E; apply NS; auto.
  rewrite mvmul_swap0 in E.
  apply (f_equal (swap0 p)) in E.
  now rewrite swap0_involutive, swap0_zeros in E.
Qed.

Lemma gesv_complete n : forall (A : mat) b,
  dims n n A -> length b = n -> nonsingular n A ->
  exists x, gesv n A b = Some x.
Proof.
  induction n as [|n IH]; intros A b D Hb NS; [exists []; reflexivity|].
  set (p := pivot_index (hdcol A)).
  assert (D' := swap0_dims p D).
  destruct (dims_S_inv D') as (a & r & c & B & EA & Hr & Hc & DB).
  destruct (swap0 p b) as [|b0 bs] eqn:Eb;
    [apply (f_equal (@length R)) in Eb; rewrite swap0_length in Eb;
     simpl in Eb; lia|].
  assert (Hbs : length bs = n).
  { apply (f_equal (@length R)) in Eb; rewrite swap0_length in Eb;
      simpl in Eb; lia. }
  rewrite (@gesv_border n a r c B b0 bs p A b) by (auto; destruct DB; lia).
  assert (Ha : a <> 0).
  { intros ->.
    destruct (@pivot_index_spec (hdcol A)) as (v & Hv & HF).
    { destruct A; [destruct D; discriminate|discriminate]. }
    fold p in Hv.
    destruct (swap0_hd _ _ Hv) as [t Et].
    unfold hdcol in Et; rewrite <- swap0_map, EA in Et; injection Et as <- _.
    assert (Z : hdcol A = zeros (S n)).
    { replace (S n) with (length (hdcol A))
        by (rewrite hdcol_length; destruct D; auto).
      apply Forall_eq_repeat.
      eapply Forall_impl; [|exact HF]; intros x Hxa; cbv beta in Hxa.
      rewrite Rabs_R0 in Hxa.
      pose proof (Rabs_pos x).
      destruct (Req_dec x 0) as [|Hx0]; auto.
      apply Rabs_pos_lt in Hx0; lra. }
    assert (E1 : (1 :: zeros n : vec) = zeros (S n)).
    { apply NS; [simpl; now rewrite zeros_length|].
      now rewrite (mvmul_e1 D). }
    rewrite zeros_S in E1; injection E1; lra. }
  replace (Reqb a 0) with false by (symmetry; now apply Reqb_false).
  set (m := map (fun x => x / a) c) in *.
  assert (Hm : length m = n) by (unfold m; now rewrite length_map).
  assert (Do : dims n n (outer m r))
    by (rewrite <- Hm at 1; rewrite <- Hr; apply outer_dims).
  destruct (IH (msub B (outer m r)) (vsub bs (scale b0 m))) as [y Ey].
  - now apply msub_dims.
  - apply vsub_length; auto; now rewrite scale_length.
  - intros y Hy E.
    assert (NS' := nonsingular_swap0 p NS).
    rewrite EA in NS'.
    specialize (NS' (- (dot r y / a) :: y)).
    rewrite mvmul_cons, dot_cons, mvmul_cons_col, zeros_S in NS'
      by (destruct DB; lia).
    assert (E0 : - (dot r y / a) :: y = 0 :: zeros n); [|now injection E0].
    apply NS'; [simpl; lia|].
    f_equal; [field; auto|].
    rewrite (@mvmul_msub n n B (outer m r) y DB Do), mvmul_outer in E.
    rewrite <- (vsub_zeros_scale_0 m Hm) in E.
    apply eliminated_rows in E; auto.
    + rewrite <- E; f_equal; f_equal; field; auto.
    + rewrite mvmul_length; destruct DB; lia.
    + rewrite zeros_length; lia.
  - rewrite Ey; eauto.
Qed.

(** *** Uniqueness of solutions *)

Lemma vsub_self (v : vec) : vsub v v = zeros (length v).
Proof.
  induction v as [|a v IH]; auto.
  rewrite vsub_cons, IH; simpl length; rewrite zeros_S; f_equal; ring.
Qed.

Lemma vsub_zeros_eq (u v : vec) :
  length u = length v -> vsub u v = zeros (length u) -> u = v.
Proof.
  revert v; induction u as [|a u IH]; intros [|b v] Hl E; simpl in Hl;
    try discriminate; auto.
  simpl length in E; rewrite vsub_cons, zeros_S in E; injection E as E1 E2.
  f_equal; [lra | apply IH; auto].
Qed.

Lemma mvmul_vsub (A : mat) (u v : vec) :
  length u = length v ->
  mvmul A (vsub u v) = vsub (mvmul A u) (mvmul A v).
Proof.
  intros Hl; induction A as [|r A IH]; auto.
  rewrite !mvmul_cons, vsub_cons, IH, dot_vsub_r; auto.
Qed.

Lemma nonsingular_unique n (A : mat) (x x' : vec) :
  dims n n A -> nonsingular n A ->
  length x = n -> length x' = n ->
  mvmul A x = mvmul A x' -> x = x'.
Proof.
  intros D NS Hx Hx' E.
  apply vsub_zeros_eq; [congruence|].
  rewrite Hx; apply NS; [apply vsub_length; auto|].
  rewrite mvmul_vsub, E, vsub_self, mvmul_length by congruence.
  destruct D as [-> _]; reflexivity.
Qed.

(** *** Triangular matrices *)

Lemma scale_0 (c : vec) : scale 0 c = zeros (length c).
Proof.
  induction c as [|a c IH]; auto.
  rewrite scale_cons, IH; simpl length; rewrite zeros_S; f_equal; ring.
Qed.

Lemma scale_zeros k n : scale k (zeros n) = zeros n.
Proof.
  induction n as [|n IH]; auto.
  rewrite zeros_S, scale_cons, IH; f_equal; ring.
Qed.

Lemma lower_border_O_inv (L : mat) : lower_border 0 L -> L = [].
Proof. now inversion 1. Qed.

Lemma lower_border_S_inv n (L : mat) :
  lower_border (S n) L ->
  exists l c L', L = (l :: zeros n) :: cons_col c L' /\
                 0 < l /\ length c = n /\ dims n n L' /\ lower_border n L'.
Proof. inversion 1; subst; eauto 10. Qed.

Lemma lower_border_dims n (L : mat) : lower_border n L -> dims n n L.
Proof.
  destruct 1 as [|n l c L Hl Hc DL _]; [apply dims_nil|].
  apply dims_cons; split; [simpl; now rewrite zeros_length|].
  now apply cons_col_dims.
Qed.

Lemma lower_border_nonsingular n (L : mat) :
  lower_border n L -> nonsingular n L.
Proof.
  induction 1 as [|n l c L Hl Hc DL _ IH]; intros x Hx E.
  - destruct x; [reflexivity|discriminate].
  - destruct x as [|x0 y]; [discriminate|]; simpl in Hx.
    rewrite mvmul_cons, dot_cons, dot_zeros_l, mvmul_cons_col, zeros_S in E
      by (destruct DL; lia).
    injection E as E1 E2.
    assert (x0 = 0) by nra; subst x0.
    rewrite scale_0, Hc, vadd_zeros_l in E2
      by (rewrite mvmul_length; destruct DL; auto).
    rewrite zeros_S; f_equal; apply IH; auto.
Qed.

(** the transpose of a lower triangular matrix *)
Lemma transpose_lower_border n l (c : vec) (L : mat) :
  length c = n -> dims n n L ->
  transpose ((l :: zeros n) :: cons_col c L)
  = (l :: c) :: cons_col (zeros n) (transpose L).
Proof.
  intros Hc DL.
  assert (D : dims (S n) (S n) ((l :: zeros n) :: cons_col c L)).
  { apply dims_cons; split; [simpl; now rewrite zeros_length|].
    now apply cons_col_dims. }
  rewrite (transpose_square D), (transpose_square DL).
  apply transpose_cols_border with (m := n); auto; apply zeros_length.
Qed.

Lemma transpose_lower_nonsingular n (L : mat) :
  lower_border n L -> nonsingular n (transpose L).
Proof.
  induction 1 as [|n l c L Hl Hc DL _ IH]; intros x Hx E.
  - destruct x; [reflexivity|discriminate].
  - destruct x as [|x0 y]; [discriminate|]; simpl in Hx.
    assert (DT : dims n n (transpose L))
      by (rewrite (transpose_square DL); now apply transpose_cols_dims).
    rewrite transpose_lower_border in E by auto.
    rewrite mvmul_cons, dot_cons, mvmul_cons_col, zeros_S in E
      by (rewrite zeros_length; destruct DT; lia).
    injection E as E1 E2.
    rewrite scale_zeros, vadd_zeros_l in E2
      by (rewrite mvmul_length; destruct DT; auto).
    assert (Ey : y = zeros n) by (apply IH; auto; lia).
    subst y; rewrite dot_zeros_r in E1.
    assert (x0 = 0) by nra; subst x0; reflexivity.
Qed.

Lemma nth_cons_col (c : vec) (A : mat) i :
  length c = length A -> (i < length c)%nat ->
  nth i (cons_col c A) [] = nth i c 0 :: nth i A [].
Proof.
  revert A i; induction c as [|a c IH]; intros [|r A] [|i] Hl Hi; simpl in *;
    try discriminate; try lia; auto.
  apply IH; lia.
Qed.

Lemma lower_border_triangular n (L : mat) :
  lower_border n L -> lower_triangular L /\ positive_diagonal n L.
Proof.
  induction 1 as [|n l c L Hl Hc DL _ [IH1 IH2]]; split.
  - intros [|i] [|j] _; reflexivity.
  - intros i Hi; lia.
  - intros [|i] [|j] Hij; try lia.
    + simpl; unfold zeros; destruct (Nat.lt_ge_cases j n);
        [apply nth_repeat_lt; auto | apply nth_overflow; rewrite repeat_length; auto].
    + cbn [nth].
      destruct (Nat.lt_ge_cases i n) as [Hi|Hi].
      * rewrite nth_cons_col by (destruct DL; lia).
        cbn [nth]; apply IH1; lia.
      * rewrite (nth_overflow (cons_col c L))
          by (rewrite cons_col_length; destruct DL; lia).
        reflexivity.
  - intros [|i] Hi; cbn [nth]; auto.
    rewrite nth_cons_col by (destruct DL; lia).
    cbn [nth]; apply IH2; lia.
Qed.

(** *** Forward and back substitution *)

Lemma forward_subst_correct n (L : mat) : lower_border n L ->
  forall b, length b = n ->
  mvmul L (forward_subst n L b) = b /\ length (forward_subst n L b) = n.
Proof.
  induction 1 as [|n l c L Hl Hc DL _ IH]; intros b Hb.
  - destruct b; [auto|discriminate].
  - destruct b as [|b0 bs]; [discriminate|]; simpl in Hb.
    cbn [forward_subst]; rsimp.
    rewrite hdcol_cons_col, tlcols_cons_col by (destruct DL; lia).
    destruct (IH (vsub bs (scale (b0 / l) c))) as [E Hlen];
      [apply vsub_length; [lia | rewrite scale_length; auto]|].
    split; [|simpl; lia].
    rewrite mvmul_cons, dot_cons, dot_zeros_l, mvmul_cons_col, E
      by (destruct DL; lia).
    rewrite vadd_vsub_cancel by (rewrite scale_length; lia).
    f_equal; field; lra.
Qed.

Lemma back_subst_correct n (L : mat) : lower_border n L ->
  forall z, length z = n ->
  mvmul (transpose L) (back_subst n (transpose L) z) = z /\
  length (back_subst n (transpose L) z) = n.
Proof.
  induction 1 as [|n l c L Hl Hc DL _ IH]; intros z Hz.
  - destruct z; [auto|discriminate].
  - destruct z as [|z0 zs]; [discriminate|]; simpl in Hz.
    assert (DT : dims n n (transpose L))
      by (rewrite (transpose_square DL); now apply transpose_cols_dims).
    rewrite transpose_lower_border by auto.
    cbn [back_subst]; rsimp.
    rewrite tlcols_cons_col by (rewrite zeros_length; destruct DT; lia).
    destruct (IH zs) as [E Hlen]; [lia|].
    split; [|simpl; lia].
    rewrite mvmul_cons, dot_cons, mvmul_cons_col, E
      by (rewrite zeros_length; destruct DT; lia).
    rewrite scale_zeros, vadd_zeros_l by lia.
    f_equal; field; lra.
Qed.

(** *** [(A . B^T) x = A (B^T x)] *)

Lemma mvmul_nil_rows n (x : vec) : mvmul (repeat [] n) x = zeros n.
Proof. induction n as [|n IH]; auto; simpl; now rewrite IH. Qed.

Lemma transpose_cols_nil n : transpose_cols n ([] : mat) = repeat [] n.
Proof. induction n as [|n IH]; auto; simpl; now rewrite <- IH. Qed.

Lemma dot_mvmul_transpose p q (B : mat) (a x : vec) :
  dims p q B -> length a = q -> length x = p ->
  dot (mvmul B a) x = dot a (mvmul (transpose_cols q B) x).
Proof.
  revert p x; induction B as [|b B IH]; intros p x D Ha Hx.
  - rewrite transpose_cols_nil, mvmul_nil_rows, dot_zeros_r; reflexivity.
  - destruct p as [|p]; [destruct D; discriminate|].
    apply dims_cons in D as [Hb D].
    destruct x as [|x0 x]; [discriminate|]; simpl in Hx.
    rewrite transpose_cols_cons by auto.
    assert (DT := transpose_cols_dims D).
    rewrite mvmul_cons, dot_cons, mvmul_cons_col by (destruct DT; lia).
    rewrite dot_vadd_r
      by (rewrite scale_length, mvmul_length; destruct DT; lia).
    rewrite dot_scale_r, (IH p x) by (auto; lia).
    rewrite (dot_comm a b); ring.
Qed.

Lemma mvmul_mul_transpose p q (A B : mat) (x : vec) :
  dims p q B -> Forall (fun r => length r = q) A -> length x = p ->
  mvmul (mul_transpose A B) x = mvmul A (mvmul (transpose_cols q B) x).
Proof.
  intros D HF Hx; induction HF as [|a A Ha HF IH]; auto.
  rewrite mul_transpose_cons, !mvmul_cons, IH.
  f_equal; now apply dot_mvmul_transpose with (p := p).
Qed.

(** *** The three steps of the solver on a positive definite matrix *)

Lemma pos_def_sym_border n (M : mat) : pos_def n M -> sym_border n M.
Proof. intros (D & E & _); now apply symmetric_border. Qed.

Lemma solver_steps n (M : mat) (b : vec) :
  pos_def n M -> length b = n ->
  exists L z theta,
    np_linalg_cholesky M = Some L /\
    lower_border n L /\ mul_transpose L L = M /\
    np_linalg_solve L b = Some z /\ z = forward_subst n L b /\
    np_linalg_solve (transpose L) z = Some theta /\
    theta = back_subst n (transpose L) z /\
    length theta = n /\ mvmul M theta = b.
Proof.
  intros PD Hb.
  assert (SB := pos_def_sym_border PD).
  destruct PD as (DM & _ & PD).
  destruct (cholesky_rec_complete SB PD) as (L & EL & LB & DL & G).
  assert (DT : dims n n (transpose L))
    by (rewrite (transpose_square DL); now apply transpose_cols_dims).
  destruct (@gesv_complete n L b DL Hb (lower_border_nonsingular LB)) as [z Ez].
  destruct (@gesv_sound n L b z DL Hb Ez) as [Sz Hz].
  destruct (@gesv_complete n (transpose L) z DT Hz
              (transpose_lower_nonsingular LB)) as [t Et].
  destruct (@gesv_sound n (transpose L) z t DT Hz Et) as [St Ht].
  destruct (@forward_subst_correct n L LB b Hb) as [Fz FHz].
  destruct (@back_subst_correct n L LB z Hz) as [Bt BHt].
  exists L, z, t.
  unfold np_linalg_cholesky, np_linalg_solve.
  destruct DM as [-> HM], DL as [HL1 HL2], DT as [HT1 HT2].
  rewrite HL1, HT1.
  repeat split; auto.
  - apply (@nonsingular_unique n L); auto; try split; auto.
    + now apply lower_border_nonsingular.
    + congruence.
  - apply (@nonsingular_unique n (transpose L)); auto; try split; auto.
    + now apply transpose_lower_nonsingular.
    + congruence.
  - rewrite <- G, (@mvmul_mul_transpose n n L L t) by (auto; split; auto).
    rewrite <- (@transpose_square n L) by (split; auto).
    now rewrite St.
Qed.

End RealAlgebra.

(** ** The program, for any scalars *)

Section ProgramFacts.
Context {T : Type} `{Scalar T}.
Variable py_float : string -> option T.
Local Abbreviation vec := (vector T).
Local Abbreviation mat := (matrix T).

(** the solver of [lr.py] factors the damped matrix, and leaves it in the
    array it was given *)
Lemma lr_solve_eq (A : mat) (b : vec) (regularization : T) :
  lr.cholesky_solution_linear_regression A b regularization
  = (cholesky_solve (damped A regularization) b, damped A regularization).
Proof.
  unfold lr.cholesky_solution_linear_regression, cholesky_solve, damped,
    bind, modify, get, lift_option, ret, raise.
  destruct (np_linalg_cholesky _) as [L|]; auto.
  destruct (np_linalg_solve L b) as [z|]; auto.
  destruct (np_linalg_solve (transpose L) z); auto.
Qed.

(** the solver of [lr_norm.py] factors the matrix as it is *)
Lemma lr_norm_solve_eq (self : LR T) :
  lr_norm.cholesky_solution_linear_regression self
  = (cholesky_solve (x_t_x self) (x_t_y self), self).
Proof.
  unfold lr_norm.cholesky_solution_linear_regression, cholesky_solve,
    bind, get, lift_option, ret, raise.
  destruct (np_linalg_cholesky _) as [L|]; auto.
  destruct (np_linalg_solve L _) as [z|]; auto.
  destruct (np_linalg_solve (transpose L) z); auto.
Qed.

Lemma mapper_lr_eq (line : string) (self : LR T) :
  lr.mapper_lr py_float line self
  = match extract_variables py_float line with
    | inl e => (inl e, self)
    | inr (y, features) =>
        if length features =? DIMENSION self
        then (inr tt, accumulated self y (effective (BIAS self) features))
        else (inl (DimensionMismatchError (DIMENSION self) (length features)), self)
    end.
Proof.
  unfold lr.mapper_lr, bind, call, get, raise, modify.
  destruct (extract_variables py_float line) as [e|[y features]]; auto.
  destruct (length features =? DIMENSION self); reflexivity.
Qed.

Lemma process_line_eq (line : string) (self : LR T) :
  lr_norm.process_line py_float line self
  = match extract_variables py_float line with
    | inl e => (inl e, self)
    | inr (y, features) =>
        if length features =? DIMENSION self
        then (inr tt, accumulated self y (effective (BIAS self) features))
        else (inl (as_lr_norm
                     (DimensionMismatchError (DIMENSION self) (length features))),
              self)
    end.
Proof.
  unfold lr_norm.process_line, bind, call, get, raise, modify.
  destruct (extract_variables py_float line) as [e|[y features]]; auto.
  destruct (length features =? DIMENSION self); reflexivity.
Qed.

Lemma effective_length (bias : bool) (features : vec) :
  length (effective bias features) = length features + int bias.
Proof.
  destruct bias; simpl; [rewrite length_app; simpl|]; lia.
Qed.

(** [split] gives at least one field, so [data[0]] is there *)
Lemma split_comma_not_nil (s : string) : split_comma s <> [].
Proof.
  induction s as [|c s IH]; simpl; [discriminate|].
  destruct (Ascii.eqb c ","); [discriminate|].
  destruct (split_comma s); discriminate.
Qed.

Lemma floats_of_length (tokens : list string) (data : list T) :
  floats_of py_float tokens = inr data -> length data = length tokens.
Proof.
  revert data; induction tokens as [|e tokens IH]; simpl; intros data E.
  - now injection E as <-.
  - destruct (py_float e); [|discriminate].
    destruct (floats_of py_float tokens) as [|vs]; [discriminate|].
    injection E as <-; simpl; f_equal; auto.
Qed.

Lemma extract_variables_no_index_error (line : string) :
  extract_variables py_float line <> inl IndexError.
Proof.
  unfold extract_variables.
  destruct (floats_of py_float _) as [e|[|y features]] eqn:E; try discriminate.
  - clear - E; revert e E; induction (split_comma (strip line)) as [|t ts IH];
      simpl; [discriminate|]; intros e E.
    destruct (py_float t); [|injection E as <-; discriminate].
    destruct (floats_of py_float ts); [|discriminate].
    injection E as <-; now apply IH.
  - apply floats_of_length in E.
    destruct (split_comma (strip line)) eqn:E'; [|discriminate].
    now apply split_comma_not_nil in E'.
Qed.

(** **** C1.  On an object whose [x_t_x] is [n x n] and whose [x_t_y] has
    length [n], with [n = DIMENSION + int(BIAS)], a record with label [y]
    and [DIMENSION] features is accumulated, in both programs, as follows.
    The vector [x] is the features, followed by the constant 1.0 when there
    is a bias; it has length [n].  Afterwards [x_t_x] is [n x n] with entry
    [(i, j)] the former entry plus [x[i] * x[j]], [x_t_y] has length [n] with
    entry [i] the former entry plus [y * x[i]], [counts] is one more, and
    the dimension and the bias flag are as they were. *)
Theorem accumulate_updates_statistic (line : string) (self : LR T) (y : T)
    (features : vec) :
  let n := DIMENSION self + int (BIAS self) in
  dims n n (x_t_x self) -> length (x_t_y self) = n ->
  extract_variables py_float line = inr (y, features) ->
  length features = DIMENSION self ->
  let x := if BIAS self then features ++ [sone] else features in
  exists self',
    lr.mapper_lr py_float line self = (inr tt, self') /\
    lr_norm.process_line py_float line self = (inr tt, self') /\
    length x = n /\
    dims n n (x_t_x self') /\ length (x_t_y self') = n /\
    (forall i j, (i < n)%nat -> (j < n)%nat ->
       nth j (nth i (x_t_x self') []) szero
       = (nth j (nth i (x_t_x self) []) szero + nth i x szero * nth j x szero)%S) /\
    (forall i, (i < n)%nat ->
       nth i (x_t_y self') szero
       = (nth i (x_t_y self) szero + y * nth i x szero)%S) /\
    counts self' = (counts self + 1)%Z /\
    DIMENSION self' = DIMENSION self /\ BIAS self' = BIAS self.
Proof.
  intros n D Hy E Hl x.
  assert (Hx : length x = n)
    by (unfold n; rewrite <- Hl; apply effective_length).
  assert (DO : dims n n (outer x x)) by (rewrite <- Hx; apply outer_dims).
  exists (accumulated self y x).
  rewrite mapper_lr_eq, process_line_eq, E.
  apply Nat.eqb_eq in Hl; rewrite Hl.
  split; [reflexivity|].
  split; [reflexivity|].
  split; [exact Hx|].
  split; [now apply madd_dims|].
  split; [apply vadd_length; [exact Hy | now rewrite scale_length]|].
  split; [|split; [|repeat split]].
  - intros i j Hi Hj; cbn [accumulated x_t_x].
    rewrite (@nth_madd _ _ n n) by auto.
    now rewrite nth_outer by lia.
  - intros i Hi; cbn [accumulated x_t_y].
    rewrite (@nth_vadd _ _ n) by (auto; now rewrite scale_length).
    now rewrite nth_scale by lia.
Qed.

(** **** C8 (as amended).  A record whose number of features differs from
    the configured dimension [d] makes [mapper_lr] of [lr.py] raise
    [DimensionMismatchError] with the fields [exp = d] and [obs] the number
    found; [process_line] of [lr_norm.py] raises a [ValueError] whose message
    gives the two numbers. *)
Theorem dimension_mismatch_is_reported (line : string) (self : LR T) (y : T)
    (features : vec) :
  extract_variables py_float line = inr (y, features) ->
  length features <> DIMENSION self ->
  lr.mapper_lr py_float line self
  = (inl (DimensionMismatchError (DIMENSION self) (length features)), self) /\
  lr_norm.process_line py_float line self
  = (inl (ValueError ("Expected dimension " ++ str_of_nat (DIMENSION self)
                      ++ ", but got " ++ str_of_nat (length features))%string),
     self).
Proof.
  intros E Hl.
  rewrite mapper_lr_eq, process_line_eq, E.
  apply Nat.eqb_neq in Hl; rewrite Hl; auto.
Qed.

(** **** C10.  A record with a token that is not a number, or with a number
    of features other than the dimension, makes both [mapper_lr] and
    [process_line] raise and leaves the object, so its [x_t_x], [x_t_y] and
    [counts], exactly as it was before the call. *)
Theorem failed_accumulate_changes_nothing (line : string) (self : LR T) :
  (exists e, extract_variables py_float line = inl e) \/
  (exists y features, extract_variables py_float line = inr (y, features) /\
                      length features <> DIMENSION self) ->
  (exists e, lr.mapper_lr py_float line self = (inl e, self)) /\
  (exists e, lr_norm.process_line py_float line self = (inl e, self)).
Proof.
  rewrite mapper_lr_eq, process_line_eq.
  intros [[e E] | (y & features & E & Hl)]; rewrite E.
  - eauto.
  - apply Nat.eqb_neq in Hl; rewrite Hl; eauto.
Qed.

(** the other direction: a call that raises has changed nothing *)
Lemma raise_changes_nothing (line : string) (self self' : LR T) (e : exn) :
  lr.mapper_lr py_float line self = (inl e, self') \/
  lr_norm.process_line py_float line self = (inl e, self') ->
  self' = self.
Proof.
  rewrite mapper_lr_eq, process_line_eq.
  destruct (extract_variables py_float line) as [e'|[y features]].
  - intros [E|E]; congruence.
  - destruct (length features =? DIMENSION self); intros [E|E]; congruence.
Qed.

(** the two accumulators differ in the exception only *)
Lemma process_line_mapper_lr (line : string) (self : LR T) :
  lr_norm.process_line py_float line self
  = map_error as_lr_norm (lr.mapper_lr py_float line self).
Proof.
  rewrite mapper_lr_eq, process_line_eq.
  destruct (extract_variables py_float line) as [e|[y features]] eqn:E; simpl.
  - destruct e; auto.
    (* [float] and [data[0]] never raise the exception of the dimension check *)
    exfalso; revert E; unfold extract_variables.
    destruct (floats_of py_float _) as [e|[|? ?]] eqn:E'; try discriminate.
    intros [= ->].
    clear - E'; revert E'; induction (split_comma (strip line)) as [|t ts IH];
      simpl; [discriminate|].
    destruct (py_float t); [|discriminate].
    destruct (floats_of py_float ts) as [e|]; [|discriminate].
    intros [= ->]; now apply IH.
  - destruct (length features =? DIMENSION self); reflexivity.
Qed.

Lemma for_each_process_line (lines : list string) (self : LR T) :
  for_each (lr_norm.process_line py_float) lines self
  = map_error as_lr_norm (for_each (lr.mapper_lr py_float) lines self).
Proof.
  revert self; induction lines as [|line lines IH]; intros self; auto.
  simpl; unfold bind.
  rewrite process_line_mapper_lr.
  destruct (lr.mapper_lr py_float line self) as [[e|[]] self']; simpl; auto.
Qed.

(** the job on one partition, and the main program of [lr_norm.py], by the
    outcome of the map task *)
Lemma job_one_partition (d : nat) (bias : bool) (lines : list string) :
  lr.job py_float d bias [lines]
  = match for_each (lr.mapper_lr py_float) lines (init d bias) with
    | (inl e, _) => inl e
    | (inr _, self) => lr.reducer_lr (init d bias) (lr.mapper_lr_final self ++ [])
    end.
Proof.
  unfold lr.job; cbn [lr.map_phase]; unfold lr.map_task.
  destruct (for_each (lr.mapper_lr py_float) lines (init d bias)) as [[e|u] self];
    reflexivity.
Qed.

Lemma main_by_map_task (d : nat) (bias : bool) (lines : list string) :
  lr_norm.main py_float d bias lines
  = match for_each (lr.mapper_lr py_float) lines (init d bias) with
    | (inl e, _) => inl (as_lr_norm e)
    | (inr _, self) => cholesky_solve (x_t_x self) (x_t_y self)
    end.
Proof.
  unfold lr_norm.main, lr_norm.run, bind.
  rewrite for_each_process_line.
  destruct (for_each (lr.mapper_lr py_float) lines (init d bias)) as [[e|u] self];
    cbn [map_error fst]; [reflexivity|].
  now rewrite lr_norm_solve_eq.
Qed.

End ProgramFacts.

(** ** The solver, over the real numbers *)

Section RealSolver.
Local Open Scope R_scope.
Local Abbreviation vec := (vector R).
Local Abbreviation mat := (matrix R).

Lemma madd_cons_col (c d : vec) (X Y : mat) :
  length c = length X -> length d = length Y ->
  madd (cons_col c X) (cons_col d Y) = cons_col (vadd c d) (madd X Y).
Proof.
  revert d X Y; induction c as [|a c IH]; intros [|b d] [|r X] [|s Y] Hc Hd;
    simpl in Hc, Hd; try discriminate; auto.
  change (madd (cons_col (a :: c) (r :: X)) (cons_col (b :: d) (s :: Y)))
    with (vadd (a :: r) (b :: s) :: madd (cons_col c X) (cons_col d Y)).
  rewrite IH by lia; reflexivity.
Qed.

Lemma map_cons_zero (X : mat) : map (cons 0) X = cons_col (zeros (length X)) X.
Proof.
  induction X as [|r X IH]; auto.
  simpl length; rewrite zeros_S, map_cons.
  cbn [cons_col]; f_equal; exact IH.
Qed.

Lemma mscale_cons_col (c : vec) (X : mat) k :
  mscale (cons_col c X) k = cons_col (map (fun a => a * k) c) (mscale X k).
Proof.
  revert X; induction c as [|a c IH]; intros [|r X]; auto.
  change (mscale (cons_col (a :: c) (r :: X)) k)
    with ((a * k :: map (fun a => a * k) r) :: mscale (cons_col c X) k).
  rewrite IH; reflexivity.
Qed.

Lemma map_mul_zeros k n : map (fun a => a * k) (zeros n : vec) = zeros n.
Proof.
  induction n as [|n IH]; auto.
  rewrite zeros_S, map_cons, IH; f_equal; ring.
Qed.

Lemma damped_eq n (A : mat) reg :
  length A = n -> damped A reg = madd A (mscale (eye n) reg).
Proof. intros <-; reflexivity. Qed.

(** damping a matrix given by its corner, first row, first column and rest *)
Lemma damped_border n a (r c : vec) (B : mat) reg :
  length r = n -> length c = n -> dims n n B ->
  damped ((a :: r) :: cons_col c B) reg
  = (a + reg :: r) :: cons_col c (damped B reg).
Proof.
  intros Hr Hc [HB1 HB2].
  assert (El : length ((a :: r) :: cons_col c B) = S n)
    by (simpl; rewrite cons_col_length; lia).
  destruct (@eye_dims R _ n) as [HE1 HE2].
  rewrite (damped_eq _ reg El), (damped_eq _ reg HB1); cbn [eye].
  rewrite map_cons_zero, HE1.
  change (mscale ((sone :: zeros n) :: cons_col (zeros n) (eye n)) reg)
    with ((1 * reg :: map (fun a => a * reg) (zeros n))
            :: mscale (cons_col (zeros n) (eye n)) reg).
  rewrite mscale_cons_col, map_mul_zeros, madd_cons, vadd_cons.
  assert (HM : length (mscale (eye n) reg) = n)
    by apply (mscale_dims reg (@eye_dims R _ n)).
  rewrite madd_cons_col by (rewrite ?zeros_length; lia).
  rewrite !vadd_zeros_r by auto.
  f_equal; f_equal; ring.
Qed.

Lemma damped_dims n (A : mat) reg : dims n n A -> dims n n (damped A reg).
Proof.
  intros D; unfold damped; apply madd_dims; auto.
  destruct D as [-> _]; apply mscale_dims, eye_dims.
Qed.

Lemma damped_sym_border n (A : mat) reg :
  sym_border n A -> sym_border n (damped A reg).
Proof.
  induction 1 as [|n a c B Hc DB _ IH]; [constructor|].
  rewrite (@damped_border n a c c B reg) by auto.
  constructor; auto; now apply damped_dims.
Qed.

(** the damped matrix, entry by entry *)
Lemma damped_entry n : forall (A : mat) reg i j,
  dims n n A -> (i < n)%nat -> (j < n)%nat ->
  nth j (nth i (damped A reg) []) 0
  = nth j (nth i A []) 0 + (if (i =? j)%nat then reg else 0).
Proof.
  induction n as [|n IH]; intros A reg i j D Hi Hj; [lia|].
  destruct (dims_S_inv D) as (a & r & c & B & -> & Hr & Hc & DB).
  rewrite (@damped_border n a r c B reg) by auto.
  destruct (damped_dims reg DB) as [HD1 HD2].
  destruct i as [|i], j as [|j]; cbn [nth Nat.eqb]; try ring.
  - destruct DB as [HB1 HB2].
    rewrite !nth_cons_col by lia.
    cbn [nth]; ring.
  - assert (HB1 : length B = n) by apply DB.
    rewrite !nth_cons_col by lia.
    cbn [nth]; apply IH; auto; lia.
Qed.

Lemma transpose_transpose n (L : mat) : dims n n L -> transpose (transpose L) = L.
Proof.
  intros D.
  rewrite (transpose_square D), (transpose_square (transpose_cols_dims D)).
  now apply transpose_cols_involutive.
Qed.

(** on a positive definite matrix the three steps succeed *)
Lemma cholesky_solve_pos_def n (M : mat) (b : vec) :
  pos_def n M -> length b = n ->
  exists theta, cholesky_solve M b = inr theta /\
                length theta = n /\ mvmul M theta = b.
Proof.
  intros PD Hb.
  destruct (solver_steps b PD Hb)
    as (L & z & t & EL & _ & _ & Ez & _ & Et & _ & Ht & E).
  exists t; unfold cholesky_solve; rewrite EL, Ez, Et; auto.
Qed.

(** on a symmetric matrix that is not positive definite the first fails *)
Lemma cholesky_solve_not_pos_def n (M : mat) (b : vec) :
  dims n n M -> transpose M = M -> ~ pos_def n M ->
  cholesky_solve M b = inl LinAlgError_NotPositiveDefinite.
Proof.
  intros D E NPD; unfold cholesky_solve, np_linalg_cholesky.
  destruct D as [Hl HF]; rewrite Hl.
  destruct (cholesky_rec n M) as [L|] eqn:EL; auto.
  elim NPD; split; [split; auto|split; auto].
  apply (@cholesky_rec_pos_def n M L); auto.
  apply symmetric_border; auto; split; auto.
Qed.

(** **** C2 (as amended).  The solver of [lr.py] adds [regularization] to
    every diagonal entry of [x_t_x], and to no other entry, before the
    Cholesky factorisation, and [reducer_lr] calls it with the default
    [1e-10]; the solver of [lr_norm.py] factors [x_t_x] as it was
    accumulated, without damping. *)
Theorem damping_before_factorisation n (A : mat) (b : vec) (reg : R)
    (self : LR R) (values : list lr.value) :
  dims n n A ->
  (forall i j, (i < n)%nat -> (j < n)%nat ->
     nth j (nth i (damped A reg) []) 0
     = nth j (nth i A []) 0 + (if (i =? j)%nat then reg else 0)) /\
  lr.cholesky_solution_linear_regression A b reg
  = (cholesky_solve (damped A reg) b, damped A reg) /\
  lr.reducer_lr self values
  = (let '(A', b', _) := lr.reducer_sums self values in
     cholesky_solve (damped A' (/ 10000000000)) b') /\
  lr_norm.cholesky_solution_linear_regression self
  = (cholesky_solve (x_t_x self) (x_t_y self), self).
Proof.
  intros D.
  split; [intros i j Hi Hj; now apply (@damped_entry n)|].
  split; [apply lr_solve_eq|].
  split; [|apply lr_norm_solve_eq].
  unfold lr.reducer_lr.
  destruct (lr.reducer_sums self values) as [[A' b'] c'].
  now rewrite lr_solve_eq.
Qed.

(** **** C4 (as amended).  In exact real arithmetic: when the damped matrix
    [M = x_t_x + regularization * I] is positive definite, the solver of
    [lr.py] finds the lower triangular [L] with positive diagonal and
    [L . L^T = M], solves [L z = x_t_y] (the result of forward substitution)
    and [L^T theta = z] (the result of back substitution), and returns
    [theta], of length [n], with [M theta = x_t_y].  The solver of
    [lr_norm.py], which does not damp, does the same with [M = x_t_x] when
    [x_t_x] itself is positive definite. *)
Theorem solve_by_cholesky n (A : mat) (b : vec) (reg : R) (self : LR R) :
  dims n n A -> length b = n ->
  (pos_def n (damped A reg) ->
   exists L z theta,
     np_linalg_cholesky (damped A reg) = Some L /\
     dims n n L /\ lower_triangular L /\ positive_diagonal n L /\
     mmul L (transpose L) = damped A reg /\
     np_linalg_solve L b = Some z /\
     z = forward_subst n L b /\ mvmul L z = b /\
     np_linalg_solve (transpose L) z = Some theta /\
     theta = back_subst n (transpose L) z /\ mvmul (transpose L) theta = z /\
     lr.cholesky_solution_linear_regression A b reg = (inr theta, damped A reg) /\
     length theta = n /\
     mvmul (damped A reg) theta = b) /\
  (x_t_x self = A -> x_t_y self = b -> pos_def n A ->
   exists L z theta,
     np_linalg_cholesky A = Some L /\
     dims n n L /\ lower_triangular L /\ positive_diagonal n L /\
     mmul L (transpose L) = A /\
     np_linalg_solve L b = Some z /\
     z = forward_subst n L b /\ mvmul L z = b /\
     np_linalg_solve (transpose L) z = Some theta /\
     theta = back_subst n (transpose L) z /\ mvmul (transpose L) theta = z /\
     lr_norm.cholesky_solution_linear_regression self = (inr theta, self) /\
     length theta = n /\
     mvmul A theta = b).
Proof.
  intros D Hb.
  assert (G : forall M, pos_def n M ->
    exists L z theta,
      np_linalg_cholesky M = Some L /\
      dims n n L /\ lower_triangular L /\ positive_diagonal n L /\
      mmul L (transpose L) = M /\
      np_linalg_solve L b = Some z /\
      z = forward_subst n L b /\ mvmul L z = b /\
      np_linalg_solve (transpose L) z = Some theta /\
      theta = back_subst n (transpose L) z /\ mvmul (transpose L) theta = z /\
      cholesky_solve M b = inr theta /\
      length theta = n /\ mvmul M theta = b).
  { intros M PD.
    destruct (solver_steps b PD Hb)
      as (L & z & t & EL & LB & G & Ez & Fz & Et & Bt & Ht & E).
    assert (DL := lower_border_dims LB).
    destruct (lower_border_triangular LB) as [LT PDg].
    assert (Hz : length z = n)
      by (rewrite Fz; apply (forward_subst_correct LB b Hb)).
    exists L, z, t; repeat split; auto.
    - destruct DL; auto.
    - destruct DL; auto.
    - unfold mmul; now rewrite (transpose_transpose DL).
    - rewrite Fz; apply (forward_subst_correct LB b Hb).
    - rewrite Bt; apply (back_subst_correct LB z Hz).
    - unfold cholesky_solve; now rewrite EL, Ez, Et. }
  split.
  - intros PD; destruct (G _ PD) as (L & z & t & H1 & H2 & H3 & H4 & H5 & H6
                                    & H7 & H8 & H9 & H10 & H11 & H12 & H13 & H14).
    exists L, z, t; rewrite lr_solve_eq, H12; repeat split; auto; apply H2.
  - intros <- <- PD; destruct (G _ PD) as (L & z & t & H1 & H2 & H3 & H4 & H5
                                    & H6 & H7 & H8 & H9 & H10 & H11 & H12 & H13 & H14).
    exists L, z, t; rewrite lr_norm_solve_eq, H12; repeat split; auto; apply H2.
Qed.

(** **** C5 (as amended).  In exact real arithmetic, on a statistic with a
    square symmetric matrix: the solver of [lr.py] raises the
    not-positive-definite [LinAlgError] of [np.linalg.cholesky], with no
    coefficients and nothing tried after it, when the damped matrix is not
    positive definite, and returns coefficients when it is; the solver of
    [lr_norm.py], which does not damp, raises it when [x_t_x] itself is not
    positive definite, and returns coefficients when it is. *)
Theorem not_positive_definite_is_an_error n (A : mat) (b : vec) (reg : R)
    (self : LR R) :
  dims n n A -> transpose A = A -> length b = n ->
  (~ pos_def n (damped A reg) ->
   lr.cholesky_solution_linear_regression A b reg
   = (inl LinAlgError_NotPositiveDefinite, damped A reg)) /\
  (pos_def n (damped A reg) ->
   exists theta,
     lr.cholesky_solution_linear_regression A b reg = (inr theta, damped A reg)) /\
  (x_t_x self = A -> x_t_y self = b ->
   (~ pos_def n A ->
    lr_norm.cholesky_solution_linear_regression self
    = (inl LinAlgError_NotPositiveDefinite, self)) /\
   (pos_def n A ->
    exists theta,
      lr_norm.cholesky_solution_linear_regression self = (inr theta, self))).
Proof.
  intros D E Hb.
  assert (SD : transpose (damped A reg) = damped A reg)
    by (apply (@sym_border_symmetric n), damped_sym_border, symmetric_border; auto).
  repeat split.
  - intros NPD; rewrite lr_solve_eq.
    now rewrite (@cholesky_solve_not_pos_def n) by (auto using damped_dims).
  - intros PD; rewrite lr_solve_eq.
    destruct (cholesky_solve_pos_def b PD Hb) as (t & -> & _); eauto.
  - intros NPD; rewrite lr_norm_solve_eq.
    match goal with HA : x_t_x self = A, Hv : x_t_y self = b |- _ =>
      rewrite HA, Hv end.
    now rewrite (@cholesky_solve_not_pos_def n) by auto.
  - intros PD; rewrite lr_norm_solve_eq.
    match goal with HA : x_t_x self = A, Hv : x_t_y self = b |- _ =>
      rewrite HA, Hv end.
    destruct (cholesky_solve_pos_def b PD Hb) as (t & -> & _); eauto.
Qed.

End RealSolver.

(** ** Merging statistics *)

Section MergeAnyScalar.
Context {T : Type} `{Scalar T}.

(** the loop of the reducer adds field by field, as the specification says *)
Lemma merge_eq_spec (a b : @statistic T) : merge a b = merge_spec a b.
Proof. destruct a as [[A u] c], b as [[B v] d]; reflexivity. Qed.

Lemma mapper_lr_final_values (self : LR T) :
  lr.mapper_lr_final self = values_of (statistic_of self).
Proof. reflexivity. Qed.

Lemma reducer_sums_app (self : LR T) (vs ws : list lr.value) :
  lr.reducer_sums self (vs ++ ws)
  = fold_left lr.reducer_step ws (lr.reducer_sums self vs).
Proof. unfold lr.reducer_sums; apply fold_left_app. Qed.

(** merging adds entry by entry, and keeps the shape *)
Lemma merge_entries n (a b : @statistic T) :
  shaped n a -> shaped n b ->
  let '(A, u, k) := a in
  let '(B, v, l) := b in
  let '(C, w, m) := merge a b in
  dims n n C /\ length w = n /\
  (forall i j, (i < n)%nat -> (j < n)%nat ->
     nth j (nth i C []) szero
     = (nth j (nth i A []) szero + nth j (nth i B []) szero)%S) /\
  (forall i, (i < n)%nat ->
     nth i w szero = (nth i u szero + nth i v szero)%S) /\
  m = (k + l)%Z.
Proof.
  destruct a as [[A u] k], b as [[B v] l]; intros [DA Hu] [DB Hv].
  rewrite merge_eq_spec; cbn [merge_spec].
  split; [now apply madd_dims|].
  split; [now apply vadd_length|].
  split; [intros i j Hi Hj; now apply (@nth_madd _ _ n n)|].
  split; [intros i Hi; now apply (@nth_vadd _ _ n)|reflexivity].
Qed.

(** the loop of the reducer over the values of a list of statistics merges
    them one after the other *)
Lemma fold_reducer_step_statistics (ss : list (@statistic T)) :
  forall acc : @statistic T,
    fold_left lr.reducer_step (concat (map values_of ss)) acc
    = fold_left merge ss acc.
Proof.
  induction ss as [|s ss IH]; intros acc; [reflexivity|].
  cbn [map concat fold_left]; rewrite fold_left_app; apply IH.
Qed.

(** merging is commutative when the addition of the scalars is *)
Lemma merge_comm_of_sadd :
  (forall x y : T, sadd x y = sadd y x) ->
  forall a b : @statistic T, merge a b = merge b a.
Proof.
  intros C a b; rewrite !merge_eq_spec.
  destruct a as [[A u] k], b as [[B v] l]; cbn [merge_spec].
  unfold madd, vadd.
  rewrite (@mzip_comm _ _ (@zip_with_comm _ sadd C) A B),
    (@zip_with_comm _ sadd C u v), Z.add_comm.
  reflexivity.
Qed.

End MergeAnyScalar.

Section MergeReal.
Local Open Scope R_scope.
Local Abbreviation vec := (vector R).
Local Abbreviation mat := (matrix R).

Lemma madd_comm (A B : mat) : madd A B = madd B A.
Proof.
  revert B; induction A as [|r A IH]; intros [|s B]; auto.
  rewrite !madd_cons, IH, vadd_comm; reflexivity.
Qed.

Lemma madd_assoc (A B C : mat) : madd (madd A B) C = madd A (madd B C).
Proof.
  revert B C; induction A as [|r A IH]; intros [|s B] [|t C]; auto.
  rewrite !madd_cons, IH, vadd_assoc; reflexivity.
Qed.

Lemma madd_mzeros_r m n (A : mat) : dims m n A -> madd A (mzeros m n) = A.
Proof.
  revert m; induction A as [|r A IH]; intros m D.
  - destruct D as [<- _]; reflexivity.
  - destruct m as [|m]; [destruct D; discriminate|].
    apply dims_cons in D as [Hr D].
    change (mzeros (S m) n : mat) with (zeros n :: mzeros m n).
    rewrite madd_cons, IH, vadd_zeros_r; auto.
Qed.

Lemma madd_mzeros_l m n (A : mat) : dims m n A -> madd (mzeros m n) A = A.
Proof. intros D; rewrite madd_comm; now apply madd_mzeros_r. Qed.

Lemma merge_comm (a b : @statistic R) : merge a b = merge b a.
Proof.
  rewrite !merge_eq_spec; destruct a as [[A u] c], b as [[B v] d]; simpl.
  now rewrite (madd_comm A B), (vadd_comm u v), Z.add_comm.
Qed.

Lemma merge_assoc (a b c : @statistic R) :
  merge (merge a b) c = merge a (merge b c).
Proof.
  rewrite !merge_eq_spec.
  destruct a as [[A u] x], b as [[B v] y], c as [[C w] z]; simpl.
  now rewrite madd_assoc, vadd_assoc, Z.add_assoc.
Qed.

(** the body of the reducer's loop may read two values in either order *)
Lemma reducer_step_swap (acc : @statistic R) (v w : lr.value) :
  lr.reducer_step (lr.reducer_step acc v) w
  = lr.reducer_step (lr.reducer_step acc w) v.
Proof.
  destruct acc as [[A u] c], v as [B|b|x], w as [C|d|y]; simpl; auto.
  - now rewrite !madd_assoc, (madd_comm B C).
  - now rewrite !vadd_assoc, (vadd_comm b d).
  - f_equal; lia.
Qed.

Lemma fold_reducer_step_Permutation (vs ws : list lr.value) :
  Permutation vs ws ->
  forall acc : @statistic R,
    fold_left lr.reducer_step vs acc = fold_left lr.reducer_step ws acc.
Proof.
  induction 1 as [|v vs ws _ IH|v w vs|us vs ws _ IH1 _ IH2]; intros acc; simpl; auto.
  - now rewrite reducer_step_swap.
  - now rewrite IH1.
Qed.

(** statistics may be merged into the sums in any order *)
Lemma fold_merge_Permutation (ss ss' : list (@statistic R)) :
  Permutation ss ss' ->
  forall acc : @statistic R, fold_left merge ss acc = fold_left merge ss' acc.
Proof.
  induction 1 as [|x ss ss' _ IH|x y ss|ss1 ss2 ss3 _ IH1 _ IH2]; intros acc;
    simpl; auto.
  - now rewrite !merge_assoc, (merge_comm y x).
  - now rewrite IH1.
Qed.

Lemma merge_zero_r n (s : @statistic R) :
  shaped n s -> merge s (zero_statistic n) = s.
Proof.
  intros Sh; rewrite merge_eq_spec; destruct s as [[A u] c], Sh as [DA Hu]; simpl.
  now rewrite (madd_mzeros_r DA), vadd_zeros_r, Z.add_0_r.
Qed.

Lemma merge_zero_l n (s : @statistic R) :
  shaped n s -> merge (zero_statistic n) s = s.
Proof. intros Sh; rewrite merge_comm; now apply merge_zero_r. Qed.

(** **** C7.  The reducer's sums over no value at all are the all-zero
    statistic of the configured shape; a map task without records emits the
    all-zero statistic; and merging a statistic of that shape with the
    all-zero statistic, on either side, gives it back unchanged. *)
Theorem zero_statistic_is_identity (py_float : string -> option R)
    (d : nat) (bias : bool) (s : @statistic R) :
  shaped (d + int bias) s ->
  lr.reducer_sums (init d bias) [] = zero_statistic (d + int bias) /\
  lr.map_task py_float d bias [] = inr (values_of (zero_statistic (d + int bias))) /\
  merge s (zero_statistic (d + int bias)) = s /\
  merge (zero_statistic (d + int bias)) s = s.
Proof.
  intros Sh.
  split; [reflexivity|].
  split; [reflexivity|].
  split; [now apply merge_zero_r | now apply merge_zero_l].
Qed.

End MergeReal.

(** ** What accumulation maintains, over the real numbers *)

Section RealInvariant.
Local Open Scope R_scope.
Local Abbreviation vec := (vector R).
Local Abbreviation mat := (matrix R).
Variable py_float : string -> option R.

Lemma mzeros_S_S m n :
  (mzeros (S m) (S n) : mat) = (0 :: zeros n) :: cons_col (zeros m) (mzeros m n).
Proof.
  change (mzeros (S m) (S n) : mat) with ((0 :: zeros n) :: mzeros m (S n)).
  f_equal; induction m as [|m IH]; auto.
  change (mzeros (S m) (S n) : mat) with ((0 :: zeros n) :: mzeros m (S n)).
  rewrite IH; reflexivity.
Qed.

Lemma sym_border_mzeros n : sym_border n (mzeros n n).
Proof.
  induction n as [|n IH]; [constructor|].
  rewrite mzeros_S_S; constructor; auto using zeros_length, mzeros_dims.
Qed.

Lemma sym_border_outer (x : vec) : sym_border (length x) (outer x x).
Proof.
  induction x as [|a x IH]; [constructor|].
  rewrite outer_cons_cons.
  replace (map (fun xi => xi * a) x) with (scale a x)
    by (apply map_ext; intros; rsimp; ring).
  simpl length; constructor; auto using scale_length, outer_dims.
Qed.

Lemma sym_border_madd n (A B : mat) :
  sym_border n A -> sym_border n B -> sym_border n (madd A B).
Proof.
  revert A B; induction n as [|n IH]; intros A B SA SB.
  - rewrite (sym_border_O_inv SA); constructor.
  - destruct (sym_border_S_inv SA) as (a & c & A' & -> & Hc & DA & SA').
    destruct (sym_border_S_inv SB) as (b & d & B' & -> & Hd & DB & SB').
    rewrite madd_cons, vadd_cons.
    rewrite madd_cons_col by (destruct DA, DB; lia).
    constructor; auto using vadd_length, madd_dims.
Qed.

Lemma quad_madd n (A B : mat) v :
  dims n n A -> dims n n B ->
  quad (madd A B) v = quad A v + quad B v.
Proof.
  intros DA DB; unfold quad.
  rewrite (mvmul_madd v DA DB), dot_vadd_r; auto.
  rewrite !mvmul_length; destruct DA, DB; lia.
Qed.

Lemma quad_outer (x v : vec) : quad (outer x x) v = dot x v * dot x v.
Proof.
  unfold quad; rewrite mvmul_outer, dot_scale_r, (dot_comm v x); ring.
Qed.

Lemma quad_mzeros m n v : quad (mzeros m n) v = 0.
Proof.
  unfold quad.
  replace (mvmul (mzeros m n) v) with (zeros m : vec); [apply dot_zeros_r|].
  induction m as [|m IH]; auto.
  change (mzeros (S m) n : mat) with (zeros n :: mzeros m n).
  rewrite mvmul_cons, dot_zeros_l, <- IH; reflexivity.
Qed.

Lemma init_well_formed d bias : well_formed (init d bias).
Proof.
  unfold well_formed; simpl.
  split; [apply sym_border_mzeros|].
  split; [apply zeros_length|].
  intros v _; rewrite quad_mzeros; lra.
Qed.

Lemma accumulated_well_formed (self : LR R) y (features : vec) :
  well_formed self -> length features = DIMENSION self ->
  well_formed (accumulated self y (effective (BIAS self) features)).
Proof.
  intros (S & Hy & PSD) Hl; unfold well_formed, accumulated; simpl.
  set (n := (DIMENSION self + int (BIAS self))%nat) in *.
  set (x := effective (BIAS self) features).
  assert (Hx : length x = n)
    by (unfold x, n; rewrite effective_length; lia).
  assert (So : sym_border n (outer x x))
    by (rewrite <- Hx; apply sym_border_outer).
  split; [now apply sym_border_madd|].
  split; [apply vadd_length; auto; now rewrite scale_length|].
  intros v Hv.
  rewrite (@quad_madd n) by auto using sym_border_dims.
  rewrite quad_outer.
  pose proof (PSD v Hv); pose proof (Rle_0_sqr (dot x v)) as Q.
  unfold Rsqr in Q; lra.
Qed.

Lemma mapper_lr_well_formed line (self self' : LR R) r :
  well_formed self -> lr.mapper_lr py_float line self = (r, self') ->
  well_formed self' /\ DIMENSION self' = DIMENSION self /\ BIAS self' = BIAS self.
Proof.
  intros W; rewrite mapper_lr_eq.
  destruct (extract_variables py_float line) as [e|[y features]].
  - intros [= <- <-]; auto.
  - destruct (length features =? DIMENSION self) eqn:E; intros [= <- <-]; auto.
    apply Nat.eqb_eq in E; split; auto.
    now apply accumulated_well_formed.
Qed.

Lemma for_each_mapper_lr_well_formed lines : forall (self self' : LR R) r,
  well_formed self ->
  for_each (lr.mapper_lr py_float) lines self = (r, self') ->
  well_formed self' /\ DIMENSION self' = DIMENSION self /\ BIAS self' = BIAS self.
Proof.
  induction lines as [|line lines IH]; intros self self' r W; simpl.
  - intros [= <- <-]; auto.
  - unfold bind.
    destruct (lr.mapper_lr py_float line self) as [[e|[]] self1] eqn:E1;
      destruct (mapper_lr_well_formed _ W E1) as (W1 & D1 & B1).
    + intros [= <- <-]; auto.
    + intros E; destruct (IH _ _ _ W1 E) as (W' & D' & B').
      split; auto; split; congruence.
Qed.

(** damping adds [regularization] times the squared length to the
    quadratic form *)
Lemma mvmul_damped n : forall (A : mat) reg (v : vec),
  dims n n A -> length v = n ->
  mvmul (damped A reg) v = vadd (mvmul A v) (scale reg v).
Proof.
  induction n as [|n IH]; intros A reg v D Hv.
  - rewrite (dims_0_inv D); reflexivity.
  - destruct (dims_S_inv D) as (a & r & c & B & -> & Hr & Hc & DB).
    destruct v as [|x0 y]; [discriminate|]; simpl in Hv.
    rewrite (@damped_border n a r c B reg) by auto.
    assert (HB : length B = n) by apply DB.
    assert (HD : length (damped B reg) = n) by apply (damped_dims reg DB).
    rewrite !mvmul_cons, !dot_cons, !mvmul_cons_col by lia.
    rewrite (IH B reg y) by (auto; lia).
    rewrite scale_cons, vadd_cons, vadd_assoc.
    f_equal; ring.
Qed.

Lemma quad_damped n (A : mat) reg (v : vec) :
  dims n n A -> length v = n ->
  quad (damped A reg) v = quad A v + reg * dot v v.
Proof.
  intros D Hv; unfold quad.
  rewrite (@mvmul_damped n A reg v D Hv), dot_vadd_r, dot_scale_r; auto.
  rewrite mvmul_length, scale_length; destruct D; lia.
Qed.

(** with a positive [regularization], the damped matrix of a well-formed
    object is positive definite *)
Lemma damped_pos_def (self : LR R) reg :
  well_formed self -> 0 < reg ->
  pos_def (DIMENSION self + int (BIAS self)) (damped (x_t_x self) reg).
Proof.
  intros (S & _ & PSD) Hreg.
  set (n := (DIMENSION self + int (BIAS self))%nat) in *.
  assert (D := sym_border_dims S).
  split; [now apply damped_dims|].
  split; [now apply (@sym_border_symmetric n), damped_sym_border|].
  intros v Hv Hv0.
  rewrite (quad_damped reg v D Hv).
  pose proof (PSD v Hv).
  pose proof (dot_self_nonneg v).
  destruct (Req_dec (dot v v) 0) as [E|E].
  - apply dot_self_zero in E; rewrite Hv in E; contradiction.
  - nra.
Qed.

(** damping keeps a positive definite matrix positive definite *)
Lemma pos_def_damped n (A : mat) reg :
  pos_def n A -> 0 <= reg -> pos_def n (damped A reg).
Proof.
  intros (D & E & PD) Hreg.
  split; [now apply damped_dims|].
  split; [now apply (@sym_border_symmetric n), damped_sym_border, symmetric_border|].
  intros v Hv Hv0.
  rewrite (quad_damped reg v D Hv).
  pose proof (PD v Hv Hv0).
  pose proof (dot_self_nonneg v).
  nra.
Qed.

End RealInvariant.

(** ** The two entry points on one partition *)

Section EntryPoints.
Local Open Scope R_scope.
Local Abbreviation vec := (vector R).
Local Abbreviation mat := (matrix R).
Variable py_float : string -> option R.

Lemma well_formed_shaped (self : LR R) :
  well_formed self ->
  shaped (DIMENSION self + int (BIAS self)) (statistic_of self).
Proof. intros (S & Hy & _); split; auto using sym_border_dims. Qed.

(** the reducer, given the values of one map task, solves the damped system
    of that task's statistic *)
Lemma reducer_lr_one_task (d : nat) (bias : bool) (self : LR R) :
  well_formed self -> DIMENSION self = d -> BIAS self = bias ->
  lr.reducer_lr (init d bias) (lr.mapper_lr_final self ++ [])
  = cholesky_solve (damped (x_t_x self) (/ 10000000000)) (x_t_y self).
Proof.
  intros W <- <-; unfold lr.reducer_lr, lr.reducer_sums.
  rewrite app_nil_r, mapper_lr_final_values.
  cbn [DIMENSION BIAS init].
  pose proof (@merge_zero_l _ (statistic_of self) (well_formed_shaped W)) as E.
  unfold merge, zero_statistic in E; rewrite E.
  unfold statistic_of; now rewrite lr_solve_eq.
Qed.

End EntryPoints.

Section EntryPointsAnyScalar.
Context {T : Type} `{Scalar T}.
Variable py_float : string -> option T.


End EntryPointsAnyScalar.



(** ** Calling the solver of [lr.py] twice *)

Section SolveTwice.
Local Open Scope R_scope.
Local Abbreviation vec := (vector R).
Local Abbreviation mat := (matrix R).

Lemma pos_def_1x1 (m : R) : 0 < m -> pos_def 1 [[m]].
Proof.
  intros Hm; split; [split; [reflexivity|repeat constructor]|].
  split; [reflexivity|].
  intros [|x [|? ?]] Hl Hx; try discriminate.
  unfold quad; simpl; rsimp.
  assert (x <> 0) by (intros ->; now apply Hx).
  assert (0 < x * x) by (apply Rsqr_pos_lt; auto).
  nra.
Qed.

Lemma cholesky_solve_1x1 (m b0 : R) :
  0 < m -> cholesky_solve [[m]] [b0] = inr [b0 / m].
Proof.
  intros Hm.
  destruct (@cholesky_solve_pos_def 1 [[m]] [b0] (pos_def_1x1 Hm) eq_refl)
    as (t & -> & Hl & E).
  destruct t as [|t [|? ?]]; try discriminate.
  simpl in E; rsimp; injection E as E.
  do 2 f_equal; field_simplify_eq; lra.
Qed.

Lemma damped_1x1 (a reg : R) : damped [[a]] reg = [[a + reg]].
Proof. apply (@damped_border 0 a [] [] [] reg); auto; apply dims_nil. Qed.

(** the solver writes into the array it is given: whenever
    [regularization] is not zero, the caller's matrix is another one after
    the call *)
Lemma lr_solve_changes_its_argument n (A : mat) (b : vec) (reg : R) :
  dims (S n) (S n) A -> reg <> 0 ->
  snd (lr.cholesky_solution_linear_regression A b reg) <> A.
Proof.
  intros D Hreg; rewrite lr_solve_eq; simpl; intros E.
  pose proof (@damped_entry (S n) A reg 0 0 D ltac:(lia) ltac:(lia)) as H.
  rewrite E in H; simpl in H; lra.
Qed.

End SolveTwice.

Import Floats Binary64.

(** **** C3 (the code does otherwise).  [cholesky_solution_linear_regression]
    of [lr.py] updates its argument [x_t_x] in place.  Called on the array
    [[1.0]] with [x_t_y = [1.0]] it leaves [[1.0000000001]] in the array,
    and a second call on the same array factors another matrix and returns
    another result: in binary64 as in the real numbers. *)
Theorem solve_twice_on_one_array :
  (let '(r1, A1) := lr.cholesky_solution_linear_regression
                      [[1%float]] [1%float] s1e_10 in
   let '(r2, A2) := lr.cholesky_solution_linear_regression
                      A1 [1%float] s1e_10 in
   A1 <> [[1%float]] /\ A2 <> A1 /\ r1 <> r2) /\
  (let eps := (/ 10000000000)%R in
   lr.cholesky_solution_linear_regression [[1%R]] [1%R] eps
   = (inr [1 / (1 + eps)], [[1 + eps]])%R /\
   lr.cholesky_solution_linear_regression [[1 + eps]]%R [1%R] eps
   = (inr [1 / (1 + eps + eps)], [[1 + eps + eps]])%R /\
   (1 / (1 + eps) <> 1 / (1 + eps + eps))%R).
Proof.
  split.
  - vm_compute.
    assert (N : forall x y : PrimFloat.float,
               PrimFloat.eqb x y = false -> PrimFloat.eqb y y = true -> x <> y)
      by (intros x y E1 E2 ->; congruence).
    repeat split; intros [= E]; revert E; apply N; reflexivity.
  - intros eps.
    assert (He : (0 < eps)%R) by (unfold eps; lra).
    rewrite !lr_solve_eq, !damped_1x1, !cholesky_solve_1x1 by lra.
    repeat split.
    intros E; apply (f_equal (fun t => (t * (1 + eps) * (1 + eps + eps))%R)) in E.
    field_simplify in E; lra.
Qed.

(** ** Merging, in the two readings of the scalars *)

(** the addition of binary64 is commutative *)
Lemma SFadd_comm prec emax (x y : SpecFloat.spec_float) :
  SpecFloat.SFadd prec emax x y = SpecFloat.SFadd prec emax y x.
Proof.
  destruct x as [sx|sx| |sx mx ex], y as [sy|sy| |sy my ey]; simpl; auto;
    try (destruct sx, sy; reflexivity).
  rewrite (Z.min_comm ey ex); f_equal; apply Z.add_comm.
Qed.

Lemma float_add_comm (x y : float) : (x + y = y + x)%float.
Proof. apply Prim2SF_inj; rewrite !add_spec; apply SFadd_comm. Qed.

(** **** C6 (as amended).  In exact real arithmetic, for statistics [a],
    [b], [c] of one shape [n]: merging adds entry by entry and keeps the
    shape; it is associative and commutative,
    [merge(merge(a, b), c) = merge(a, merge(b, c)) = merge(merge(b, a), c)];
    and the sums of the reducer over the values of statistics of that shape
    are those statistics merged from zero, the same in whatever order they
    arrive.  In binary64 merging is commutative (and not associative). *)
Theorem merge_associative_commutative (n : nat) (a b c : @statistic R) :
  shaped n a -> shaped n b -> shaped n c ->
  (let '(A, u, k) := a in
   let '(B, v, l) := b in
   let '(C, w, m) := merge a b in
   dims n n C /\ length w = n /\
   (forall i j, (i < n)%nat -> (j < n)%nat ->
      nth j (nth i C []) 0 = nth j (nth i A []) 0 + nth j (nth i B []) 0)%R /\
   (forall i, (i < n)%nat -> nth i w 0 = nth i u 0 + nth i v 0)%R /\
   m = (k + l)%Z) /\
  merge (merge a b) c = merge a (merge b c) /\
  merge a (merge b c) = merge (merge b a) c /\
  (forall (self : LR R) (ss ss' : list (@statistic R)),
     (DIMENSION self + int (BIAS self))%nat = n ->
     Forall (shaped n) ss -> Permutation ss ss' ->
     lr.reducer_sums self (concat (map values_of ss))
     = fold_left merge ss (zero_statistic n) /\
     lr.reducer_sums self (concat (map values_of ss'))
     = lr.reducer_sums self (concat (map values_of ss))) /\
  (forall x y : @statistic float, merge x y = merge y x).
Proof.
  intros Sa Sb Sc.
  split; [exact (@merge_entries _ _ n a b Sa Sb)|].
  split; [apply merge_assoc|].
  split; [now rewrite <- merge_assoc, (merge_comm a b)|].
  split; [|apply merge_comm_of_sadd; exact float_add_comm].
  intros self ss ss' <- _ P; unfold lr.reducer_sums.
  rewrite !fold_reducer_step_statistics.
  split; [reflexivity|].
  symmetry; now apply fold_merge_Permutation.
Qed.

(** ** The program on sample inputs *)

(** the example of the specification: [y = 2 + 3 x1 - x2] with two features
    and a bias gives [[3, -1, 2]] up to [1e-6], on one partition as on two *)
Example job_on_exact_data :
  let lines := ["2,0,0"; "5,1,0"; "1,0,1"; "4,1,1"; "7,2,1"; "0,0,2"]%string in
  let close x y := (PrimFloat.ltb (PrimFloat.abs (x - y)) (1 / 1000000))%float in
  match lr.job float_of_literal 2 true [lines],
        lr.job float_of_literal 2 true [firstn 2 lines; skipn 2 lines],
        lr_norm.main float_of_literal 2 true lines with
  | inr [a1; a2; a3], inr [b1; b2; b3], inr [c1; c2; c3] =>
      forallb (fun t => close (fst t) (snd t))
        [(a1, 3); (a2, -1); (a3, 2); (b1, 3); (b2, -1); (b3, 2);
         (c1, 3); (c2, -1); (c3, 2)]%float = true
  | _, _, _ => False
  end.
Proof. vm_compute; reflexivity. Qed.

(** in binary64 the sums of a merge are rounded: merging is commutative,
    and associative only up to rounding *)
Example binary64_merge_rounds :
  let a : statistic := ([[1]], [1 / 10], 1%Z)%float in
  let b : statistic := ([[1]], [2 / 10], 1%Z)%float in
  let c : statistic := ([[1]], [3 / 10], 1%Z)%float in
  merge a b = merge b a /\
  merge (merge a b) c <> merge a (merge b c).
Proof.
  intros a b c; split; [reflexivity|].
  intros E.
  apply (f_equal (fun s : statistic =>
                    match s with
                    | (_, [x], _) => PrimFloat.eqb x (1 / 10 + (2 / 10 + 3 / 10))
                    | _ => true
                    end)) in E.
  vm_compute in E; discriminate E.
Qed.

(** C6: in binary64 the sums of a merge are rounded, so merging is not
    associative.  With two features and no bias, the statistic [a] of the
    record [1,100663296,100663296] has the entries [100663296^2], a number
    between [2^53] and [2^54], where binary64 has the even integers only;
    the statistic [b] of the record [1,1,0] adds 1 to the first entry.
    Merging [b] twice into [a] leaves that entry as it is, merging [b]
    with itself first adds 2 to it.  So the job on the three records in one
    partition has a singular matrix and raises, and on the partitions
    [[r1]] and [[r2; r2]] it returns coefficients. *)
Lemma binary64_merge_is_not_associative :
  let r1 := "1,100663296,100663296"%string in
  let r2 := "1,1,0"%string in
  let a : statistic :=
    ([[10133099161583616; 10133099161583616];
      [10133099161583616; 10133099161583616]], [100663296; 100663296], 1%Z)%float in
  let b : statistic := ([[1; 0]; [0; 0]], [1; 0], 1%Z)%float in
  lr.map_task float_of_literal 2 false [r1] = inr (values_of a) /\
  lr.map_task float_of_literal 2 false [r2] = inr (values_of b) /\
  merge (merge a b) b <> merge a (merge b b) /\
  lr.job float_of_literal 2 false [[r1; r2; r2]]
  = inl LinAlgError_NotPositiveDefinite /\
  exists theta, lr.job float_of_literal 2 false [[r1]; [r2; r2]] = inr theta.
Proof.
  intros r1 r2 a b.
  split; [reflexivity|].
  split; [reflexivity|].
  split; [|split; [reflexivity|vm_compute; eexists; reflexivity]].
  intros E.
  apply (f_equal (fun s : statistic =>
                    match s with
                    | ((x :: _) :: _, _, _) =>
                        PrimFloat.eqb x (10133099161583616 + 2)
                    | _ => false
                    end)) in E.
  vm_compute in E; discriminate E.
Qed.

(** C1, on the line [3,2] read by an object with one feature and a bias
    that has read the line [5,1] before: [x] is [[2; 1]] *)
Lemma accumulate_updates_statistic_witness :
  let self := (mkLR 1 true [[1; 1]; [1; 1]] [5; 5] 1)%float in
  let x := ([2; 1])%float in
  exists self',
    lr.mapper_lr float_of_literal "3,2" self = (inr tt, self') /\
    lr_norm.process_line float_of_literal "3,2" self = (inr tt, self') /\
    length x = 2%nat /\
    dims 2 2 (x_t_x self') /\ length (x_t_y self') = 2%nat /\
    (forall i j, (i < 2)%nat -> (j < 2)%nat ->
       nth j (nth i (x_t_x self') []) 0
       = nth j (nth i (x_t_x self) []) 0 + nth i x 0 * nth j x 0)%float /\
    (forall i, (i < 2)%nat ->
       nth i (x_t_y self') 0 = nth i (x_t_y self) 0 + 3 * nth i x 0)%float /\
    counts self' = 2%Z /\
    DIMENSION self' = 1%nat /\ BIAS self' = true.
Proof.
  intros self x.
  assert (D : dims 2 2 (x_t_x self))
    by (split; [reflexivity|repeat constructor]).
  exact (@accumulate_updates_statistic float _ float_of_literal "3,2"
           self 3%float [2%float] D eq_refl eq_refl eq_refl).
Defined.

(** C8: the file reader does not raise the exception class of the job *)
Lemma lr_norm_raises_value_error :
  fst (lr_norm.process_line float_of_literal "1,0,0,0" (init 8 true))
  = inl (ValueError "Expected dimension 8, but got 3") /\
  fst (lr_norm.process_line float_of_literal "1,0,0,0" (init 8 true))
  <> inl (DimensionMismatchError 8 3) /\
  fst (lr.mapper_lr float_of_literal "1,0,0,0" (init 8 true))
  = inl (DimensionMismatchError 8 3).
Proof. vm_compute; repeat split; discriminate. Qed.

Lemma dimension_mismatch_is_reported_witness :
  lr.mapper_lr float_of_literal "1,0,0,0" (init 8 true)
  = (inl (DimensionMismatchError 8 3), init 8 true) /\
  lr_norm.process_line float_of_literal "1,0,0,0" (init 8 true)
  = (inl (ValueError "Expected dimension 8, but got 3"), init 8 true).
Proof.
  apply (@dimension_mismatch_is_reported float _ float_of_literal "1,0,0,0"
           (init 8 true) 1%float [0; 0; 0]%float);
    [reflexivity | discriminate].
Defined.

(** C10, on a line with a token that is not a number *)
Lemma failed_accumulate_changes_nothing_witness :
  (exists e, lr.mapper_lr float_of_literal "1,0,x,0" (init 8 true)
             = (inl e, init 8 true)) /\
  (exists e, lr_norm.process_line float_of_literal "1,0,x,0" (init 8 true)
             = (inl e, init 8 true)).
Proof.
  apply (@failed_accumulate_changes_nothing float _ float_of_literal).
  left; exists (FloatValueError "x"); reflexivity.
Defined.

(** C2: on the statistic of no record, with one feature and no bias, the
    file reader fails where the damped matrix has a Cholesky solution *)
Lemma lr_norm_factors_undamped :
  (fst (lr_norm.cholesky_solution_linear_regression (init (T := float) 1 false))
   = inl LinAlgError_NotPositiveDefinite /\
   cholesky_solve (damped (x_t_x (init (T := float) 1 false)) s1e_10)
                  (x_t_y (init 1 false))
   = inr [0%float]) /\
  (fst (lr_norm.cholesky_solution_linear_regression (init (T := R) 1 false))
   = inl LinAlgError_NotPositiveDefinite /\
   cholesky_solve (damped (x_t_x (init (T := R) 1 false)) s1e_10)
                  (x_t_y (init 1 false))
   = inr [(0 / (0 + / 10000000000))%R]).
Proof.
  split; [vm_compute; auto|].
  split.
  - rewrite lr_norm_solve_eq; unfold cholesky_solve, np_linalg_cholesky.
    simpl; rsimp.
    now replace (Reqb 0 0) with true by (symmetry; apply Reqb_true; lra);
      rewrite orb_true_r.
  - change (x_t_x (init (T := R) 1 false)) with [[0%R]].
    rewrite damped_1x1; apply cholesky_solve_1x1; rsimp; lra.
Qed.


(** the object after the loop over sample lines, in the real reading: the
    loop gets through, the damped matrix is positive definite and the three
    steps succeed on it *)
Lemma sample_damped (d : nat) (bias : bool) (lines : list string) (t : LR R) :
  for_each (lr.mapper_lr real_of_literal) lines (init d bias) = (inr tt, t) ->
  dims (d + int bias) (d + int bias) (x_t_x t) /\
  transpose (x_t_x t) = x_t_x t /\
  pos_def (d + int bias) (damped (x_t_x t) (/ 10000000000)%R) /\
  exists theta,
    cholesky_solve (damped (x_t_x t) (/ 10000000000)%R) (x_t_y t) = inr theta.
Proof.
  intros E.
  destruct (for_each_mapper_lr_well_formed _ _ (init_well_formed d bias) E)
    as (W & HD & HB); simpl in HD, HB.
  assert (PD := @damped_pos_def t (/ 10000000000)%R W ltac:(lra)).
  destruct W as (S & Hy & _); rewrite HD, HB in PD, Hy, S.
  split; [now apply sym_border_dims|].
  split; [now apply (@sym_border_symmetric (d + int bias))|].
  split; [exact PD|].
  destruct (@cholesky_solve_pos_def _ _ (x_t_y t) PD Hy) as (theta & C & _).
  now exists theta.
Qed.

(** C4.  The record [1,10000000000,10000000000], with two features and a
    bias, has the matrix entries [1e20], [1e10] and [1]: over the real
    numbers its damped matrix is positive definite and the solver of [lr.py]
    returns; in binary64 [1e20 + 1e-10] is [1e20], the damped matrix is the
    singular matrix of the record, and the solver raises.  And the solver of
    [lr_norm.py] does not damp: on the record [3,1], with one feature and a
    bias, whose damped matrix is positive definite, it raises, over the real
    numbers as in binary64. *)
Lemma binary64_solve_fails_on_positive_definite :
  (let line := "1,10000000000,10000000000"%string in
   let tR := snd (for_each (lr.mapper_lr real_of_literal) [line] (init 2 true)) in
   let tF := snd (for_each (lr.mapper_lr float_of_literal) [line] (init 2 true)) in
   pos_def 3 (damped (x_t_x tR) (/ 10000000000)%R) /\
   (exists theta,
      fst (lr.cholesky_solution_linear_regression
             (x_t_x tR) (x_t_y tR) (/ 10000000000)%R) = inr theta) /\
   x_t_x tF
   = [[10000000000 * 10000000000; 10000000000 * 10000000000; 10000000000];
      [10000000000 * 10000000000; 10000000000 * 10000000000; 10000000000];
      [10000000000; 10000000000; 1]]%float /\
   fst (lr.cholesky_solution_linear_regression (x_t_x tF) (x_t_y tF) s1e_10)
   = inl LinAlgError_NotPositiveDefinite) /\
  (let uR := snd (for_each (lr_norm.process_line real_of_literal)
                    ["3,1"%string] (init 1 true)) in
   let uF := snd (for_each (lr_norm.process_line float_of_literal)
                    ["3,1"%string] (init 1 true)) in
   pos_def 2 (damped (x_t_x uR) (/ 10000000000)%R) /\
   fst (lr_norm.cholesky_solution_linear_regression uR)
   = inl LinAlgError_NotPositiveDefinite /\
   fst (lr_norm.cholesky_solution_linear_regression uF)
   = inl LinAlgError_NotPositiveDefinite).
Proof.
  split.
  - intros line tR tF.
    assert (E : for_each (lr.mapper_lr real_of_literal) [line] (init 2 true)
                = (inr tt, tR)) by reflexivity.
    destruct (@sample_damped _ _ _ _ E) as (_ & _ & PD & theta & C).
    split; [exact PD|].
    split; [exists theta; now rewrite lr_solve_eq|].
    vm_compute; split; reflexivity.
  - intros uR uF.
    assert (E : for_each (lr.mapper_lr real_of_literal) ["3,1"%string] (init 1 true)
                = (inr tt, uR)) by reflexivity.
    destruct (@sample_damped _ _ _ _ E) as (D & Sy & PD & _).
    split; [exact PD|].
    split; [|vm_compute; reflexivity].
    rewrite lr_norm_solve_eq; cbn [fst].
    apply (@cholesky_solve_not_pos_def 2); auto.
    intros (_ & _ & Q).
    specialize (Q [1; -1]%R eq_refl ltac:(intros [= E1]; lra)).
    unfold quad in Q; simpl in Q; rsimp; lra.
Qed.

(** C5.  In binary64 rounding changes which matrices are factored.  The job
    raises on the record [1,10000000000,10000000000], whose damped matrix is
    positive definite over the real numbers, where it returns.  The file
    reader returns coefficients on the two records [1,2] and [1,2], with one
    feature and a bias, whose matrix [[8, 4], [4, 2]] is singular: over the
    real numbers it raises.  And over the real numbers it raises there
    although the damped matrix is positive definite, since it does not
    damp. *)
Lemma binary64_changes_definiteness :
  (let line := "1,10000000000,10000000000"%string in
   (exists theta, lr.job real_of_literal 2 true [[line]] = inr theta) /\
   lr.job float_of_literal 2 true [[line]] = inl LinAlgError_NotPositiveDefinite) /\
  (let lines := ["1,2"; "1,2"]%string in
   let uR := snd (for_each (lr_norm.process_line real_of_literal) lines
                    (init 1 true)) in
   let uF := snd (for_each (lr_norm.process_line float_of_literal) lines
                    (init 1 true)) in
   x_t_x uF = [[8; 4]; [4; 2]]%float /\
   (exists theta, lr_norm.main float_of_literal 1 true lines = inr theta) /\
   ~ pos_def 2 (x_t_x uR) /\
   lr_norm.main real_of_literal 1 true lines = inl LinAlgError_NotPositiveDefinite /\
   pos_def 2 (damped (x_t_x uR) (/ 10000000000)%R)).
Proof.
  split.
  - intros line; split; [|vm_compute; reflexivity].
    rewrite job_one_partition.
    set (t := snd (for_each (lr.mapper_lr real_of_literal) [line] (init 2 true))).
    assert (E : for_each (lr.mapper_lr real_of_literal) [line] (init 2 true)
                = (inr tt, t)) by reflexivity.
    clearbody t; rewrite E.
    destruct (for_each_mapper_lr_well_formed _ _ (init_well_formed 2 true) E)
      as (W & HD & HB); simpl in HD, HB.
    rewrite (reducer_lr_one_task W HD HB).
    destruct (@sample_damped _ _ _ _ E) as (_ & _ & _ & theta & C).
    now exists theta.
  - intros lines uR uF.
    assert (E : for_each (lr.mapper_lr real_of_literal) lines (init 1 true)
                = (inr tt, uR)) by reflexivity.
    destruct (@sample_damped _ _ _ _ E) as (D & Sy & PD & _).
    assert (N : ~ pos_def 2 (x_t_x uR)).
    { intros (_ & _ & Q).
      specialize (Q [1; -2]%R eq_refl ltac:(intros [= E1]; lra)).
      unfold quad in Q; simpl in Q; rsimp; lra. }
    split; [reflexivity|].
    split; [vm_compute; eexists; reflexivity|].
    split; [exact N|].
    split; [|exact PD].
    rewrite main_by_map_task, E.
    now apply (@cholesky_solve_not_pos_def 2).
Qed.

Section RealSamples.
Local Open Scope R_scope.

(** the statistic of the records [1,0] and [3,1] ([y = 1 + 2 x]) with one
    feature and a bias *)
Lemma sample_pos_def : pos_def 2 [[1; 1]; [1; 2]].
Proof.
  split; [split; [reflexivity|repeat constructor]|].
  split; [reflexivity|].
  intros [|x [|y [|? ?]]] Hl Hv; try discriminate.
  unfold quad; simpl; rsimp.
  assert (Hxy : x <> 0 \/ y <> 0).
  { destruct (Req_dec x 0) as [->|]; auto.
    destruct (Req_dec y 0) as [->|]; auto. }
  assert (0 <= (x + y) * (x + y)) by apply Rle_0_sqr.
  destruct Hxy as [H0|H0]; apply Rsqr_pos_lt in H0; unfold Rsqr in H0; nra.
Qed.

Lemma sample_statistic :
  for_each (lr.mapper_lr real_of_literal) ["1,0"; "3,1"]%string (init 1 true)
  = (inr tt, mkLR 1 true [[0 + 0 * 0 + 1 * 1; 0 + 0 * 1 + 1 * 1];
                          [0 + 1 * 0 + 1 * 1; 0 + 1 * 1 + 1 * 1]]
                         [0 + 1 * 0 + 3 * 1; 0 + 1 * 1 + 3 * 1] 2).
Proof. reflexivity. Qed.

(** C2, on that statistic *)
Lemma damping_before_factorisation_witness :
  (forall i j, (i < 2)%nat -> (j < 2)%nat ->
     nth j (nth i (damped [[1; 1]; [1; 2]] (/ 10000000000)) []) 0
     = nth j (nth i [[1; 1]; [1; 2]] []) 0
       + (if (i =? j)%nat then / 10000000000 else 0)) /\
  lr.cholesky_solution_linear_regression [[1; 1]; [1; 2]] [3; 4] (/ 10000000000)
  = (cholesky_solve (damped [[1; 1]; [1; 2]] (/ 10000000000)) [3; 4],
     damped [[1; 1]; [1; 2]] (/ 10000000000)) /\
  lr.reducer_lr (init 1 true) []
  = (let '(A', b', _) := lr.reducer_sums (init 1 true) [] in
     cholesky_solve (damped A' (/ 10000000000)) b') /\
  lr_norm.cholesky_solution_linear_regression (mkLR 1 true [[1; 1]; [1; 2]] [3; 4] 2)
  = (cholesky_solve [[1; 1]; [1; 2]] [3; 4], mkLR 1 true [[1; 1]; [1; 2]] [3; 4] 2).
Proof.
  apply (@damping_before_factorisation 2 [[1; 1]; [1; 2]] [3; 4] (/ 10000000000)
           (mkLR 1 true [[1; 1]; [1; 2]] [3; 4] 2) []).
  split; [reflexivity|repeat constructor].
Defined.

(** C4, on that statistic: both solvers succeed; the file reader returns
    the coefficient of the feature, 2, and then that of the bias, 1 *)
Lemma solve_by_cholesky_witness :
  (exists theta,
     lr.cholesky_solution_linear_regression [[1; 1]; [1; 2]] [3; 4] (/ 10000000000)
     = (inr theta, damped [[1; 1]; [1; 2]] (/ 10000000000)) /\
     mvmul (damped [[1; 1]; [1; 2]] (/ 10000000000)) theta = [3; 4]) /\
  lr_norm.cholesky_solution_linear_regression (mkLR 1 true [[1; 1]; [1; 2]] [3; 4] 2)
  = (inr [2; 1], mkLR 1 true [[1; 1]; [1; 2]] [3; 4] 2).
Proof.
  destruct (@solve_by_cholesky 2 [[1; 1]; [1; 2]] [3; 4] (/ 10000000000)
              (mkLR 1 true [[1; 1]; [1; 2]] [3; 4] 2))
    as [H1 H2].
  - split; [reflexivity|repeat constructor].
  - reflexivity.
  - split.
    + destruct H1 as (L & z & t & H); [apply pos_def_damped; [apply sample_pos_def|lra]|].
      exists t; split; apply H.
    + destruct H2 as (L & z & t & H); [reflexivity|reflexivity|apply sample_pos_def|].
      destruct H as (_ & _ & _ & _ & _ & _ & _ & _ & _ & _ & _ & E & Hl & Ht).
      rewrite E; do 2 f_equal.
      destruct t as [|t1 [|t2 [|? ?]]]; try discriminate.
      simpl in Ht; rsimp; injection Ht as E1 E2.
      f_equal; [lra|f_equal; lra].
Defined.

(** C5, with [regularization] set to zero on the statistic of no record,
    one feature, no bias: both solvers raise *)
Lemma not_positive_definite_is_an_error_witness :
  lr.cholesky_solution_linear_regression [[0]] [0] 0
  = (inl LinAlgError_NotPositiveDefinite, damped [[0]] 0) /\
  lr_norm.cholesky_solution_linear_regression (init (T := R) 1 false)
  = (inl LinAlgError_NotPositiveDefinite, init 1 false).
Proof.
  destruct (@not_positive_definite_is_an_error 1 [[0]] [0] 0 (init 1 false))
    as (H1 & _ & H2).
  - split; [reflexivity|repeat constructor].
  - reflexivity.
  - reflexivity.
  - assert (N : forall m, m = 0 -> ~ pos_def 1 [[m]]).
    { intros m -> (_ & _ & PD).
      specialize (PD [1] eq_refl ltac:(intros [= E]; lra)).
      unfold quad in PD; simpl in PD; rsimp; lra. }
    split.
    + apply H1; rewrite damped_1x1; apply N; lra.
    + apply (proj1 (H2 eq_refl eq_refl)), N; reflexivity.
Defined.

(** C6, on three statistics of two by two matrices *)
Lemma merge_associative_commutative_witness :
  let a : statistic := ([[1; 1]; [1; 2]], [3; 4], 2%Z) in
  let b : statistic := ([[4; 2]; [2; 1]], [6; 3], 1%Z) in
  let c : statistic := ([[0; 0]; [0; 1]], [0; 5], 1%Z) in
  merge (merge a b) c = merge a (merge b c) /\
  merge a (merge b c) = merge (merge b a) c /\
  merge a b = ([[1 + 4; 1 + 2]; [1 + 2; 2 + 1]], [3 + 6; 4 + 3], 3%Z) /\
  lr.reducer_sums (init 1 true) (concat (map values_of [c; a; b]))
  = lr.reducer_sums (init 1 true) (concat (map values_of [a; b; c])).
Proof.
  intros a b c.
  assert (S : forall (A : matrix R) (v : vector R) (k : Z),
             dims 2 2 A -> length v = 2%nat -> @shaped R 2 (A, v, k))
    by (intros A v k D Hv; split; assumption).
  assert (D : forall x y z t : R, dims 2 2 [[x; y]; [z; t]])
    by (intros; split; [reflexivity|repeat constructor]).
  destruct (@merge_associative_commutative 2 a b c)
    as (_ & H1 & H2 & H3 & _); try (apply S; [apply D|reflexivity]).
  split; [exact H1|].
  split; [exact H2|].
  split; [reflexivity|].
  apply (H3 (init 1 true) [a; b; c] [c; a; b] eq_refl).
  - repeat constructor; apply D.
  - apply Permutation_sym, (Permutation_cons_append [a; b] c).
Defined.

(** C7, on that statistic *)
Lemma zero_statistic_is_identity_witness :
  lr.reducer_sums (init (T := R) 1 true) [] = zero_statistic 2 /\
  lr.map_task real_of_literal 1 true [] = inr (values_of (zero_statistic 2)) /\
  merge ([[1; 1]; [1; 2]], [3; 4], 2%Z) (zero_statistic 2)
  = ([[1; 1]; [1; 2]], [3; 4], 2%Z) /\
  merge (zero_statistic 2) ([[1; 1]; [1; 2]], [3; 4], 2%Z)
  = ([[1; 1]; [1; 2]], [3; 4], 2%Z).
Proof.
  apply (@zero_statistic_is_identity real_of_literal 1 true
           ([[1; 1]; [1; 2]], [3; 4], 2%Z)).
  split; [split; [reflexivity|repeat constructor]|reflexivity].
Defined.

End RealSamples.

(** * Further properties of the program *)

(** ** Reading and accumulating, for any scalars *)

Section Accumulation.
Context {T : Type} `{Scalar T}.
Variable py_float : string -> option T.

Lemma for_each_app {St X} (body : X -> M St unit) (l1 l2 : list X) (s : St) :
  for_each body (l1 ++ l2) s
  = match for_each body l1 s with
    | (inr _, s') => for_each body l2 s'
    | (inl e, s') => (inl e, s')
    end.
Proof.
  revert s; induction l1 as [|x l1 IH]; intros s; [reflexivity|].
  simpl; unfold bind; destruct (body x s) as [[e|[]] s1]; auto.
Qed.

Lemma split_comma_length (s : string) : length (split_comma s) = S (commas s).
Proof.
  induction s as [|c s IH]; simpl; auto.
  destruct (Ascii.eqb c ","); simpl; [now rewrite IH|].
  destruct (split_comma s); [discriminate|exact IH].
Qed.

Lemma floats_of_inr_iff (tokens : list string) :
  (exists data, floats_of py_float tokens = inr data) <->
  Forall (fun tok => py_float tok <> None) tokens.
Proof.
  induction tokens as [|e tokens IH]; simpl.
  - split; eauto.
  - destruct (py_float e) as [v|] eqn:E.
    + destruct (floats_of py_float tokens) as [err|vs].
      * split; [intros [data D]; discriminate|].
        intros F; inversion F; subst.
        destruct (proj2 IH) as [data D]; auto; discriminate.
      * split; eauto; intros _; constructor; [congruence|].
        apply IH; eauto.
    + split; [intros [data D]; discriminate|].
      intros F; inversion F; subst; congruence.
Qed.

(** the lines that [extract_variables] reads: every field is a number; the
    features are as many as the commas *)
Lemma extract_variables_inr_iff (line : string) :
  (exists r, extract_variables py_float line = inr r) <->
  Forall (fun tok => py_float tok <> None) (split_comma (strip line)).
Proof.
  rewrite <- floats_of_inr_iff; unfold extract_variables.
  destruct (floats_of py_float _) as [e|[|y features]] eqn:E.
  - split; intros [r D]; discriminate.
  - apply floats_of_length in E; rewrite split_comma_length in E; discriminate.
  - split; eauto.
Qed.

Lemma extract_variables_features (line : string) (y : T) (features : list T) :
  extract_variables py_float line = inr (y, features) ->
  length features = commas (strip line).
Proof.
  unfold extract_variables.
  destruct (floats_of py_float _) as [e|[|y' features']] eqn:E; try discriminate.
  intros [= <- <-].
  apply floats_of_length in E; rewrite split_comma_length in E.
  simpl in E; lia.
Qed.

(** **** X1.  [mapper_lr] and [process_line] accept a line exactly when
    every comma-separated field of the stripped line is a number for [float]
    and the line has [DIMENSION] commas. *)
Theorem accumulate_accepts_iff (line : string) (self : LR T) :
  ((exists self', lr.mapper_lr py_float line self = (inr tt, self')) <->
   Forall (fun tok => py_float tok <> None) (split_comma (strip line)) /\
   commas (strip line) = DIMENSION self) /\
  ((exists self', lr_norm.process_line py_float line self = (inr tt, self')) <->
   Forall (fun tok => py_float tok <> None) (split_comma (strip line)) /\
   commas (strip line) = DIMENSION self).
Proof.
  assert (G : forall body,
    body = match extract_variables py_float line with
           | inl e => (inl e, self)
           | inr (y, features) =>
               if length features =? DIMENSION self
               then (inr tt, accumulated self y (effective (BIAS self) features))
               else (inl (DimensionMismatchError (DIMENSION self)
                            (length features)), self)
           end \/
    body = match extract_variables py_float line with
           | inl e => (inl e, self)
           | inr (y, features) =>
               if length features =? DIMENSION self
               then (inr tt, accumulated self y (effective (BIAS self) features))
               else (inl (as_lr_norm (DimensionMismatchError (DIMENSION self)
                                        (length features))), self)
           end ->
    ((exists self', body = (inr tt, self')) <->
     Forall (fun tok => py_float tok <> None) (split_comma (strip line)) /\
     commas (strip line) = DIMENSION self)).
  { intros body Hb.
    rewrite <- extract_variables_inr_iff.
    destruct (extract_variables py_float line) as [e|[y features]] eqn:E.
    - split; [intros [s' D]; destruct Hb; congruence|].
      intros [[r D] _]; discriminate.
    - pose proof (extract_variables_features _ E) as Hc; rewrite <- Hc.
      destruct (length features =? DIMENSION self) eqn:El.
      + apply Nat.eqb_eq in El; split; eauto.
        intros _; destruct Hb as [-> | ->]; eauto.
      + apply Nat.eqb_neq in El; split; [|tauto].
        intros [s' D]; destruct Hb; congruence. }
  split; apply G; [left; apply mapper_lr_eq | right; apply process_line_eq].
Qed.

Lemma lstrip_blank (s : string) : blank s = true -> lstrip s = EmptyString.
Proof.
  induction s as [|c s IH]; simpl; auto.
  destruct (is_space c); simpl; [auto|discriminate].
Qed.

(** **** X2.  A line of white space only (an empty line of the file) is not
    skipped: [float] is called on the empty string, and when it rejects it,
    as Python's does, the accumulator raises that [ValueError] and changes
    nothing. *)
Theorem blank_line_is_rejected (line : string) (self : LR T) :
  blank line = true -> py_float EmptyString = None ->
  lr.mapper_lr py_float line self = (inl (FloatValueError EmptyString), self) /\
  lr_norm.process_line py_float line self
  = (inl (FloatValueError EmptyString), self).
Proof.
  intros B E.
  rewrite mapper_lr_eq, process_line_eq; unfold extract_variables, strip.
  rewrite (lstrip_blank _ B); simpl; rewrite E; auto.
Qed.

(** what [mapper_lr] does to [counts] *)
Lemma mapper_lr_counts (line : string) (self self' : LR T) :
  lr.mapper_lr py_float line self = (inr tt, self') ->
  counts self' = (counts self + 1)%Z.
Proof.
  rewrite mapper_lr_eq.
  destruct (extract_variables py_float line) as [e|[y features]]; [discriminate|].
  destruct (length features =? DIMENSION self); [|discriminate].
  now intros [= <-].
Qed.

(** **** X3.  When the loop over the lines gets through, [counts] has grown
    by the number of lines, in both programs. *)
Theorem counts_counts_the_lines (lines : list string) (self self' : LR T) :
  for_each (lr.mapper_lr py_float) lines self = (inr tt, self') \/
  for_each (lr_norm.process_line py_float) lines self = (inr tt, self') ->
  counts self' = (counts self + Z.of_nat (length lines))%Z.
Proof.
  intros E.
  assert (E' : for_each (lr.mapper_lr py_float) lines self = (inr tt, self')).
  { destruct E as [E|E]; auto.
    rewrite for_each_process_line in E.
    destruct (for_each (lr.mapper_lr py_float) lines self) as [[e|[]] s];
      simpl in E; congruence. }
  clear E; revert self E'; induction lines as [|line lines IH]; intros self E.
  - injection E as <-; simpl; lia.
  - simpl in E; unfold bind in E.
    destruct (lr.mapper_lr py_float line self) as [[e|[]] s1] eqn:E1;
      [discriminate|].
    rewrite (IH _ E), (mapper_lr_counts _ _ E1).
    simpl length; lia.
Qed.

(** **** X4.  When the loop over the lines raises, it has stopped at the
    first line that the accumulator rejects: the lines after it were not
    read, and the object holds the statistic of the lines before it, whose
    number is what [counts] has grown by. *)
Theorem loop_stops_at_first_rejected_line (lines : list string)
    (self self' : LR T) (e : exn) :
  for_each (lr.mapper_lr py_float) lines self = (inl e, self') ->
  exists good bad rest,
    lines = good ++ bad :: rest /\
    for_each (lr.mapper_lr py_float) good self = (inr tt, self') /\
    lr.mapper_lr py_float bad self' = (inl e, self') /\
    for_each (lr_norm.process_line py_float) lines self
    = (inl (as_lr_norm e), self') /\
    counts self' = (counts self + Z.of_nat (length good))%Z.
Proof.
  revert self; induction lines as [|line lines IH]; intros self E;
    [discriminate|].
  rewrite for_each_process_line.
  simpl in E |- *; unfold bind in E |- *.
  destruct (lr.mapper_lr py_float line self) as [[e1|[]] s1] eqn:E1.
  - injection E as <- <-.
    assert (s1 = self)
      by (apply (@raise_changes_nothing _ _ py_float line self s1 e1); auto).
    subst s1.
    exists [], line, lines; simpl; repeat split; auto; lia.
  - destruct (IH _ E) as (good & bad & rest & -> & Eg & Eb & _ & Ec).
    exists (line :: good), bad, rest; simpl; unfold bind.
    rewrite E1, Eg, E, Ec, (mapper_lr_counts _ _ E1).
    repeat split; auto; lia.
Qed.

(** **** X5.  The coefficients that [reducer_lr] returns do not depend on
    the [("counts", c)] values it receives: the observations are summed and
    never used. *)
Theorem reducer_ignores_counts (self : LR T) (values : list lr.value) :
  lr.reducer_lr self values
  = lr.reducer_lr self (filter (fun v => negb (is_counts v)) values).
Proof.
  unfold lr.reducer_lr, lr.reducer_sums.
  set (z := (mzeros _ _, zeros _, 0%Z)).
  assert (G : forall acc1 acc2 : matrix T * vector T * Z,
             fst acc1 = fst acc2 ->
             fst (fold_left lr.reducer_step values acc1)
             = fst (fold_left lr.reducer_step
                      (filter (fun v => negb (is_counts v)) values) acc2)).
  { induction values as [|v values IH]; intros acc1 acc2 E; auto.
    destruct acc1 as [[A1 b1] c1], acc2 as [[A2 b2] c2]; simpl in E.
    injection E as -> ->.
    destruct v; simpl; apply IH; reflexivity. }
  specialize (G z z eq_refl).
  destruct (fold_left lr.reducer_step values z) as [[A1 b1] c1].
  destruct (fold_left lr.reducer_step _ z) as [[A2 b2] c2].
  simpl in G; now injection G as -> ->.
Qed.

(** **** X6.  [run] does not start from a fresh statistic: on an object
    that has read the lines [l1] (whether its solve then raised or not),
    [run] on the lines [l2] is [run] on [l1] followed by [l2]. *)
Theorem run_accumulates_across_calls (l1 l2 : list string) (self : LR T) :
  fst (for_each (lr_norm.process_line py_float) l1 self) = inr tt ->
  lr_norm.run py_float l2 (snd (lr_norm.run py_float l1 self))
  = lr_norm.run py_float (l1 ++ l2) self.
Proof.
  unfold lr_norm.run, bind; intros E.
  rewrite for_each_app.
  destruct (for_each (lr_norm.process_line py_float) l1 self) as [[e|[]] s1];
    [discriminate|].
  now rewrite lr_norm_solve_eq.
Qed.

End Accumulation.

(** ** Accumulating and merging, over the real numbers *)

Section RealAccumulation.
Local Open Scope R_scope.
Local Abbreviation vec := (vector R).
Local Abbreviation mat := (matrix R).
Variable py_float : string -> option R.

Lemma accumulated_swap (self : LR R) (y y' : R) (x x' : vec) :
  accumulated (accumulated self y x) y' x'
  = accumulated (accumulated self y' x') y x.
Proof.
  unfold accumulated; simpl; f_equal.
  - now rewrite !madd_assoc, (madd_comm (outer x x)).
  - now rewrite !vadd_assoc, (vadd_comm (scale y x)).
Qed.

Lemma mapper_lr_swap (l1 l2 : string) (self s : LR R) :
  (lr.mapper_lr py_float l1 ;; lr.mapper_lr py_float l2)%monad self = (inr tt, s) ->
  (lr.mapper_lr py_float l2 ;; lr.mapper_lr py_float l1)%monad self = (inr tt, s).
Proof.
  unfold bind.
  rewrite (mapper_lr_eq py_float l1 self), (mapper_lr_eq py_float l2 self).
  destruct (extract_variables py_float l1) as [e1|[y1 f1]] eqn:X1; [discriminate|].
  destruct (length f1 =? DIMENSION self) eqn:E1; [|discriminate].
  rewrite mapper_lr_eq.
  destruct (extract_variables py_float l2) as [e2|[y2 f2]] eqn:X2; [discriminate|].
  cbn [DIMENSION BIAS accumulated].
  destruct (length f2 =? DIMENSION self) eqn:E2; [|discriminate].
  rewrite mapper_lr_eq, X1; cbn [DIMENSION BIAS accumulated]; rewrite E1.
  intros [= <-]; f_equal; apply accumulated_swap.
Qed.

Lemma for_each_mapper_lr_Permutation (lines lines' : list string) :
  Permutation lines lines' ->
  forall self s : LR R,
    for_each (lr.mapper_lr py_float) lines self = (inr tt, s) ->
    for_each (lr.mapper_lr py_float) lines' self = (inr tt, s).
Proof.
  induction 1 as [|l ls ls' _ IH|l1 l2 ls|ls1 ls2 ls3 _ IH1 _ IH2];
    intros self s E; auto.
  - simpl in E |- *; unfold bind in E |- *.
    destruct (lr.mapper_lr py_float l self) as [[e|[]] s1]; [discriminate|auto].
  - pose proof (mapper_lr_swap l2 l1 self) as SW.
    simpl in E |- *; unfold bind in E, SW |- *.
    destruct (lr.mapper_lr py_float l2 self) as [[e|[]] s2]; [discriminate|].
    destruct (lr.mapper_lr py_float l1 s2) as [[e|[]] s12]; [discriminate|].
    specialize (SW s12 eq_refl).
    destruct (lr.mapper_lr py_float l1 self) as [[e|[]] s1]; [discriminate|].
    destruct (lr.mapper_lr py_float l2 s1) as [[e|[]] s21]; [discriminate|].
    now injection SW as ->.
Qed.

(** **** X7.  The order of the lines of a partition does not matter: when
    the loop gets through the lines, it gets through them in any other
    order, to the very same object; so the job on that partition and the
    file reader return what they returned. *)
Theorem line_order_does_not_matter (d : nat) (bias : bool)
    (lines lines' : list string) (self : LR R) :
  Permutation lines lines' ->
  for_each (lr.mapper_lr py_float) lines (init d bias) = (inr tt, self) ->
  for_each (lr.mapper_lr py_float) lines' (init d bias) = (inr tt, self) /\
  for_each (lr_norm.process_line py_float) lines' (init d bias) = (inr tt, self) /\
  lr.job py_float d bias [lines'] = lr.job py_float d bias [lines] /\
  lr_norm.main py_float d bias lines' = lr_norm.main py_float d bias lines.
Proof.
  intros P E.
  pose proof (for_each_mapper_lr_Permutation P _ E) as E'.
  rewrite !job_one_partition, !main_by_map_task, for_each_process_line, E, E'.
  auto.
Qed.

(** **** X8.  Whatever the lines, and whether the loop gets through them or
    raises, the object is left with a square symmetric positive
    semi-definite [x_t_x] of size [n = DIMENSION + int(BIAS)], an [x_t_y] of
    length [n], and the dimension and bias flag it was made with. *)
Theorem statistic_invariant (d : nat) (bias : bool) (lines : list string)
    (r : exn + unit) (self : LR R) :
  for_each (lr.mapper_lr py_float) lines (init d bias) = (r, self) \/
  for_each (lr_norm.process_line py_float) lines (init d bias) = (r, self) ->
  dims (d + int bias) (d + int bias) (x_t_x self) /\
  transpose (x_t_x self) = x_t_x self /\
  length (x_t_y self) = (d + int bias)%nat /\
  (forall v, length v = (d + int bias)%nat -> 0 <= quad (x_t_x self) v) /\
  DIMENSION self = d /\ BIAS self = bias.
Proof.
  intros E.
  assert (E' : exists r', for_each (lr.mapper_lr py_float) lines (init d bias)
                          = (r', self)).
  { destruct E as [E|E]; eauto.
    rewrite for_each_process_line in E.
    destruct (for_each (lr.mapper_lr py_float) lines (init d bias))
      as [[e|[]] s]; simpl in E; injection E as _ <-; eauto. }
  destruct E' as [r' E'].
  destruct (for_each_mapper_lr_well_formed _ _ (init_well_formed d bias) E')
    as ((S & Hy & PSD) & HD & HB); simpl in HD, HB.
  rewrite HD, HB in S, Hy, PSD.
  repeat split; auto; try apply (sym_border_dims S).
  now apply (@sym_border_symmetric (d + int bias)).
Qed.

End RealAccumulation.

(** ** Partitions *)

Section Partitions.
Local Open Scope R_scope.
Local Abbreviation vec := (vector R).
Local Abbreviation mat := (matrix R).
Variable py_float : string -> option R.

Lemma statistic_of_accumulated (self : LR R) (y : R) (x : vec) :
  statistic_of (accumulated self y x)
  = merge (statistic_of self) (outer x x, scale y x, 1%Z).
Proof. reflexivity. Qed.

Lemma merge_shaped n (a b : @statistic R) :
  shaped n a -> shaped n b -> shaped n (merge a b).
Proof.
  rewrite merge_eq_spec; destruct a as [[A u] c], b as [[B v] d0].
  intros [DA Hu] [DB Hv]; split; [now apply madd_dims|now apply vadd_length].
Qed.

(** the loop from an object [s], against the loop from an object [u] of the
    same configuration: the same outcome, and the same statistic added *)
Lemma for_each_mapper_lr_from (lines : list string) :
  forall (s u : LR R) (base : @statistic R),
    DIMENSION s = DIMENSION u -> BIAS s = BIAS u ->
    statistic_of s = merge base (statistic_of u) ->
    match for_each (lr.mapper_lr py_float) lines u with
    | (inl e, _) => exists s', for_each (lr.mapper_lr py_float) lines s = (inl e, s')
    | (inr _, u') =>
        exists s', for_each (lr.mapper_lr py_float) lines s = (inr tt, s') /\
                   statistic_of s' = merge base (statistic_of u')
    end.
Proof.
  induction lines as [|line lines IH]; intros s u base HD HB E.
  - simpl; exists s; auto.
  - simpl; unfold bind; rewrite !mapper_lr_eq, HD, HB.
    destruct (extract_variables py_float line) as [e|[y f]]; [eauto|].
    destruct (length f =? DIMENSION u); [|eauto].
    apply IH; auto.
    now rewrite !statistic_of_accumulated, E, merge_assoc.
Qed.

(** the map tasks of the partitions, against one loop over all the lines *)
Lemma map_phase_concat (d : nat) (bias : bool) (partitions : list (list string)) :
  match for_each (lr.mapper_lr py_float) (concat partitions) (init d bias) with
  | (inl e, _) => lr.map_phase py_float d bias partitions = inl e
  | (inr _, t) =>
      exists values,
        lr.map_phase py_float d bias partitions = inr values /\
        forall acc, shaped (d + int bias) acc ->
                    fold_left lr.reducer_step values acc
                    = merge acc (statistic_of t)
  end.
Proof.
  induction partitions as [|p ps IH].
  - simpl; exists []; split; auto.
    intros acc Sh; simpl.
    symmetry; apply (@merge_zero_r _ _ Sh).
  - cbn [concat lr.map_phase]; unfold lr.map_task.
    rewrite for_each_app.
    destruct (for_each (lr.mapper_lr py_float) p (init d bias))
      as [[e|[]] t1] eqn:E1; [reflexivity|].
    destruct (for_each_mapper_lr_well_formed _ _ (init_well_formed d bias) E1)
      as (W1 & HD1 & HB1); simpl in HD1, HB1.
    assert (Sh1 := well_formed_shaped W1); rewrite HD1, HB1 in Sh1.
    pose proof (@for_each_mapper_lr_from (concat ps) t1 (init d bias)
                  (statistic_of t1) HD1 HB1
                  (eq_sym (@merge_zero_r _ _ Sh1))) as F.
    destruct (for_each (lr.mapper_lr py_float) (concat ps) (init d bias))
      as [[e|[]] u] eqn:E2.
    + destruct F as [s' ->]; now rewrite IH.
    + destruct F as (s' & -> & Es'), IH as (values & -> & Ev).
      exists (lr.mapper_lr_final t1 ++ values); split; auto.
      intros acc Sh.
      rewrite fold_left_app, mapper_lr_final_values.
      change (fold_left lr.reducer_step (values_of (statistic_of t1)) acc)
        with (merge acc (statistic_of t1)).
      rewrite Ev by (now apply merge_shaped).
      now rewrite Es', merge_assoc.
Qed.

(** the job, by the outcome of one loop over all the lines *)
Lemma job_by_all_lines (d : nat) (bias : bool) (partitions : list (list string)) :
  lr.job py_float d bias partitions
  = match for_each (lr.mapper_lr py_float) (concat partitions) (init d bias) with
    | (inl e, _) => inl e
    | (inr _, t) => cholesky_solve (damped (x_t_x t) (/ 10000000000)) (x_t_y t)
    end.
Proof.
  unfold lr.job.
  pose proof (map_phase_concat d bias partitions) as MP.
  destruct (for_each (lr.mapper_lr py_float) (concat partitions) (init d bias))
    as [[e|[]] t] eqn:E; [now rewrite MP|].
  destruct MP as (values & -> & Ev).
  destruct (for_each_mapper_lr_well_formed _ _ (init_well_formed d bias) E)
    as (W & HD & HB); simpl in HD, HB.
  assert (Sh := well_formed_shaped W); rewrite HD, HB in Sh.
  unfold lr.reducer_lr, lr.reducer_sums; cbn [DIMENSION BIAS init].
  change (mzeros (d + int bias) (d + int bias), zeros (d + int bias), 0%Z)
    with (@zero_statistic R _ (d + int bias)).
  rewrite Ev, (@merge_zero_l _ _ Sh)
    by (split; [apply mzeros_dims|apply zeros_length]).
  unfold statistic_of; now rewrite lr_solve_eq.
Qed.

(** **** X9.  However the lines are split into partitions, the job returns
    what it returns on the one partition of all the lines: the same
    coefficients, or the exception of the first rejected line. *)
Theorem partition_invariance (d : nat) (bias : bool)
    (partitions : list (list string)) :
  lr.job py_float d bias partitions
  = lr.job py_float d bias [concat partitions].
Proof.
  rewrite (job_by_all_lines d bias partitions),
    (job_by_all_lines d bias [concat partitions]).
  cbn [concat]; now rewrite app_nil_r.
Qed.

(** **** X10.  The job raises only what a map task raises: when every line
    is accepted, the reducer's solve succeeds and returns coefficients
    [theta], one per feature and one for the bias, that solve the damped
    normal equations [(x_t_x + 1e-10 I) theta = x_t_y] of the statistic of
    all the lines. *)
Theorem job_returns_damped_solution (d : nat) (bias : bool)
    (partitions : list (list string)) (t : LR R) :
  for_each (lr.mapper_lr py_float) (concat partitions) (init d bias)
  = (inr tt, t) ->
  exists theta,
    lr.job py_float d bias partitions = inr theta /\
    length theta = (d + int bias)%nat /\
    mvmul (damped (x_t_x t) (/ 10000000000)) theta = x_t_y t.
Proof.
  intros E; rewrite job_by_all_lines, E.
  destruct (for_each_mapper_lr_well_formed _ _ (init_well_formed d bias) E)
    as (W & HD & HB); simpl in HD, HB.
  assert (PD := @damped_pos_def t (/ 10000000000) W ltac:(lra)).
  destruct W as (_ & Hy & _); rewrite HD, HB in PD, Hy.
  now apply cholesky_solve_pos_def.
Qed.

End Partitions.

(** ** What the coefficients are *)

Section LeastSquares.
Local Open Scope R_scope.
Local Abbreviation vec := (vector R).
Local Abbreviation mat := (matrix R).
Variable py_float : string -> option R.

(** the three steps succeed only on a positive definite matrix, and then
    with a solution of the system *)
Lemma cholesky_solve_sound n (M : mat) (b theta : vec) :
  dims n n M -> transpose M = M -> length b = n ->
  cholesky_solve M b = inr theta ->
  mvmul M theta = b /\ length theta = n /\ pos_def n M.
Proof.
  intros D E Hb C.
  assert (PD : pos_def n M).
  { split; [auto|split; auto].
    unfold cholesky_solve, np_linalg_cholesky in C.
    destruct D as [Hl HF]; rewrite Hl in C.
    destruct (cholesky_rec n M) as [L|] eqn:EL; [|discriminate].
    apply (@cholesky_rec_pos_def n M L); auto.
    apply symmetric_border; auto; split; auto. }
  destruct (cholesky_solve_pos_def b PD Hb) as (t & Et & Hl & Em).
  rewrite C in Et; injection Et as <-; auto.
Qed.

Lemma dot_mvmul_symmetric n (A : mat) (u v : vec) :
  dims n n A -> transpose A = A -> length u = n -> length v = n ->
  dot (mvmul A v) u = dot v (mvmul A u).
Proof.
  intros D E Hu Hv.
  rewrite (@dot_mvmul_transpose n n A v u D Hv Hu).
  now rewrite <- (transpose_square D), E.
Qed.

Lemma quad_vsub n (A : mat) (u v : vec) :
  dims n n A -> transpose A = A -> length u = n -> length v = n ->
  quad A (vsub u v) = quad A u - 2 * dot (mvmul A v) u + quad A v.
Proof.
  intros D E Hu Hv; unfold quad.
  rewrite mvmul_vsub, dot_vsub_l, !dot_vsub_r
    by (rewrite ?mvmul_length; congruence).
  rewrite (dot_comm u (mvmul A v)).
  rewrite <- (dot_mvmul_symmetric u v D E Hu Hv).
  ring.
Qed.

(** the lines that are read as records get through the loop, and move the
    objective [theta^T x_t_x theta - 2 x_t_y . theta] by the sum of the
    squared errors *)
Lemma reads_objective (d : nat) (bias : bool) (lines : list string)
    (records : list (R * vec)) :
  reads py_float d lines records ->
  forall s : LR R,
    well_formed s -> DIMENSION s = d -> BIAS s = bias ->
    exists s',
      for_each (lr.mapper_lr py_float) lines s = (inr tt, s') /\
      forall theta theta',
        length theta = (d + int bias)%nat ->
        length theta' = (d + int bias)%nat ->
        (quad (x_t_x s') theta' - 2 * dot (x_t_y s') theta')
        - (quad (x_t_x s') theta - 2 * dot (x_t_y s') theta)
        = (quad (x_t_x s) theta' - 2 * dot (x_t_y s) theta')
          - (quad (x_t_x s) theta - 2 * dot (x_t_y s) theta)
          + (rss bias records theta' - rss bias records theta).
Proof.
  induction 1 as [|line [y f] lines records [E Hf] _ IH]; intros s W HD HB.
  - exists s; split; [reflexivity|]; intros; simpl; ring.
  - simpl in Hf.
    assert (W1 : well_formed (accumulated s y (effective (BIAS s) f)))
      by (apply accumulated_well_formed; auto; congruence).
    destruct (IH _ W1 HD HB) as (s' & Es' & Q).
    exists s'; split.
    + simpl; unfold bind; rewrite mapper_lr_eq, E, Hf, <- HD, Nat.eqb_refl.
      exact Es'.
    + intros theta theta' Ht Ht'.
      rewrite (Q theta theta' Ht Ht').
      destruct W as (S & Hy & _); rewrite HD, HB in S, Hy.
      set (x := effective (BIAS s) f).
      assert (Hx : length x = (d + int bias)%nat)
        by (unfold x; rewrite effective_length; congruence).
      assert (Do : dims (d + int bias) (d + int bias) (outer x x))
        by (rewrite <- Hx; apply outer_dims).
      cbn [accumulated x_t_x x_t_y rss].
      rewrite !(@quad_madd (d + int bias)) by auto using sym_border_dims.
      rewrite !quad_outer, !dot_vadd_l, !dot_scale_l
        by (rewrite scale_length; congruence).
      unfold residual; cbn [fst snd]; fold x; rewrite <- HB; fold x.
      ring.
Qed.

(** **** X11.  When the file reader returns coefficients, they are those of
    least squares: over the records read, no coefficients of the same
    length have a smaller sum of squared errors (the bias coefficient, when
    there is a bias, multiplying the constant 1.0 put last). *)
Theorem reader_returns_least_squares (d : nat) (bias : bool)
    (lines : list string) (records : list (R * vec)) (theta : vec) :
  reads py_float d lines records ->
  lr_norm.main py_float d bias lines = inr theta ->
  length theta = (d + int bias)%nat /\
  forall theta', length theta' = (d + int bias)%nat ->
                 rss bias records theta <= rss bias records theta'.
Proof.
  intros Rd Em.
  destruct (@reads_objective d bias _ records Rd (init d bias)
              (init_well_formed d bias) eq_refl eq_refl)
    as (t & Et & Q).
  rewrite main_by_map_task, Et in Em.
  destruct (for_each_mapper_lr_well_formed _ _ (init_well_formed d bias) Et)
    as ((S & Hy & PSD) & HD & HB); simpl in HD, HB.
  rewrite HD, HB in S, Hy, PSD.
  assert (D := sym_border_dims S).
  assert (Sy := sym_border_symmetric S).
  destruct (@cholesky_solve_sound _ _ _ _ D Sy Hy Em) as (Eq & Hl & _).
  split; auto; intros theta' Hl'.
  specialize (Q theta theta' Hl Hl').
  cbn [init x_t_x x_t_y] in Q.
  rewrite !quad_mzeros, !dot_zeros_l in Q.
  pose proof (PSD (vsub theta' theta) (vsub_length _ _ Hl' Hl)) as P.
  rewrite (@quad_vsub _ _ theta' theta D Sy Hl' Hl), Eq in P.
  assert (Eb : dot (x_t_y t) theta = quad (x_t_x t) theta)
    by (unfold quad; now rewrite Eq, dot_comm).
  lra.
Qed.

(** **** X12.  The coefficients of the job are those of least squares with
    the penalty [1e-10 |theta|^2]: over the records of all the partitions,
    no coefficients of the same length have a smaller sum of squared errors
    plus penalty. *)
Theorem job_returns_damped_least_squares (d : nat) (bias : bool)
    (partitions : list (list string)) (records : list (R * vec)) (theta : vec) :
  reads py_float d (concat partitions) records ->
  lr.job py_float d bias partitions = inr theta ->
  length theta = (d + int bias)%nat /\
  forall theta',
    length theta' = (d + int bias)%nat ->
    rss bias records theta + / 10000000000 * dot theta theta
    <= rss bias records theta' + / 10000000000 * dot theta' theta'.
Proof.
  intros Rd Ej.
  destruct (@reads_objective d bias _ records Rd (init d bias)
              (init_well_formed d bias) eq_refl eq_refl)
    as (t & Et & Q).
  rewrite job_by_all_lines, Et in Ej.
  destruct (for_each_mapper_lr_well_formed _ _ (init_well_formed d bias) Et)
    as (W & HD & HB); simpl in HD, HB.
  assert (PD := @damped_pos_def t (/ 10000000000) W ltac:(lra)).
  destruct W as (S & Hy & PSD).
  rewrite HD, HB in S, Hy, PSD, PD.
  assert (D := sym_border_dims S).
  destruct PD as (DD & SD & PD).
  destruct (@cholesky_solve_sound _ _ _ _ DD SD Hy Ej) as (Eq & Hl & _).
  split; auto; intros theta' Hl'.
  specialize (Q theta theta' Hl Hl').
  cbn [init x_t_x x_t_y] in Q.
  rewrite !quad_mzeros, !dot_zeros_l in Q.
  pose proof (@quad_vsub _ _ theta' theta DD SD Hl' Hl) as V; rewrite Eq in V.
  rewrite !(quad_damped (/ 10000000000) _ D) in V
    by (auto; now apply vsub_length).
  pose proof (PSD (vsub theta' theta) (vsub_length _ _ Hl' Hl)) as P.
  pose proof (dot_self_nonneg (vsub theta' theta)) as P2.
  assert (Eb : dot (x_t_y t) theta
               = quad (x_t_x t) theta + / 10000000000 * dot theta theta).
  { rewrite <- (quad_damped (/ 10000000000) theta D Hl).
    unfold quad; now rewrite Eq, dot_comm. }
  nra.
Qed.

End LeastSquares.

(** ** Empty input, repeated solves, and the messages of the exceptions *)

Section Edges.
Local Open Scope R_scope.
Local Abbreviation vec := (vector R).
Local Abbreviation mat := (matrix R).
Variable py_float : string -> option R.

Lemma pos_def_kernel n (M : mat) (theta : vec) :
  pos_def n M -> length theta = n -> mvmul M theta = zeros n ->
  theta = zeros n.
Proof.
  intros (_ & _ & PD) Hl E.
  destruct (vec_eq_dec theta (zeros n)) as [|N]; auto.
  specialize (PD theta Hl N); unfold quad in PD.
  rewrite E, dot_zeros_r in PD; lra.
Qed.

(** **** X13.  On no line at all the job returns the zero coefficients
    (its damped matrix is [1e-10 I]), from no partition as from an empty
    one; the file reader raises the not-positive-definite [LinAlgError] on
    an empty file, unless there is nothing to estimate ([n = 0]), when it
    returns the empty list. *)
Theorem empty_input (d : nat) (bias : bool) :
  lr.job py_float d bias [] = inr (zeros (d + int bias)) /\
  lr.job py_float d bias [[]] = inr (zeros (d + int bias)) /\
  ((d + int bias)%nat <> 0%nat ->
   lr_norm.main py_float d bias [] = inl LinAlgError_NotPositiveDefinite) /\
  ((d + int bias)%nat = 0%nat -> lr_norm.main py_float d bias [] = inr []).
Proof.
  assert (J : cholesky_solve (damped (mzeros (d + int bias) (d + int bias))
                                (/ 10000000000)) (zeros (d + int bias))
              = inr (zeros (d + int bias))).
  { assert (PD := @damped_pos_def (init d bias) (/ 10000000000)
                    (init_well_formed d bias) ltac:(lra)).
    cbn [init DIMENSION BIAS x_t_x] in PD.
    destruct (cholesky_solve_pos_def (zeros (d + int bias)) PD
                (zeros_length _)) as (t & -> & Hl & E).
    now rewrite (@pos_def_kernel _ _ t PD Hl E). }
  rewrite !job_by_all_lines, main_by_map_task; cbn [concat app for_each ret].
  cbn [init x_t_x x_t_y].
  repeat split; auto.
  - intros N.
    apply (@cholesky_solve_not_pos_def (d + int bias));
      [apply mzeros_dims
      |apply (@sym_border_symmetric (d + int bias)), sym_border_mzeros|].
    intros (_ & _ & PD).
    destruct (d + int bias)%nat as [|n]; [congruence|].
    specialize (PD (1 :: zeros n) ltac:(simpl; now rewrite zeros_length)
                  ltac:(intros [= E]; lra)).
    rewrite quad_mzeros in PD; lra.
  - intros ->; reflexivity.
Qed.

Lemma damped_damped n : forall (A : mat) (r1 r2 : R),
  dims n n A -> damped (damped A r1) r2 = damped A (r1 + r2).
Proof.
  induction n as [|n IH]; intros A r1 r2 D.
  - now rewrite (dims_0_inv D).
  - destruct (dims_S_inv D) as (a & r & c & B & -> & Hr & Hc & DB).
    rewrite !(@damped_border n a r c B) by auto.
    rewrite (@damped_border n (a + r1) r c (damped B r1))
      by (auto using damped_dims).
    rewrite (IH B r1 r2 DB); do 2 f_equal; ring.
Qed.

(** **** X14.  The solver of [lr.py] leaves the damped matrix in the array it
    was given, so that a second call on that array damps it once more: it
    returns, and leaves, what one call with the sum of the two
    regularizations returns and leaves on the matrix as it first was. *)
Theorem repeated_solve_adds_up_damping n (A : mat) (b b' : vec) (r1 r2 : R) :
  dims n n A ->
  lr.cholesky_solution_linear_regression
    (snd (lr.cholesky_solution_linear_regression A b r1)) b' r2
  = lr.cholesky_solution_linear_regression A b' (r1 + r2).
Proof.
  intros D; rewrite !lr_solve_eq; cbn [snd].
  now rewrite (@damped_damped n A r1 r2 D).
Qed.

End Edges.

Section Messages.

Lemma str_of_nat_inj (n m : nat) : str_of_nat n = str_of_nat m -> n = m.
Proof.
  unfold str_of_nat; intros E.
  assert (N : forall k, Nat.to_uint k <> Decimal.Nil).
  { intros k Ek; pose proof (DecimalNat.Unsigned.of_to k) as O.
    rewrite Ek in O; simpl in O; subst k; discriminate. }
  apply DecimalNat.Unsigned.to_uint_inj.
  pose proof (NilZero.usu _ (N n)) as U1.
  pose proof (NilZero.usu _ (N m)) as U2.
  rewrite E in U1; congruence.
Qed.

Lemma commas_str_of_nat (n : nat) : commas (str_of_nat n) = 0%nat.
Proof.
  unfold str_of_nat.
  assert (G : forall d, commas (NilEmpty.string_of_uint d) = 0%nat)
    by (induction d; simpl; auto).
  destruct (Nat.to_uint n); try apply G; reflexivity.
Qed.

Lemma append_cancel_l (p s s' : string) :
  (p ++ s)%string = (p ++ s')%string -> s = s'.
Proof. induction p as [|c p IH]; simpl; auto; intros [= E]; auto. Qed.

Lemma split_at_first_comma (s1 s1' r r' : string) :
  commas s1 = 0%nat -> commas s1' = 0%nat ->
  (s1 ++ String "," r)%string = (s1' ++ String "," r')%string ->
  s1 = s1' /\ r = r'.
Proof.
  revert s1'; induction s1 as [|c s1 IH]; intros [|c' s1'] C C' E;
    simpl in C, C', E.
  - injection E as ->; auto.
  - injection E as <- _; simpl in C'; discriminate.
  - injection E as -> _; simpl in C; discriminate.
  - injection E as -> E.
    destruct (Ascii.eqb c' ","); [discriminate|].
    destruct (IH _ C C' E) as [-> ->]; auto.
Qed.

(** **** X15.  The message of a dimension mismatch tells the two numbers
    apart: [DimensionMismatchError.__str__] of [lr.py] and the message of the
    [ValueError] of [lr_norm.py] are the same for two mismatches only when
    the expected and the observed numbers are the same. *)
Theorem dimension_messages_name_both_values (exp obs exp' obs' : nat) :
  (DimensionMismatchError_str exp obs = DimensionMismatchError_str exp' obs' ->
   exp = exp' /\ obs = obs') /\
  (as_lr_norm (DimensionMismatchError exp obs)
   = as_lr_norm (DimensionMismatchError exp' obs') ->
   exp = exp' /\ obs = obs').
Proof.
  split.
  - unfold DimensionMismatchError_str; intros E.
    apply append_cancel_l in E; cbn [append] in E.
    apply split_at_first_comma in E; auto using commas_str_of_nat.
    destruct E as [E1 E2]; injection E2 as E2.
    split; now apply str_of_nat_inj.
  - cbn [as_lr_norm]; intros [= E].
    apply split_at_first_comma in E; auto using commas_str_of_nat.
    destruct E as [E1 E2]; injection E2 as E2.
    split; now apply str_of_nat_inj.
Qed.

End Messages.

(** ** The further properties on sample inputs *)

(** X2, on a line of two spaces *)
Lemma blank_line_is_rejected_witness :
  lr.mapper_lr float_of_literal "  " (init 8 true)
  = (inl (FloatValueError ""), init 8 true) /\
  lr_norm.process_line float_of_literal "  " (init 8 true)
  = (inl (FloatValueError ""), init 8 true).
Proof.
  apply (@blank_line_is_rejected float _ float_of_literal "  " (init 8 true));
    reflexivity.
Defined.

(** X3, on two lines *)
Lemma counts_counts_the_lines_witness :
  counts (snd (for_each (lr.mapper_lr float_of_literal) ["5,1,0"; "1,0,1"]%string
                 (init 2 true)))
  = (counts (init (T := float) 2 true) + Z.of_nat 2)%Z.
Proof.
  apply (@counts_counts_the_lines float _ float_of_literal ["5,1,0"; "1,0,1"]%string
           (init 2 true)).
  left; reflexivity.
Defined.

(** X4, on three lines of which the second is not a number *)
Lemma loop_stops_at_first_rejected_line_witness :
  exists good bad rest,
    ["5,1,0"; "x"; "1,0,1"]%string = good ++ bad :: rest /\
    for_each (lr.mapper_lr float_of_literal) good (init 2 true)
    = (inr tt, snd (lr.mapper_lr float_of_literal "5,1,0" (init 2 true))) /\
    lr.mapper_lr float_of_literal bad
      (snd (lr.mapper_lr float_of_literal "5,1,0" (init 2 true)))
    = (inl (FloatValueError "x"),
       snd (lr.mapper_lr float_of_literal "5,1,0" (init 2 true))) /\
    for_each (lr_norm.process_line float_of_literal)
      ["5,1,0"; "x"; "1,0,1"]%string (init 2 true)
    = (inl (as_lr_norm (FloatValueError "x")),
       snd (lr.mapper_lr float_of_literal "5,1,0" (init 2 true))) /\
    counts (snd (lr.mapper_lr float_of_literal "5,1,0" (init 2 true)))
    = (counts (init (T := float) 2 true) + Z.of_nat (length good))%Z.
Proof.
  apply (@loop_stops_at_first_rejected_line float _ float_of_literal
           ["5,1,0"; "x"; "1,0,1"]%string (init 2 true)).
  reflexivity.
Defined.

(** X6, on one line and then another *)
Lemma run_accumulates_across_calls_witness :
  lr_norm.run float_of_literal ["3,1"]%string
    (snd (lr_norm.run float_of_literal ["1,0"]%string (init 1 true)))
  = lr_norm.run float_of_literal (["1,0"%string] ++ ["3,1"%string]) (init 1 true).
Proof.
  apply (@run_accumulates_across_calls float _ float_of_literal).
  reflexivity.
Defined.

Section RealSamplesMore.
Local Open Scope R_scope.

Lemma sample_main :
  lr_norm.main real_of_literal 1 true ["1,0"; "3,1"]%string = inr [2; 1].
Proof.
  rewrite main_by_map_task, sample_statistic; cbn [x_t_x x_t_y].
  replace [[0 + 0 * 0 + 1 * 1; 0 + 0 * 1 + 1 * 1];
           [0 + 1 * 0 + 1 * 1; 0 + 1 * 1 + 1 * 1]]
    with [[1; 1]; [1; 2]] by (repeat f_equal; ring).
  replace [0 + 1 * 0 + 3 * 1; 0 + 1 * 1 + 3 * 1] with [3; 4]
    by (repeat f_equal; ring).
  destruct (@cholesky_solve_pos_def 2 _ [3; 4] sample_pos_def eq_refl)
    as (t & -> & Hl & E).
  destruct t as [|t1 [|t2 [|? ?]]]; try discriminate.
  simpl in E; rsimp; injection E as E1 E2.
  repeat f_equal; lra.
Qed.

Lemma sample_reads :
  reads real_of_literal 1 ["1,0"; "3,1"]%string [(1, [0]); (3, [1])].
Proof. repeat constructor. Qed.

(** X7, on the two lines exchanged *)
Lemma line_order_does_not_matter_witness :
  for_each (lr.mapper_lr real_of_literal) ["3,1"; "1,0"]%string (init 1 true)
  = (inr tt, snd (for_each (lr.mapper_lr real_of_literal) ["1,0"; "3,1"]%string
                    (init 1 true))) /\
  for_each (lr_norm.process_line real_of_literal) ["3,1"; "1,0"]%string (init 1 true)
  = (inr tt, snd (for_each (lr.mapper_lr real_of_literal) ["1,0"; "3,1"]%string
                    (init 1 true))) /\
  lr.job real_of_literal 1 true [["3,1"; "1,0"]%string]
  = lr.job real_of_literal 1 true [["1,0"; "3,1"]%string] /\
  lr_norm.main real_of_literal 1 true ["3,1"; "1,0"]%string
  = lr_norm.main real_of_literal 1 true ["1,0"; "3,1"]%string.
Proof.
  apply (@line_order_does_not_matter real_of_literal 1 true
           ["1,0"; "3,1"]%string ["3,1"; "1,0"]%string).
  - apply perm_swap.
  - reflexivity.
Defined.

(** X8, on two lines *)
Lemma statistic_invariant_witness :
  let self := snd (for_each (lr.mapper_lr real_of_literal) ["1,0"; "3,1"]%string
                     (init 1 true)) in
  dims 2 2 (x_t_x self) /\
  transpose (x_t_x self) = x_t_x self /\
  length (x_t_y self) = 2%nat /\
  (forall v, length v = 2%nat -> 0 <= quad (x_t_x self) v) /\
  DIMENSION self = 1%nat /\ BIAS self = true.
Proof.
  apply (@statistic_invariant real_of_literal 1 true ["1,0"; "3,1"]%string
           (inr tt)).
  left; reflexivity.
Defined.

(** the job succeeds on the two sample partitions *)
Lemma sample_job :
  exists theta,
    lr.job real_of_literal 1 true [["1,0"]; ["3,1"]]%string = inr theta.
Proof.
  rewrite job_by_all_lines.
  set (t := snd (for_each (lr.mapper_lr real_of_literal)
                   ["1,0"; "3,1"]%string (init 1 true))).
  assert (E : for_each (lr.mapper_lr real_of_literal)
                (concat [["1,0"]; ["3,1"]]%string) (init 1 true) = (inr tt, t))
    by reflexivity.
  clearbody t; rewrite E.
  destruct (for_each_mapper_lr_well_formed _ _ (init_well_formed 1 true) E)
    as (W & HD & HB); simpl in HD, HB.
  assert (PD := @damped_pos_def t (/ 10000000000) W ltac:(lra)).
  destruct W as (_ & Hy & _); rewrite HD, HB in PD, Hy.
  destruct (@cholesky_solve_pos_def _ _ (x_t_y t) PD Hy) as (theta & C & _).
  now exists theta.
Qed.

(** X10, on two partitions of one line each *)
Lemma job_returns_damped_solution_witness :
  exists theta,
    lr.job real_of_literal 1 true [["1,0"]; ["3,1"]]%string = inr theta /\
    length theta = 2%nat /\
    mvmul (damped (x_t_x (snd (for_each (lr.mapper_lr real_of_literal)
                                 ["1,0"; "3,1"]%string (init 1 true))))
                  (/ 10000000000)) theta
    = x_t_y (snd (for_each (lr.mapper_lr real_of_literal)
                    ["1,0"; "3,1"]%string (init 1 true))).
Proof.
  apply (@job_returns_damped_solution real_of_literal 1 true
           [["1,0"]; ["3,1"]]%string).
  reflexivity.
Defined.

(** X11: on the records [(1, [0])] and [(3, [1])] the file reader returns
    [[2; 1]], which no coefficients beat *)
Lemma reader_returns_least_squares_witness :
  length [2; 1] = 2%nat /\
  forall theta', length theta' = 2%nat ->
                 rss true [(1, [0]); (3, [1])] [2; 1]
                 <= rss true [(1, [0]); (3, [1])] theta'.
Proof.
  apply (@reader_returns_least_squares real_of_literal 1 true
           ["1,0"; "3,1"]%string).
  - apply sample_reads.
  - apply sample_main.
Defined.

(** X12, on the same records in two partitions *)
Lemma job_returns_damped_least_squares_witness :
  exists theta,
    lr.job real_of_literal 1 true [["1,0"]; ["3,1"]]%string = inr theta /\
    length theta = 2%nat /\
    forall theta',
      length theta' = 2%nat ->
      rss true [(1, [0]); (3, [1])] theta + / 10000000000 * dot theta theta
      <= rss true [(1, [0]); (3, [1])] theta' + / 10000000000 * dot theta' theta'.
Proof.
  destruct sample_job as (theta & E).
  exists theta; split; [exact E|].
  apply (@job_returns_damped_least_squares real_of_literal 1 true
           [["1,0"]; ["3,1"]]%string).
  - apply sample_reads.
  - exact E.
Defined.

(** X14, on a 2 x 2 matrix *)
Lemma repeated_solve_adds_up_damping_witness :
  lr.cholesky_solution_linear_regression
    (snd (lr.cholesky_solution_linear_regression [[1; 1]; [1; 2]] [3; 4]
            (/ 10000000000)))
    [3; 4] (/ 10000000000)
  = lr.cholesky_solution_linear_regression [[1; 1]; [1; 2]] [3; 4]
      (/ 10000000000 + / 10000000000).
Proof.
  apply (@repeated_solve_adds_up_damping 2).
  split; [reflexivity|repeat constructor].
Defined.

End RealSamplesMore.

(** ** Data without noise *)

Section ExactData.
Local Open Scope R_scope.
Local Abbreviation vec := (vector R).
Variable py_float : string -> option R.

Lemma rss_nonneg (bias : bool) (records : list (R * vec)) (theta : vec) :
  0 <= rss bias records theta.
Proof.
  induction records as [|r records IH]; simpl; [lra|].
  pose proof (Rle_0_sqr (residual bias theta r)) as Q; unfold Rsqr in Q; lra.
Qed.

Lemma rss_exact (bias : bool) (records : list (R * vec)) (beta : vec) :
  Forall (fun r => fst r = dot (effective bias (snd r)) beta) records ->
  rss bias records beta = 0.
Proof.
  induction 1 as [|r records E _ IH]; simpl; auto.
  unfold residual; rewrite IH, E; ring.
Qed.

(** **** X16.  When every label is exactly the combination of its features
    (and of the constant, when there is a bias) with coefficients [beta],
    and the file reader returns coefficients, it returns [beta]. *)
Theorem reader_recovers_exact_coefficients (d : nat) (bias : bool)
    (lines : list string) (records : list (R * vec)) (beta theta : vec) :
  reads py_float d lines records ->
  Forall (fun r => fst r = dot (effective bias (snd r)) beta) records ->
  length beta = (d + int bias)%nat ->
  lr_norm.main py_float d bias lines = inr theta ->
  theta = beta.
Proof.
  intros Rd Ex Hb Em.
  destruct (@reads_objective py_float d bias _ records Rd (init d bias)
              (init_well_formed d bias) eq_refl eq_refl)
    as (t & Et & Q).
  rewrite main_by_map_task, Et in Em.
  destruct (@for_each_mapper_lr_well_formed py_float _ _ _ _
              (init_well_formed d bias) Et)
    as ((S & Hy & _) & HD & HB); simpl in HD, HB.
  rewrite HD, HB in S, Hy.
  assert (D := sym_border_dims S).
  assert (Sy := sym_border_symmetric S).
  destruct (@cholesky_solve_sound _ _ _ _ D Sy Hy Em) as (Eq & Hl & (_ & _ & PD)).
  specialize (Q theta beta Hl Hb).
  cbn [init x_t_x x_t_y] in Q.
  rewrite !quad_mzeros, !dot_zeros_l, (@rss_exact bias records beta Ex) in Q.
  pose proof (rss_nonneg bias records theta) as N.
  pose proof (@quad_vsub _ _ beta theta D Sy Hb Hl) as V; rewrite Eq in V.
  assert (Eb : dot (x_t_y t) theta = quad (x_t_x t) theta)
    by (unfold quad; now rewrite Eq, dot_comm).
  symmetry; apply vsub_zeros_eq; [congruence|].
  rewrite Hb.
  destruct (vec_eq_dec (vsub beta theta) (zeros (d + int bias))) as [|NZ]; auto.
  specialize (PD _ (@vsub_length _ _ beta theta _ Hb Hl) NZ); lra.
Qed.

End ExactData.

(** X16, on the records [(1, [0])] and [(3, [1])], which are [y = 2 x + 1] *)
Lemma reader_recovers_exact_coefficients_witness :
  exists theta,
    lr_norm.main real_of_literal 1 true ["1,0"; "3,1"]%string = inr theta /\
    theta = [2; 1]%R.
Proof.
  exists [2; 1]%R; split; [apply sample_main|].
  apply (@reader_recovers_exact_coefficients real_of_literal 1 true
           ["1,0"; "3,1"]%string [(1, [0]); (3, [1])]%R [2; 1]%R [2; 1]%R).
  - apply sample_reads.
  - repeat constructor; simpl; rsimp; lra.
  - reflexivity.
  - apply sample_main.
Defined.
